(** * sx: S-expression parser and canonical serializer (hlandau/sx)

    A shallow embedding of [sx.go], [b64.go] and the query helpers, and the
    properties of the parser state machine, the serializer and the queries
    that the specification states about them.

    Bytes and runes are integers ([Z]); Go strings and byte slices are lists
    of bytes.  Fixed-width arithmetic is written out with its wrap-around. *)

From Stdlib Require Import String Ascii ZArith Zbitwise List Bool Lia.
Import ListNotations.
Open Scope Z_scope.

Set Implicit Arguments.

(* ------------------------------------------------------------------ *)
(** * Bytes, runes and text *)

Abbreviation byte := Z (only parsing).
Abbreviation rune := Z (only parsing).

(** The bytes of a string literal. *)
Definition bytes_of (s : string) : list byte :=
  map (fun a => Z.of_nat (nat_of_ascii a)) (list_ascii_of_string s).

Definition len (A : Type) (l : list A) : Z := Z.of_nat (length l).

(** [byte(x)], [uint64(x)]: conversions that keep the low bits. *)
Definition to_byte (x : Z) : Z := x mod 256.
Definition to_uint64 (x : Z) : Z := x mod 2 ^ 64.
(** [int64(x)] of an unsigned 64-bit value: reinterpretation of the bits. *)
Definition to_int64 (x : Z) : Z := (x + 2 ^ 63) mod 2 ^ 64 - 2 ^ 63.

(** [bytes.IndexByte]. *)
Fixpoint IndexByte (b : list byte) (c : byte) : option nat :=
  match b with
  | [] => None
  | x :: b' => if x =? c then Some O
               else match IndexByte b' c with
                    | Some n => Some (S n)
                    | None => None
                    end
  end.

(** ** UTF-8 ([unicode/utf8]) *)

Definition RuneError : rune := 65533.

Definition is_cont (x : byte) : bool := (128 <=? x) && (x <=? 191).

(** [utf8.DecodeRune]: the rune at the head of [p] and its width in bytes;
    a malformed sequence is [(RuneError, 1)], the empty input
    [(RuneError, 0)]. *)
Definition DecodeRune (p : list byte) : rune * nat :=
  match p with
  | [] => (RuneError, O)
  | p0 :: t =>
    if p0 <? 128 then (p0, 1%nat)
    else if (194 <=? p0) && (p0 <=? 223) then
      match t with
      | b1 :: _ =>
        if is_cont b1 then (Z.lor (Z.shiftl (Z.land p0 31) 6) (Z.land b1 63), 2%nat)
        else (RuneError, 1%nat)
      | _ => (RuneError, 1%nat)
      end
    else if (224 <=? p0) && (p0 <=? 239) then
      match t with
      | b1 :: b2 :: _ =>
        let lo := if p0 =? 224 then 160 else 128 in
        let hi := if p0 =? 237 then 159 else 191 in
        if (lo <=? b1) && (b1 <=? hi) && is_cont b2 then
          (Z.lor (Z.shiftl (Z.land p0 15) 12)
             (Z.lor (Z.shiftl (Z.land b1 63) 6) (Z.land b2 63)), 3%nat)
        else (RuneError, 1%nat)
      | _ => (RuneError, 1%nat)
      end
    else if (240 <=? p0) && (p0 <=? 244) then
      match t with
      | b1 :: b2 :: b3 :: _ =>
        let lo := if p0 =? 240 then 144 else 128 in
        let hi := if p0 =? 244 then 143 else 191 in
        if (lo <=? b1) && (b1 <=? hi) && is_cont b2 && is_cont b3 then
          (Z.lor (Z.shiftl (Z.land p0 7) 18)
             (Z.lor (Z.shiftl (Z.land b1 63) 12)
                (Z.lor (Z.shiftl (Z.land b2 63) 6) (Z.land b3 63))), 4%nat)
        else (RuneError, 1%nat)
      | _ => (RuneError, 1%nat)
      end
    else (RuneError, 1%nat)
  end.

(** [string(r)] for a rune [r]: its UTF-8 encoding; runes that are not
    valid code points encode as U+FFFD. *)
Definition string_of_rune (r : rune) : list byte :=
  if (r <? 0) || (1114111 <? r) || ((55296 <=? r) && (r <=? 57343))
  then [239; 191; 189]
  else if r <=? 127 then [r]
  else if r <=? 2047 then
    [Z.lor 192 (Z.shiftr r 6); Z.lor 128 (Z.land r 63)]
  else if r <=? 65535 then
    [Z.lor 224 (Z.shiftr r 12); Z.lor 128 (Z.land (Z.shiftr r 6) 63);
     Z.lor 128 (Z.land r 63)]
  else
    [Z.lor 240 (Z.shiftr r 18); Z.lor 128 (Z.land (Z.shiftr r 12) 63);
     Z.lor 128 (Z.land (Z.shiftr r 6) 63); Z.lor 128 (Z.land r 63)].

(** ** Decimal rendering ([strconv.FormatUint], [strconv.FormatInt]) *)

Fixpoint digits_acc (fuel : nat) (n : Z) (acc : list byte) : list byte :=
  match fuel with
  | O => acc
  | S fuel' =>
    let acc' := (48 + n mod 10) :: acc in
    if n <? 10 then acc' else digits_acc fuel' (n / 10) acc'
  end.

(** A 64-bit value has at most twenty decimal digits. *)
Definition FormatUint (n : Z) : list byte := digits_acc 20 n [].

Definition FormatInt (n : Z) : list byte :=
  if n <? 0 then 45 :: FormatUint (- n) else FormatUint n.

(** ** Base64 ([encoding/base64], standard alphabet with padding) *)

Definition b64_val (c : byte) : option Z :=
  if (65 <=? c) && (c <=? 90) then Some (c - 65)
  else if (97 <=? c) && (c <=? 122) then Some (c - 71)
  else if (48 <=? c) && (c <=? 57) then Some (c + 4)
  else if c =? 43 then Some 62
  else if c =? 47 then Some 63
  else None.

Definition is_space (r : Z) : bool :=
  (r =? 32) || (r =? 9) || (r =? 13) || (r =? 10).

(** What [filteringReader] lets through: everything but the four
    whitespace bytes (b64.go, [filteringReader.Read]). *)
Definition filter_ws (b : list byte) : list byte :=
  filter (fun x => negb (is_space x)) b.

(** The bytes a fresh standard decoder yields when it is drained over the
    (already filtered) input, and whether it stopped on an error.  Input is
    taken four characters at a time; the quantum that holds an invalid
    character, bad padding or a premature end of input yields nothing, and
    anything after a padded quantum is an error.  This is the decoder's
    output on an input that it takes from its reader in one fill
    ([decoder_fill] below); a longer input is taken and decoded fill by
    fill, which this function does not follow. *)
Fixpoint b64_decode (src : list byte) : list byte * bool :=
  match src with
  | [] => ([], false)
  | c0 :: c1 :: c2 :: c3 :: rest =>
    match b64_val c0, b64_val c1 with
    | Some v0, Some v1 =>
      match b64_val c2 with
      | Some v2 =>
        match b64_val c3 with
        | Some v3 =>
          let '(out, e) := b64_decode rest in
          (Z.lor (Z.shiftl v0 2) (Z.shiftr v1 4)
             :: Z.lor (Z.shiftl (Z.land v1 15) 4) (Z.shiftr v2 2)
             :: Z.lor (Z.shiftl (Z.land v2 3) 6) v3 :: out, e)
        | None =>
          if c3 =? 61 then
            ([Z.lor (Z.shiftl v0 2) (Z.shiftr v1 4);
              Z.lor (Z.shiftl (Z.land v1 15) 4) (Z.shiftr v2 2)],
             negb (match rest with [] => true | _ => false end))
          else ([], true)
        end
      | None =>
        if (c2 =? 61) && (c3 =? 61) then
          ([Z.lor (Z.shiftl v0 2) (Z.shiftr v1 4)],
           negb (match rest with [] => true | _ => false end))
        else ([], true)
      end
    | _, _ => ([], true)
    end
  | _ => ([], true)
  end.


(* ------------------------------------------------------------------ *)
(** * Values and formats (sx.go) *)

(** The dynamic types a parsed value can have: [string], [[]byte], [int],
    [int64], [uint64] and [[]interface{}]; [VOther] stands for a value of
    any other dynamic type, which only a caller can build. *)
#[warnings="-register-all"]
Inductive Value : Type :=
| VString (s : list byte)
| VBytes (b : list byte)
| VInt (n : Z)
| VInt64 (n : Z)
| VUint64 (n : Z)
| VList (l : list Value)
| VOther.

Record Format : Type := {
  allowQuotedString : bool;
  allowIntegers : bool;
  allowLists : bool;
  allowVerbatimBinaryString : bool;
  allowBase64BinaryString : bool;
  allowVerbatimBase64BinaryString : bool;
  allowHexBinaryString : bool;
  allowTokens : bool;
  maxListDepth : Z;
  unicodeStream : bool
}.

Definition Csexp : Format := {|
  allowQuotedString := true; allowIntegers := true; allowLists := true;
  allowVerbatimBinaryString := true; allowBase64BinaryString := true;
  allowVerbatimBase64BinaryString := true; allowHexBinaryString := true;
  allowTokens := true; maxListDepth := 255; unicodeStream := false |}.

Definition SX : Format := {|
  allowQuotedString := true; allowIntegers := true; allowLists := true;
  allowVerbatimBinaryString := true; allowBase64BinaryString := true;
  allowVerbatimBase64BinaryString := true; allowHexBinaryString := true;
  allowTokens := true; maxListDepth := 255; unicodeStream := true |}.

Inductive pstate : Type :=
| pstateDrifting
| pstateInteger
| pstateNegIntegerStart
| pstateLengthQuotedString
| pstateLengthByteString
| pstateQuotedString
| pstateQuotedStringEscape
| pstateQuotedStringHexEscape
| pstateQuotedStringHexEscape2
| pstateQuotedStringOctalEscape
| pstateQuotedStringOctalEscape2
| pstateQuotedStringOctalEscape3
| pstateQuotedStringEscapeCR
| pstateQuotedStringEscapeLF
| pstateBase64String
| pstateToken
| pstateHexString
| pstateHexStringOdd.

Inductive error : Type :=
| ErrInvalidToken (r : rune)      (* &err{r} *)
| ErrDepthLimitExceeded
| ErrListEnd
| ErrBase64                       (* an error of the base64 decoder *)
| ErrShortWrite                   (* io.ErrShortWrite *)
| ErrUnsupportedType.

(** A base64 stream decoder either has not been read yet or has been
    drained: once it has reported the end of its input or an error it
    keeps reporting it and yields nothing more. *)
Inductive decoder : Type := DecFresh | DecDone.

(** b64.go, [writeDecoder]: the decoder and the sticky error; the sink is
    always the parser's own [write]. *)
Record writeDecoder : Type := {
  wd_b64dec : decoder;
  wd_err : option error
}.

Definition newWriteDecoder : writeDecoder :=
  {| wd_b64dec := DecFresh; wd_err := None |}.

(** The parser.  [p_b64dec] and [p_subb64] are [None] while the Go fields
    are nil.  (The unused field [sub] is left out, and [b64sr] only hands
    the current segment to the decoder.) *)
Record Parser : Type := {
  p_f : Format;
  p_state : pstate;
  p_s : list byte;
  p_b : list byte;
  p_xL : Z;
  p_i : Z;
  p_neg : bool;
  p_lenhint : bool;
  p_bytemode : Z;
  p_reissue : Z;
  p_tokens : list Value;
  p_stack : list (list Value);
  p_depth : Z;
  p_eof : bool;
  p_b64dec : option decoder;
  p_sublexing : bool;
  p_subb64 : option writeDecoder
}.

Definition set_state v p := Build_Parser (p_f p) v (p_s p) (p_b p) (p_xL p) (p_i p) (p_neg p) (p_lenhint p) (p_bytemode p) (p_reissue p) (p_tokens p) (p_stack p) (p_depth p) (p_eof p) (p_b64dec p) (p_sublexing p) (p_subb64 p).
Definition set_s v p := Build_Parser (p_f p) (p_state p) v (p_b p) (p_xL p) (p_i p) (p_neg p) (p_lenhint p) (p_bytemode p) (p_reissue p) (p_tokens p) (p_stack p) (p_depth p) (p_eof p) (p_b64dec p) (p_sublexing p) (p_subb64 p).
Definition set_b v p := Build_Parser (p_f p) (p_state p) (p_s p) v (p_xL p) (p_i p) (p_neg p) (p_lenhint p) (p_bytemode p) (p_reissue p) (p_tokens p) (p_stack p) (p_depth p) (p_eof p) (p_b64dec p) (p_sublexing p) (p_subb64 p).
Definition set_xL v p := Build_Parser (p_f p) (p_state p) (p_s p) (p_b p) v (p_i p) (p_neg p) (p_lenhint p) (p_bytemode p) (p_reissue p) (p_tokens p) (p_stack p) (p_depth p) (p_eof p) (p_b64dec p) (p_sublexing p) (p_subb64 p).
Definition set_i v p := Build_Parser (p_f p) (p_state p) (p_s p) (p_b p) (p_xL p) v (p_neg p) (p_lenhint p) (p_bytemode p) (p_reissue p) (p_tokens p) (p_stack p) (p_depth p) (p_eof p) (p_b64dec p) (p_sublexing p) (p_subb64 p).
Definition set_neg v p := Build_Parser (p_f p) (p_state p) (p_s p) (p_b p) (p_xL p) (p_i p) v (p_lenhint p) (p_bytemode p) (p_reissue p) (p_tokens p) (p_stack p) (p_depth p) (p_eof p) (p_b64dec p) (p_sublexing p) (p_subb64 p).
Definition set_lenhint v p := Build_Parser (p_f p) (p_state p) (p_s p) (p_b p) (p_xL p) (p_i p) (p_neg p) v (p_bytemode p) (p_reissue p) (p_tokens p) (p_stack p) (p_depth p) (p_eof p) (p_b64dec p) (p_sublexing p) (p_subb64 p).
Definition set_bytemode v p := Build_Parser (p_f p) (p_state p) (p_s p) (p_b p) (p_xL p) (p_i p) (p_neg p) (p_lenhint p) v (p_reissue p) (p_tokens p) (p_stack p) (p_depth p) (p_eof p) (p_b64dec p) (p_sublexing p) (p_subb64 p).
Definition set_reissue v p := Build_Parser (p_f p) (p_state p) (p_s p) (p_b p) (p_xL p) (p_i p) (p_neg p) (p_lenhint p) (p_bytemode p) v (p_tokens p) (p_stack p) (p_depth p) (p_eof p) (p_b64dec p) (p_sublexing p) (p_subb64 p).
Definition set_tokens v p := Build_Parser (p_f p) (p_state p) (p_s p) (p_b p) (p_xL p) (p_i p) (p_neg p) (p_lenhint p) (p_bytemode p) (p_reissue p) v (p_stack p) (p_depth p) (p_eof p) (p_b64dec p) (p_sublexing p) (p_subb64 p).
Definition set_stack v p := Build_Parser (p_f p) (p_state p) (p_s p) (p_b p) (p_xL p) (p_i p) (p_neg p) (p_lenhint p) (p_bytemode p) (p_reissue p) (p_tokens p) v (p_depth p) (p_eof p) (p_b64dec p) (p_sublexing p) (p_subb64 p).
Definition set_depth v p := Build_Parser (p_f p) (p_state p) (p_s p) (p_b p) (p_xL p) (p_i p) (p_neg p) (p_lenhint p) (p_bytemode p) (p_reissue p) (p_tokens p) (p_stack p) v (p_eof p) (p_b64dec p) (p_sublexing p) (p_subb64 p).
Definition set_eof v p := Build_Parser (p_f p) (p_state p) (p_s p) (p_b p) (p_xL p) (p_i p) (p_neg p) (p_lenhint p) (p_bytemode p) (p_reissue p) (p_tokens p) (p_stack p) (p_depth p) v (p_b64dec p) (p_sublexing p) (p_subb64 p).
Definition set_b64dec v p := Build_Parser (p_f p) (p_state p) (p_s p) (p_b p) (p_xL p) (p_i p) (p_neg p) (p_lenhint p) (p_bytemode p) (p_reissue p) (p_tokens p) (p_stack p) (p_depth p) (p_eof p) v (p_sublexing p) (p_subb64 p).
Definition set_sublexing v p := Build_Parser (p_f p) (p_state p) (p_s p) (p_b p) (p_xL p) (p_i p) (p_neg p) (p_lenhint p) (p_bytemode p) (p_reissue p) (p_tokens p) (p_stack p) (p_depth p) (p_eof p) (p_b64dec p) v (p_subb64 p).
Definition set_subb64 v p := Build_Parser (p_f p) (p_state p) (p_s p) (p_b p) (p_xL p) (p_i p) (p_neg p) (p_lenhint p) (p_bytemode p) (p_reissue p) (p_tokens p) (p_stack p) (p_depth p) (p_eof p) (p_b64dec p) (p_sublexing p) v.

(** [p.reissue++], [p.bytemode++] and [p.bytemode--] ([bytemode] is a
    byte and wraps). *)
Definition reissue_inc p := set_reissue (p_reissue p + 1) p.
Definition bytemode_inc p := set_bytemode (to_byte (p_bytemode p + 1)) p.
Definition bytemode_dec p := set_bytemode (to_byte (p_bytemode p - 1)) p.

(** [p.s += ...] *)
Definition s_append (x : list byte) p := set_s (p_s p ++ x) p.

Definition push (tok : Value) (p : Parser) : Parser :=
  set_tokens (p_tokens p ++ [tok]) p.

Definition is_digit (r : rune) : bool := (48 <=? r) && (r <=? 57).

Definition isTokenStartChar (r : rune) : bool :=
  ((65 <=? r) && (r <=? 90)) || (r =? 95) || ((97 <=? r) && (r <=? 122)) ||
  (r =? 46) || (r =? 46) || (r =? 47) || (r =? 58) ||
  (r =? 42) || (r =? 43) || (r =? 61) || (r =? 45).

Definition isTokenChar (r : rune) : bool :=
  isTokenStartChar r || ((48 <=? r) && (r <=? 57)).

Definition dechex (r : rune) : option byte :=
  if (48 <=? r) && (r <=? 57) then Some (to_byte (r - 48))
  else if (97 <=? r) && (r <=? 122) then Some (to_byte (r - 97 + 10))
  else if (65 <=? r) && (r <=? 90) then Some (to_byte (r - 65 + 10))
  else None.

Definition decoct (r : rune) : option byte :=
  if (48 <=? r) && (r <=? 55) then Some (to_byte (r - 48)) else None.

(** [Parser.init] and [Format.NewParser]. *)
Definition NewParser (fmt : Format) : Parser :=
  let p := {| p_f := fmt; p_state := pstateDrifting; p_s := []; p_b := [];
              p_xL := 0; p_i := 0; p_neg := false; p_lenhint := false;
              p_bytemode := 0; p_reissue := 0; p_tokens := []; p_stack := [];
              p_depth := 0; p_eof := false; p_b64dec := None;
              p_sublexing := false; p_subb64 := None |} in
  if negb (unicodeStream fmt) then bytemode_inc p else p.

(* ------------------------------------------------------------------ *)
(** * The parser state machine (sx.go, [Parser.write]) *)

(** [l[len(l)-1]] and [l[0:len(l)-1]]; [None] on the empty slice, where Go
    panics. *)
Fixpoint unsnoc (A : Type) (l : list A) : option (list A * A) :=
  match l with
  | [] => None
  | x :: l' => match unsnoc l' with
               | None => Some ([], x)
               | Some (init, y) => Some (x :: init, y)
               end
  end.

(** What one pass through the [switch] does to the loop.  The cursor [i]
    of the source is kept as the unread input [rest = b[i:]] together with
    [prev = b[i-1]] ([None] while [i = 0]). *)
Inductive action : Type :=
| Continue (p : Parser) (prev : option byte) (rest : list byte)
| Return_ (p : Parser) (rest : list byte) (e : option error)
| Sublex (p : Parser) (rest : list byte)   (* return p.Write(b[i:]) *)
| Panic.

(** The integer pushed when an integer atom ends. *)
Definition integer_token (neg : bool) (i : Z) : Value :=
  if neg then
    if i <=? 2147483648 then VInt (- i)
    else VInt64 (to_int64 (- to_int64 i))
  else
    if i <=? 2147483647 then VInt i
    else VUint64 i.

(** The three octal-escape states share their code; [next] is [None] in
    the third one. *)
Definition octal_digit (p : Parser) (r : rune) (next : option pstate) : option Parser :=
  match decoct r with
  | None => None
  | Some v =>
    let p1 := set_i (Z.lor (to_byte (Z.shiftl (p_i p) 3)) v) p in
    match next with
    | None => Some (set_i 0 (s_append [to_byte (p_i p1)] (set_state pstateQuotedString p1)))
    | Some st => Some (set_state st p1)
    end
  end.

Definition dispatch (p : Parser) (r : rune) (prev : option byte) (rest : list byte) : action :=
  let next q := Continue q prev rest in
  let fail q := Return_ q rest (Some (ErrInvalidToken r)) in
  let fmt := p_f p in
  match p_state p with
  | pstateDrifting =>
    if p_eof p then Return_ p rest None
    else if is_space r then next p
    else if is_digit r && allowIntegers fmt then
      next (reissue_inc (set_state pstateInteger p))
    else if (r =? 45) && allowIntegers fmt then
      next (set_state pstateNegIntegerStart p)
    else if (r =? 40) && allowLists fmt then
      if maxListDepth fmt <=? p_depth p then Return_ p rest (Some ErrDepthLimitExceeded)
      else next (set_tokens [] (set_stack (p_stack p ++ [p_tokens p])
                                  (set_depth (p_depth p + 1) p)))
    else if (r =? 41) && allowLists fmt then
      if p_depth p =? 0 then Return_ p rest (Some ErrListEnd)
      else match unsnoc (p_stack p) with
           | None => Panic
           | Some (stack', ptok) =>
             next (set_tokens (ptok ++ [VList (p_tokens p)])
                     (set_stack stack' (set_depth (p_depth p - 1) p)))
           end
    else if (r =? 34) && allowQuotedString fmt then
      next (set_state pstateQuotedString p)
    else if (r =? 124) && allowBase64BinaryString fmt then
      next (set_b64dec (Some DecFresh) (set_state pstateBase64String p))
    else if (r =? 123) && allowVerbatimBase64BinaryString fmt && negb (p_sublexing p) then
      Sublex (set_subb64 (Some newWriteDecoder) (set_sublexing true p)) rest
    else if allowTokens fmt && isTokenStartChar r then
      next (reissue_inc (set_state pstateToken p))
    else if allowHexBinaryString fmt && (r =? 35) then
      next (set_state pstateHexString p)
    else fail p
  | pstateToken =>
    if negb (isTokenChar r) then
      next (set_s [] (push (VString (p_s p)) (set_state pstateDrifting (reissue_inc p))))
    else next (s_append (string_of_rune r) p)
  | pstateNegIntegerStart =>
    if is_digit r then
      next (reissue_inc (set_neg true (set_state pstateInteger p)))
    else next (reissue_inc (set_s [45] (set_state pstateToken p)))
  | pstateInteger =>
    if is_digit r then next (set_i (to_uint64 (p_i p * 10 + (r - 48))) p)
    else if (r =? 34) && allowQuotedString fmt && negb (p_neg p) then
      next (set_state pstateLengthQuotedString (set_i 0 (set_xL (p_i p) p)))
    else if (r =? 35) && allowHexBinaryString fmt && negb (p_neg p) then
      next (set_lenhint true (set_state pstateHexString (set_i 0 (set_xL (p_i p) p))))
    else if (r =? 124) && allowBase64BinaryString fmt && negb (p_neg p) then
      next (set_lenhint true (set_state pstateBase64String (set_i 0 (set_xL (p_i p) p))))
    else if (r =? 58) && allowVerbatimBinaryString fmt && negb (p_neg p) then
      next (bytemode_inc (set_lenhint true
              (set_state pstateLengthByteString (set_i 0 (set_xL (p_i p) p)))))
    else
      next (set_state pstateDrifting (reissue_inc (set_neg false (set_i 0
              (push (integer_token (p_neg p) (p_i p)) p)))))
  | pstateLengthByteString =>
    if p_xL p =? 0 then
      next (reissue_inc (set_b [] (push (VBytes (p_b p))
              (set_state pstateDrifting (bytemode_dec p)))))
    else next (set_xL (p_xL p - 1) (set_b (p_b p ++ [to_byte r]) p))
  | pstateLengthQuotedString =>
    if p_xL p =? 0 then
      next (set_s [] (push (VString (p_s p)) (set_state pstateDrifting p)))
    else next (set_xL (p_xL p - 1) (s_append (string_of_rune r) p))
  | pstateQuotedString =>
    if r =? 34 then next (set_s [] (push (VString (p_s p)) (set_state pstateDrifting p)))
    else if r =? 92 then next (set_state pstateQuotedStringEscape p)
    else next (s_append (string_of_rune r) p)
  | pstateQuotedStringEscape =>
    let q := set_state pstateQuotedString p in
    if r =? 97 then next (s_append [7] q)
    else if r =? 98 then next (s_append [8] q)
    else if r =? 102 then next (s_append [12] q)
    else if r =? 110 then next (s_append [10] q)
    else if r =? 114 then next (s_append [13] q)
    else if r =? 116 then next (s_append [9] q)
    else if r =? 118 then next (s_append [11] q)
    else if r =? 13 then next (set_state pstateQuotedStringEscapeLF q)
    else if r =? 10 then next (set_state pstateQuotedStringEscapeCR q)
    else if r =? 120 then next (set_state pstateQuotedStringHexEscape q)
    else if (48 <=? r) && (r <=? 55) then
      next (reissue_inc (set_i 0 (set_state pstateQuotedStringOctalEscape q)))
    else next (s_append (string_of_rune r) q)
  | pstateQuotedStringHexEscape =>
    match dechex r with
    | None => fail p
    | Some v => next (set_state pstateQuotedStringHexEscape2 (set_i v p))
    end
  | pstateQuotedStringHexEscape2 =>
    match dechex r with
    | None => fail p
    | Some v =>
      next (set_i 0 (set_state pstateQuotedString
              (s_append [Z.lor (to_byte (Z.shiftl (p_i p) 4)) v] p)))
    end
  | pstateQuotedStringOctalEscape =>
    match octal_digit p r (Some pstateQuotedStringOctalEscape2) with
    | None => fail p | Some q => next q end
  | pstateQuotedStringOctalEscape2 =>
    match octal_digit p r (Some pstateQuotedStringOctalEscape3) with
    | None => fail p | Some q => next q end
  | pstateQuotedStringOctalEscape3 =>
    match octal_digit p r None with
    | None => fail p | Some q => next q end
  | pstateQuotedStringEscapeLF =>
    next (set_state pstateQuotedString (if negb (r =? 10) then reissue_inc p else p))
  | pstateQuotedStringEscapeCR =>
    next (set_state pstateQuotedString (if r =? 13 then reissue_inc p else p))
  | pstateBase64String =>
    match prev with
    | None => Panic                          (* b[i-1:] with i = 0 *)
    | Some x =>
      let cur := x :: rest in
      let idx := IndexByte cur 124 in
      let seg := match idx with None => cur | Some k => firstn k cur end in
      match p_b64dec p with
      | None => Panic                        (* ReadAll of a nil reader *)
      | Some d =>
        (* ReadAll: the segment decoded in one piece, as the decoder does
           with at most ReadAll_fill bytes *)
        let buf := match d with
                   | DecFresh => fst (b64_decode (filter_ws seg))
                   | DecDone => []
                   end in
        let p1 := s_append buf (set_b64dec (Some DecDone) p) in
        match idx with
        | None => Continue p1 (Some (last cur 0)) []
        | Some k =>
          if p_lenhint p1 && negb (len (p_s p1) =? p_xL p1) then
            Return_ p1 (skipn k rest) (Some (ErrInvalidToken r))
          else
            Continue (set_s [] (push (VString (p_s p1)) (set_state pstateDrifting p1)))
              (Some 124) (skipn k rest)
        end
      end
    end
  | pstateHexString =>
    if r =? 35 then
      if p_lenhint p && negb (len (p_b p) =? p_xL p) then fail p
      else next (set_lenhint false (set_i 0 (set_b []
                   (push (VBytes (p_b p)) (set_state pstateDrifting p)))))
    else if (r =? 32) || (r =? 13) || (r =? 10) || (r =? 9) then next p
    else match dechex r with
         | None => fail p
         | Some hv => next (set_state pstateHexStringOdd (set_i hv p))
         end
  | pstateHexStringOdd =>
    if (r =? 32) || (r =? 13) || (r =? 10) || (r =? 9) then next p
    else match dechex r with
         | None => fail p
         | Some hv =>
           next (set_state pstateHexString
                   (set_b (p_b p ++ [Z.lor (to_byte (Z.shiftl (to_byte (p_i p)) 4)) hv]) p))
         end
  end.

(** How a call of [write] or [Write] ends: it returns (with the parser as
    it then is, the input it has not consumed, and the error if any), or
    the Go code panics, or the model's iteration bound is reached. *)
Inductive outcome : Type :=
| Returned (p : Parser) (rest : list byte) (e : option error)
| Panicked
| OutOfFuel.

(** b64.go, [writeDecoder.Write], with the parser's [write] as the sink
    [w].  The decoder is drained over the filtered segment in one piece and
    what it yields is handed to the sink ([io.Copy]): this is what the code
    does with a segment of at most [Copy_fill] bytes, which the decoder
    takes in one fill; a longer segment reaches the sink in several calls,
    one for each fill. *)
Definition subb64_Write (w : Parser -> list byte -> outcome)
    (p : Parser) (seg : list byte) : outcome :=
  match p_subb64 p with
  | None => Panicked
  | Some wd =>
    match wd_err wd with
    | Some e => Returned p seg (Some e)
    | None =>
      match wd_b64dec wd with
      | DecDone => Returned p [] None
      | DecFresh =>
        let '(out, bad) := b64_decode (filter_ws seg) in
        let stick e q :=
          set_subb64 (Some {| wd_b64dec := DecDone; wd_err := Some e |}) q in
        let p0 := set_subb64 (Some {| wd_b64dec := DecDone; wd_err := None |}) p in
        let finish q :=
          if bad then Returned (stick ErrBase64 q) [] (Some ErrBase64)
          else Returned q [] None in
        match out with
        | [] => finish p0
        | _ =>
          match w p0 out with
          | Returned p1 rest1 (Some ew) => Returned (stick ew p1) rest1 (Some ew)
          | Returned p1 rest1 None =>
            match rest1 with
            | [] => finish p1
            | _ => Returned (stick ErrShortWrite p1) rest1 (Some ErrShortWrite)
            end
          | o => o
          end
        end
      end
    end
  end.

(** [Parser.Write], over the function [w] that stands for [p.write]. *)
Definition Parser_Write_with (w : Parser -> list byte -> outcome)
    (p : Parser) (b : list byte) : outcome :=
  if p_sublexing p then
    match IndexByte b 125 with
    | None => subb64_Write w p b
    | Some idx =>
      match subb64_Write w p (firstn idx b) with
      | Returned p1 _ None => w (set_sublexing false p1) (skipn (S idx) b)
      | o => o
      end
    end
  else w p b.

(** The rune at the cursor and its width: one byte in byte mode, one UTF-8
    sequence otherwise ([useUnicode] is the constant [true]). *)
Definition read_rune (p : Parser) (rest : list byte) : rune * nat :=
  if negb (p_bytemode p =? 0) then (hd 0 rest, 1%nat) else DecodeRune rest.

(** What the loop does with the outcome of the [switch]; [loop] is the
    rest of the loop. *)
Definition resume (loop : Parser -> option byte -> list byte -> rune -> outcome)
    (a : action) (r : rune) : outcome :=
  match a with
  | Continue p prev rest => loop p prev rest r
  | Return_ p rest e => Returned p rest e
  | Sublex p rest => Parser_Write_with (fun q b => loop q None b 0) p rest
  | Panic => Panicked
  end.

(** The [for] loop of [write].  [r] is the local rune variable, which a
    reissue dispatches again. *)
Fixpoint write_loop (fuel : nat) (p : Parser) (prev : option byte)
    (rest : list byte) (r : rune) {struct fuel} : outcome :=
  match fuel with
  | O => OutOfFuel
  | S fuel' =>
    if 0 <? p_reissue p then
      resume (write_loop fuel')
        (dispatch (set_reissue (p_reissue p - 1) p) r prev rest) r
    else match rest with
         | [] => Returned p [] None
         | _ => let '(r1, sz) := read_rune p rest in
                resume (write_loop fuel')
                  (dispatch p r1 (nth_error rest (sz - 1)) (skipn sz rest)) r1
         end
  end.

(** Every iteration either consumes input or uses up a reissue, and a
    rune is dispatched at most three times. *)
Definition write_fuel (p : Parser) (b : list byte) : nat :=
  S (3 * length b + 3 * Z.to_nat (p_reissue p)).

Definition write (p : Parser) (b : list byte) : outcome :=
  write_loop (write_fuel p b) p None b 0.

Definition Parser_Write (p : Parser) (b : list byte) : outcome :=
  Parser_Write_with write p b.

Definition Close (p : Parser) : outcome :=
  Parser_Write (set_eof true p) [0].

Inductive result : Type :=
| Ok (vs : list Value)
| Err (e : error)
| Panics
| NoFuel.

(** [Format.Parse]. *)
Definition Parse (fmt : Format) (b : list byte) : result :=
  match Parser_Write (NewParser fmt) b with
  | Returned p _ (Some e) => Err e
  | Returned p _ None =>
    match Close p with
    | Returned p' _ (Some e) => Err e
    | Returned p' _ None => Ok (p_tokens p')
    | Panicked => Panics
    | OutOfFuel => NoFuel
    end
  | Panicked => Panics
  | OutOfFuel => NoFuel
  end.

(* ------------------------------------------------------------------ *)
(** * The canonical serializer (sx.go, [writeList]) *)

(** [spacer.write(b, 'i')]: a space if the recorded type is ['i'], and the
    type is recorded. *)
Definition spacer_write (prevType : rune) (b : list byte) (t : rune) : rune * list byte :=
  (t, if prevType =? 105 then b ++ [32] else b).

Section WriteList.
Variable writeValue : Value -> rune -> list byte -> rune * list byte * option error.

(** The [range] loop over the elements, threading the spacer and the
    buffer; it stops at the first error. *)
Fixpoint write_elems (vs : list Value) (prevType : rune) (b : list byte)
    : list byte * option error :=
  match vs with
  | [] => (b, None)
  | v :: vs' =>
    match writeValue v prevType b with
    | (pt, b', None) => write_elems vs' pt b'
    | (_, b', Some e) => (b', Some e)
    end
  end.
End WriteList.

(** One turn of the type switch: the spacer's recorded type and the buffer
    after the element [v] has been written. *)
Fixpoint writeValue (v : Value) (prevType : rune) (b : list byte) {struct v}
    : rune * list byte * option error :=
  match v with
  | VString vv => (prevType, b ++ FormatUint (len vv) ++ [58] ++ vv, None)
  | VBytes vv => (prevType, b ++ FormatUint (len vv) ++ [58] ++ vv, None)
  | VInt vv =>
    let '(pt, b1) := spacer_write prevType b 105 in (pt, b1 ++ FormatInt vv, None)
  | VInt64 vv =>
    let '(pt, b1) := spacer_write prevType b 105 in (pt, b1 ++ FormatInt vv, None)
  | VUint64 vv =>
    let '(pt, b1) := spacer_write prevType b 105 in (pt, b1 ++ FormatUint vv, None)
  | VList vv =>
    match write_elems writeValue vv 0 (b ++ [40]) with
    | (b1, None) => (prevType, b1 ++ [41], None)
    | (b1, Some e) => (prevType, b1, Some e)
    end
  | VOther => (prevType, b, Some ErrUnsupportedType)
  end.

Definition writeList (vs : list Value) (b : list byte) : list byte * option error :=
  write_elems writeValue vs 0 b.

(** [Format.String]: the rendering, or the error and the empty string. *)
Definition Format_String (vs : list Value) : list byte * option error :=
  match writeList vs [] with
  | (b, None) => (b, None)
  | (_, Some e) => ([], Some e)
  end.

(** The rendering of a tree that [Format.String] accepts. *)
Definition serialize (vs : list Value) : list byte := fst (Format_String vs).

(* ------------------------------------------------------------------ *)
(** * Query helpers *)

Definition bytes_eqb (a b : list byte) : bool :=
  if list_eq_dec Z.eq_dec a b then true else false.

(** Has head yarn? *)
Definition Hhy (v : Value) (s : list byte) : bool :=
  match v with
  | VList (VString ss :: _) => bytes_eqb ss s
  | _ => false
  end.

(** Query first by head yarn; [None] is the nil slice. *)
Fixpoint Q1bhy (xs : list Value) (s : list byte) : option (list Value) :=
  match xs with
  | [] => None
  | x :: xs' =>
    if Hhy x s then match x with VList l => Some l | _ => None end
    else Q1bhy xs' s
  end.

(** Query first by head yarn tail. *)
Definition Q1bhyt (xs : list Value) (s : list byte) : option (list Value) :=
  match Q1bhy xs s with
  | None => None
  | Some [] => Some []
  | Some (_ :: t) => Some t
  end.

Inductive query_result : Type :=
| QPanic
| QFound (r : option (list Value)).

Fixpoint Q1bsyt_loop (selvs : list Value) (cur : list Value) : query_result :=
  match selvs with
  | [] => QFound (Some cur)
  | VString s :: selvs' =>
    match Q1bhyt cur s with
    | None => QFound None
    | Some cur' => Q1bsyt_loop selvs' cur'
    end
  | _ => QPanic
  end.

(** Query first by selector yarn tail. *)
Definition Q1bsyt (xs : list Value) (sel : list byte) : query_result :=
  match Parse SX sel with
  | Ok selvs => Q1bsyt_loop selvs xs
  | _ => QPanic
  end.

(* ------------------------------------------------------------------ *)
(** * Notions used in the statements *)

(** The parser an action leaves behind, if the code did not panic. *)
Definition action_parser (a : action) : option Parser :=
  match a with
  | Continue p _ _ => Some p
  | Return_ p _ _ => Some p
  | Sublex p _ => Some p
  | Panic => None
  end.

(** [n] lists nested in each other, as a token list: [()], [(())], ... *)
Fixpoint nested (n : nat) : list Value :=
  match n with
  | O => []
  | S n' => [VList (nested n')]
  end.

(** The parser after an opening parenthesis was accepted. *)
Definition opened (p : Parser) : Parser :=
  set_tokens [] (set_stack (p_stack p ++ [p_tokens p]) (set_depth (p_depth p + 1) p)).

(** The parser between two atoms, with nothing pending. *)
Definition drifting (p : Parser) : Prop :=
  p_state p = pstateDrifting /\ p_reissue p = 0 /\ p_eof p = false.

(** The parser after [n] opening parentheses were accepted. *)
Fixpoint open_lists (n : nat) (p : Parser) : Parser :=
  match n with
  | O => p
  | S n' => open_lists n' (opened p)
  end.

(** ** Well-formed value trees *)

(** [fits d v]: the integers of [v] are in the range of their types, lists
    nest at most [d] deep in [v] (an atom nests 0 deep), and no element has
    a type outside the six of the data model. *)
Fixpoint fits (d : Z) (v : Value) {struct v} : Prop :=
  match v with
  | VString _ | VBytes _ => True
  | VInt n => - 2 ^ 31 <= n <= 2 ^ 31 - 1
  | VInt64 n => - 2 ^ 63 <= n <= 2 ^ 63 - 1
  | VUint64 n => 0 <= n <= 2 ^ 64 - 1
  | VList l =>
    1 <= d /\
    (fix all (l : list Value) : Prop :=
       match l with
       | [] => True
       | x :: l' => fits (d - 1) x /\ all l'
       end) l
  | VOther => False
  end.

(** [octets v]: the atoms of [v] are sequences of fewer than 2^64 octets,
    as every Go string and byte slice is. *)
Fixpoint octets (v : Value) : Prop :=
  match v with
  | VString s | VBytes s => Forall (fun x => 0 <= x < 256) s /\ len s < 2 ^ 64
  | VList l =>
    (fix all (l : list Value) : Prop :=
       match l with
       | [] => True
       | x :: l' => octets x /\ all l'
       end) l
  | _ => True
  end.

Definition is_int (v : Value) : bool :=
  match v with VInt _ | VInt64 _ | VUint64 _ => true | _ => false end.

Definition is_str (v : Value) : bool :=
  match v with VString _ | VBytes _ => true | _ => false end.

(** The elements of one list: no string or byte atom directly after an
    integer ([prev_int] tells whether an integer precedes the first
    element), and every element separable in itself. *)
Definition sep_elems (sep : Value -> bool) : bool -> list Value -> bool :=
  fix go (prev_int : bool) (l : list Value) : bool :=
    match l with
    | [] => true
    | x :: l' => negb (prev_int && is_str x) && sep x && go (is_int x) l'
    end.

(** [separable v]: in no list of [v] does a string or byte atom directly
    follow an integer. *)
Fixpoint separable (v : Value) : bool :=
  match v with
  | VList l => sep_elems separable false l
  | _ => true
  end.

(** The variant the parser chooses for the integer [n]. *)
Definition renarrow (n : Z) : Value :=
  if (- 2 ^ 31 <=? n) && (n <=? 2 ^ 31 - 1) then VInt n
  else if n <? 0 then VInt64 n
  else VUint64 n.

(** What a tree is read back as from its canonical rendering: strings
    come back as byte atoms, integers in the variant chosen for their
    value. *)
Fixpoint reread (v : Value) : Value :=
  match v with
  | VString s => VBytes s
  | VBytes s => VBytes s
  | VInt n | VInt64 n | VUint64 n => renarrow n
  | VList l => VList (map reread l)
  | VOther => VOther
  end.

(** Equality of trees up to the variant that holds an integer. *)
Definition int_value (v : Value) : option Z :=
  match v with VInt n | VInt64 n | VUint64 n => Some n | _ => None end.

Fixpoint same_up_to_int (a b : Value) {struct a} : bool :=
  match a, b with
  | VString x, VString y => bytes_eqb x y
  | VBytes x, VBytes y => bytes_eqb x y
  | VList la, VList lb =>
    (fix go (la lb : list Value) : bool :=
       match la, lb with
       | [], [] => true
       | x :: la', y :: lb' => same_up_to_int x y && go la' lb'
       | _, _ => false
       end) la lb
  | VOther, VOther => true
  | _, _ =>
    match int_value a, int_value b with
    | Some n, Some m => n =? m
    | _, _ => false
    end
  end.

(** ** The invariant of the parser *)

(** The lists on the stack, bottom first, may nest [m], [m-1], ... deep. *)
Fixpoint stack_fits (m : Z) (st : list (list Value)) : Prop :=
  match st with
  | [] => True
  | l :: st' => Forall (fits m) l /\ stack_fits (m - 1) st'
  end.

Definition Inv (p : Parser) : Prop :=
  0 <= p_i p < 2 ^ 64
  /\ p_depth p = len (p_stack p)
  /\ p_depth p <= maxListDepth (p_f p)
  /\ Forall (fits (maxListDepth (p_f p) - p_depth p)) (p_tokens p)
  /\ stack_fits (maxListDepth (p_f p)) (p_stack p).

(** The invariant of a parser of the format [f]. *)
Definition Inv_for (f : Format) (p : Parser) : Prop := p_f p = f /\ Inv p.

(** A sink keeps the invariant of the parser it returns. *)
Definition preserves_Inv (f : Format) (w : Parser -> list byte -> outcome) : Prop :=
  forall p b q rest e, Inv_for f p -> w p b = Returned q rest e -> Inv_for f q.

(** ** Reading back a canonical rendering *)

(** The magnitude the integer state accumulates over the digits [ds]. *)
Definition accum (a : Z) (ds : list byte) : Z :=
  fold_left (fun a d => to_uint64 (a * 10 + (d - 48))) ds a.

(** What the parser still holds back after the last byte of an element:
    nothing, an integer whose digits may go on, or a byte string whose last
    byte has just been read. *)
Inductive pending : Type :=
| PNone
| PInt (neg : bool) (m : Z)
| PBytes (raw : list byte).

Definition pend_tok (pd : pending) : list Value :=
  match pd with
  | PNone => []
  | PInt neg m => [integer_token neg m]
  | PBytes raw => [VBytes raw]
  end.

(** The parser between two elements of a rendering: [toks] is the list
    under construction, [pd] what is held back, [bm] the byte mode outside
    byte strings. *)
Definition cfg (f : Format) (bm : Z) (stack : list (list Value)) (depth : Z)
    (toks : list Value) (pd : pending) (p : Parser) : Prop :=
  p_f p = f /\ p_stack p = stack /\ p_depth p = depth /\ p_tokens p = toks
  /\ p_reissue p = 0 /\ p_eof p = false /\ p_sublexing p = false
  /\ match pd with
     | PNone =>
       p_state p = pstateDrifting /\ p_b p = [] /\ p_i p = 0
       /\ p_neg p = false /\ p_bytemode p = bm
     | PInt neg m =>
       p_state p = pstateInteger /\ p_b p = [] /\ p_i p = m
       /\ p_neg p = neg /\ p_bytemode p = bm
     | PBytes raw =>
       p_state p = pstateLengthByteString /\ p_b p = raw /\ p_xL p = 0
       /\ p_i p = 0 /\ p_neg p = false /\ p_bytemode p = bm + 1
     end.

(** [runs p out q]: the loop started on [p] consumes exactly the bytes
    [out], whatever follows them, and is then at [q]; it takes at most
    three iterations a byte. *)
Definition runs (p : Parser) (out : list byte) (q : Parser) : Prop :=
  exists n : nat,
    (n <= 3 * length out)%nat /\
    forall (k : list byte) (fuel : nat),
      write_loop (n + fuel) p None (out ++ k) 0 = write_loop fuel q None k 0.

(** [chain c p n q]: the rune [c], dispatched on [p], is dispatched [n]
    times in all (the reissues included) and leaves the parser [q] with no
    reissue pending. *)
Inductive chain (c : rune) : Parser -> nat -> Parser -> Prop :=
| chain_last (p q : Parser) :
    (forall k, dispatch p c (Some c) k = Continue q (Some c) k) ->
    p_reissue q = 0 ->
    chain c p 1 q
| chain_more (p p1 : Parser) (n : nat) (q : Parser) :
    (forall k, dispatch p c (Some c) k = Continue p1 (Some c) k) ->
    0 < p_reissue p1 ->
    chain c (set_reissue (p_reissue p1 - 1) p1) n q ->
    chain c p (S n) q.

(** Nothing or a byte string is held back, not an integer. *)
Definition not_int (pd : pending) : Prop :=
  match pd with PInt _ _ => False | _ => True end.

(** The element [v], rendered after the spacer state [sp], is read back
    by a parser that is between two elements, as [reread v]. *)
Definition item_ok (f : Format) (bm : Z) (v : Value) : Prop :=
  forall sp pd stack depth toks p,
    cfg f bm stack depth toks pd p -> 0 <= depth ->
    fits (maxListDepth f - depth) v -> octets v -> separable v = true ->
    (forall neg m, pd = PInt neg m -> sp = 105 /\ is_str v = false) ->
    exists out q toks' pd',
      (forall b, writeValue v sp b = (if is_int v then 105 else sp, b ++ out, None))
      /\ runs p out q
      /\ cfg f bm stack depth toks' pd' q
      /\ toks' ++ pend_tok pd' = (toks ++ pend_tok pd) ++ [reread v]
      /\ (forall neg m, pd' = PInt neg m -> is_int v = true).

(** The same for the elements of one list. *)
Definition elems_ok (f : Format) (bm : Z) (vs : list Value) : Prop :=
  forall sp prev pd stack depth toks p,
    cfg f bm stack depth toks pd p -> 0 <= depth ->
    Forall (fits (maxListDepth f - depth)) vs -> Forall octets vs ->
    sep_elems separable prev vs = true ->
    (forall neg m, pd = PInt neg m -> sp = 105 /\ prev = true) ->
    exists out q toks' pd',
      (forall b, write_elems writeValue vs sp b = (b ++ out, None))
      /\ runs p out q
      /\ cfg f bm stack depth toks' pd' q
      /\ toks' ++ pend_tok pd' = (toks ++ pend_tok pd) ++ map reread vs.

(** ** Termination of the loop *)

(** A bound on how often the rune [r] is still dispatched, this time
    included, when it is dispatched in the state [st]. *)
Definition rk (st : pstate) (r : rune) : nat :=
  match st with
  | pstateDrifting => if is_digit r || isTokenStartChar r then 2 else 1
  | pstateToken => if isTokenChar r then 1 else 2
  | pstateInteger => if is_digit r then 1 else 3
  | pstateNegIntegerStart | pstateLengthByteString => 3
  | pstateQuotedStringEscape | pstateQuotedStringEscapeLF
  | pstateQuotedStringEscapeCR => 2
  | _ => 1
  end.

(** [fuel] iterations are more than the loop needs from here. *)
Definition ready (fuel : nat) (p : Parser) (rest : list byte) (r : rune) : Prop :=
  (p_reissue p = 0 /\ (3 * length rest < fuel)%nat)
  \/ (p_reissue p = 1 /\ (3 * length rest + rk (p_state p) r < fuel)%nat).

(** The call ended within the iteration bound, and if it returned without
    an error no reissue is pending. *)
Definition good (o : outcome) : Prop :=
  o <> OutOfFuel /\ forall q rest, o = Returned q rest None -> p_reissue q = 0.

(** What [dispatch] promises about the input left and the reissues. *)
Definition ranked (p : Parser) (r : rune) (rest : list byte) (a : action) : Prop :=
  match a with
  | Continue p2 _ rest2 =>
    (length rest2 <= length rest)%nat
    /\ (p_reissue p2 = 0
        \/ (p_reissue p2 = 1 /\ (rk (p_state p2) r < rk (p_state p) r)%nat
            /\ (rk (p_state p2) r <= 2)%nat))
  | Sublex p2 rest2 => rest2 = rest /\ p_reissue p2 = 0
  | Return_ p2 _ None => p_reissue p2 = 0
  | _ => True
  end.

(** [w'] agrees with [w] wherever [w] ends within its iteration bound. *)
Definition extends (w w' : Parser -> list byte -> outcome) : Prop :=
  forall q b, w q b <> OutOfFuel -> w' q b = w q b.

(** ** Outcomes up to the rune named in an invalid-token error *)




(** The parser after the hex digit of value [hv] was read in one of the
    two hex states. *)
Definition hex_digit (p : Parser) (hv : byte) : Parser :=
  match p_state p with
  | pstateHexString => set_state pstateHexStringOdd (set_i hv p)
  | _ => set_state pstateHexString
           (set_b (p_b p ++ [Z.lor (to_byte (Z.shiftl (to_byte (p_i p)) 4)) hv]) p)
  end.

Definition in_hex (p : Parser) : Prop :=
  p_state p = pstateHexString \/ p_state p = pstateHexStringOdd.

(** ** Atoms in context *)

(** [after_prefix f a p]: a parser of the format [f] that has read the
    bytes [a] goes on as [p] does, whatever follows; no reissue is pending
    in [p]. *)
Definition after_prefix (f : Format) (a : list byte) (p : Parser) : Prop :=
  p_reissue p = 0 /\ forall k, write (NewParser f) (a ++ k) = write p k.


(** ** Plain input and incremental writes *)

(** Bytes of the ASCII range other than [|] and [{]: the loop reads them
    one at a time, they open no base64 atom and no envelope. *)
Definition plain (a : list byte) : Prop :=
  Forall (fun x => x < 128 /\ x <> 124 /\ x <> 123) a.

(** The parser is outside a base64 atom and outside an envelope, and
    [Close] has not been called. *)
Definition steady (p : Parser) : Prop :=
  p_state p <> pstateBase64String /\ p_eof p = false /\ p_sublexing p = false
  /\ 0 <= p_reissue p.

(** Input with no [|] and no [{] byte. *)
Definition calm (a : list byte) : Prop := Forall (fun x => x <> 124 /\ x <> 123) a.

(** What an action leaves of the parser and of the input when the parser
    was outside the base64 state and the rune opened nothing. *)
Definition calm_action (p : Parser) (rest : list byte) (a : action) : Prop :=
  match a with
  | Continue q _ rest' =>
    p_state q <> pstateBase64String /\ p_sublexing q = p_sublexing p /\ rest' = rest
    /\ 0 <= p_reissue q
  | Return_ q _ _ => p_state q <> pstateBase64String /\ p_sublexing q = p_sublexing p
  | Sublex _ _ => False
  | Panic => False
  end.

(** The number a string of decimal digits denotes. *)
Definition decimal (ds : list byte) : Z :=
  fold_left (fun a d => a * 10 + (d - 48)) ds 0.

(** A bare token that does not start with a minus sign. *)
Definition is_token (w : list byte) : bool :=
  match w with
  | [] => false
  | c :: cs => isTokenStartChar c && negb (c =? 45) && forallb isTokenChar cs
  end.

(** Words separated by single spaces. *)
Fixpoint unwords (ws : list (list byte)) : list byte :=
  match ws with
  | [] => []
  | [w] => w
  | w :: ws' => w ++ 32 :: unwords ws'
  end.

(** ** Trees the serializer accepts *)

(** No element of [v], at any depth, has a type outside the six that
    [writeList] knows. *)
Fixpoint supported (v : Value) : bool :=
  match v with
  | VList l => forallb supported l
  | VOther => false
  | _ => true
  end.

(** The spacer's recorded type after the elements [vs] of one list were
    written, when it was [sp] before. *)
Definition spacer_after (sp : rune) (vs : list Value) : rune :=
  if existsb is_int vs then 105 else sp.

(** ** Hex atoms *)

(** The value [dechex] gives a digit (0 for a rune it refuses). *)
Definition hexval (r : rune) : byte :=
  match dechex r with Some v => v | None => 0 end.

(** The byte the two hex states make of a pair of digits. *)
Definition hex_byte (hl : byte * byte) : byte :=
  Z.lor (to_byte (Z.shiftl (to_byte (hexval (fst hl))) 4)) (hexval (snd hl)).

(** The digits of a list of pairs, in order. *)
Definition hex_text (ps : list (byte * byte)) : list byte :=
  flat_map (fun hl => [fst hl; snd hl]) ps.

Definition hex_pair_ok (hl : byte * byte) : bool :=
  match dechex (fst hl), dechex (snd hl) with
  | Some _, Some _ => true
  | _, _ => false
  end.

(* ------------------------------------------------------------------ *)
(** * The readers of b64.go *)

(** [l[i] = x] on a slice ([i] is always in range where it is used). *)
Fixpoint set_nth (A : Type) (i : nat) (x : A) (l : list A) : list A :=
  match l, i with
  | [], _ => []
  | _ :: t, O => x :: t
  | y :: t, S i' => y :: set_nth i' x t
  end.

(** What a [Read] leaves: the reader, the buffer, the count returned and
    whether the error returned is [io.EOF] (it is nil otherwise). *)
Definition read_result : Type := option (list byte) * list byte * nat * bool.

(** [bytes.Reader.Read] on a reader with the bytes [src] unread. *)
Definition bytes_Reader_Read (src buf : list byte) : read_result :=
  match src with
  | [] => (Some [], buf, O, true)
  | _ => let n := Nat.min (length buf) (length src) in
         (Some (skipn n src), firstn n src ++ skipn n buf, n, false)
  end.

(** [switchableReader.Read]; [None] is the nil [Reader]. *)
Definition switchableReader_Read (sr : option (list byte)) (buf : list byte) : read_result :=
  match sr with
  | None => (None, buf, O, true)
  | Some src => bytes_Reader_Read src buf
  end.

(** The inner [for i, b := range p[:n]] of [filteringReader.Read], from
    the index [i] on for [steps] iterations: the bytes that are not
    whitespace are moved to the front of [p]. *)
Fixpoint compact (steps i : nat) (p : list byte) (offset : nat) : list byte * nat :=
  match steps with
  | O => (p, offset)
  | S k =>
    let b := nth i p 0 in
    if negb (b =? 13) && negb (b =? 10) && negb (b =? 32) && negb (b =? 9) then
      compact k (S i) (if negb (Nat.eqb i offset) then set_nth offset b p else p) (S offset)
    else compact k (S i) p offset
  end.

(** The outer [for n > 0] of [filteringReader.Read], entered with the
    result of a read; [None] when the iteration bound is reached. *)
Fixpoint filter_loop (fuel : nat) (sr : option (list byte)) (p : list byte)
    (n : nat) (eof : bool) {struct fuel} : option read_result :=
  match n with
  | O => Some (sr, p, O, eof)
  | _ =>
    let '(p', offset) := compact n 0 p 0 in
    if (0 <? offset)%nat then Some (sr, p', offset, eof)
    else match fuel with
         | O => None
         | S fuel' =>
           let '(sr1, p1, n1, e1) := switchableReader_Read sr p' in
           filter_loop fuel' sr1 p1 n1 e1
         end
  end.

(** [filteringReader.Read] over a switchable reader. *)
Definition filteringReader_Read (fuel : nat) (sr : option (list byte)) (p : list byte)
    : option read_result :=
  let '(sr1, p1, n, e) := switchableReader_Read sr p in
  filter_loop fuel sr1 p1 n e.

(** A consumer that reads until [io.EOF], as [ioutil.ReadAll] does: the
    [k]-th call is given the buffer [bufs k], and what each call returns is
    appended to the result. *)
Fixpoint drain (fuel : nat) (k : nat) (sr : option (list byte)) (bufs : nat -> list byte)
    : option (list byte) :=
  match fuel with
  | O => None
  | S fuel' =>
    match filteringReader_Read (S fuel') sr (bufs k) with
    | None => None
    | Some (sr', p', n, eof) =>
      if eof then Some (firstn n p')
      else match drain fuel' (S k) sr' bufs with
           | None => None
           | Some out => Some (firstn n p' ++ out)
           end
    end
  end.

(** ** The two formats side by side *)

(** The parser of the format [Csexp] that corresponds to a parser [p] of
    the format [SX]: the same fields, one more level of byte mode. *)
Definition as_byte_stream (p : Parser) : Parser :=
  Build_Parser Csexp (p_state p) (p_s p) (p_b p) (p_xL p) (p_i p) (p_neg p)
    (p_lenhint p) (p_bytemode p + 1) (p_reissue p) (p_tokens p) (p_stack p)
    (p_depth p) (p_eof p) (p_b64dec p) (p_sublexing p) (p_subb64 p).

Definition action_map (T : Parser -> Parser) (a : action) : action :=
  match a with
  | Continue q pv rest => Continue (T q) pv rest
  | Return_ q rest e => Return_ (T q) rest e
  | Sublex q rest => Sublex (T q) rest
  | Panic => Panic
  end.

Definition outcome_map (T : Parser -> Parser) (o : outcome) : outcome :=
  match o with
  | Returned q rest e => Returned (T q) rest e
  | o' => o'
  end.

(** A parser of the format [SX] as the code keeps it: the byte mode is 1
    inside a length-prefixed byte string and 0 elsewhere. *)
Definition unicode_parser (p : Parser) : Prop :=
  p_f p = SX
  /\ p_bytemode p = match p_state p with pstateLengthByteString => 1 | _ => 0 end.

(** ASCII input without an opening brace. *)
Definition ascii_flat (a : list byte) : Prop :=
  Forall (fun x => 0 <= x < 128 /\ x <> 123) a.

(** ** Escapes in quoted strings *)

(** Inside a quoted string the bytes [mid] are read as the bytes [out]:
    they are consumed, [out] is appended to the string, and nothing else of
    the parser changes. *)
Definition reads_as (mid out : list byte) : Prop :=
  forall p k,
    p_state p = pstateQuotedString -> p_reissue p = 0 -> p_i p = 0 ->
    write p (mid ++ k) = write (s_append out p) k.

(** ASCII bytes other than the quote and the backslash. *)
Definition unescaped (s : list byte) : Prop :=
  Forall (fun x => 0 <= x < 128 /\ x <> 34 /\ x <> 92) s.

(** The byte an escape character stands for (the [switch] of the escape
    state; a character without a meaning of its own stands for itself). *)
Definition escape_value (e : rune) : byte :=
  if e =? 97 then 7 else if e =? 98 then 8 else if e =? 102 then 12
  else if e =? 110 then 10 else if e =? 114 then 13 else if e =? 116 then 9
  else if e =? 118 then 11 else e.

(** The byte an octal escape of the three digits [o1 o2 o3] gives: each
    digit shifts what was read before by three bits, within a byte. *)
Definition octal_byte (o1 o2 o3 : rune) : byte :=
  to_byte (Z.lor (to_byte (Z.shiftl
             (Z.lor (to_byte (Z.shiftl
                (Z.lor (to_byte (Z.shiftl 0 3)) (to_byte (o1 - 48))) 3))
                (to_byte (o2 - 48))) 3))
             (to_byte (o3 - 48))).

(** ** Envelopes *)

(** The parser [p] with the two fields that the envelope code owns set to
    [sl] and [sb]. *)
Definition in_envelope (sl : bool) (sb : option writeDecoder) (p : Parser) : Parser :=
  set_subb64 sb (set_sublexing sl p).

(** Input with no opening brace. *)
Definition braceless (a : list byte) : Prop := Forall (fun x => x <> 123) a.

(** ** UTF-8 text inside a quoted string *)

Definition between (lo hi x : Z) : bool := (lo <=? x) && (x <=? hi).

(** One well-formed UTF-8 sequence of two, three or four bytes (the Unicode
    standard's table of well-formed byte sequences). *)
Definition well_formed (u : list byte) : bool :=
  match u with
  | [b0; b1] => between 194 223 b0 && between 128 191 b1
  | [b0; b1; b2] =>
    ((b0 =? 224) && between 160 191 b1
     || (between 225 236 b0 || between 238 239 b0) && between 128 191 b1
     || (b0 =? 237) && between 128 159 b1)
    && between 128 191 b2
  | [b0; b1; b2; b3] =>
    ((b0 =? 240) && between 144 191 b1
     || between 241 243 b0 && between 128 191 b1
     || (b0 =? 244) && between 128 143 b1)
    && between 128 191 b2 && between 128 191 b3
  | _ => false
  end.

(** The pieces of the text between two quotes: an ASCII byte other than
    the quote and the backslash, a well-formed sequence, or a byte that
    cannot start a sequence (a continuation byte, 0xC0, 0xC1, or a byte
    above 0xF4). *)
Inductive piece : Type :=
| Plain (x : byte)
| Seq (u : list byte)
| Stray (x : byte).

Definition piece_ok (c : piece) : bool :=
  match c with
  | Plain x => between 0 127 x && negb (x =? 34) && negb (x =? 92)
  | Seq u => well_formed u
  | Stray x => between 128 193 x || between 245 255 x
  end.

Definition raw (c : piece) : list byte :=
  match c with
  | Plain x => [x]
  | Seq u => u
  | Stray x => [x]
  end.

Definition repaired (c : piece) : list byte :=
  match c with
  | Plain x => [x]
  | Seq u => u
  | Stray _ => [239; 191; 189]
  end.

(** What [DecodeRune] makes of a well-formed sequence, [string(r)] turns
    back into the same bytes. *)
Definition decodes_back (u : list byte) : bool :=
  implb (well_formed u)
    ((snd (DecodeRune u) =? length u)%nat && (128 <=? fst (DecodeRune u))
     && bytes_eqb (string_of_rune (fst (DecodeRune u))) u).

(** ** The reach of the base64 model *)

(** [encoding/base64], the stream decoder's [Read]: to fill a buffer of
    [n] bytes it takes [n / 3 * 4] raw bytes from its reader, at least 4
    and at most the 1024 its own buffer holds.  The filtering readers
    drop the whitespace from what was taken; the decoder then decodes the
    quanta it holds. *)
Definition decoder_fill (n : Z) : Z := Z.max 4 (Z.min 1024 (n / 3 * 4)).


(** [io.Copy] reads into a buffer of 32768 bytes, so the decoder of an
    envelope takes 1024 raw bytes at a time. *)
Definition Copy_fill : Z := decoder_fill 32768.

(** ** Walking down a list along a selector *)

(** One [Q1bhyt] for each string of the selector, as long as each one
    finds its list. *)
Fixpoint walk (ss : list (list byte)) (cur : list Value) : option (list Value) :=
  match ss with
  | [] => Some cur
  | s :: ss' =>
    match Q1bhyt cur s with
    | None => None
    | Some cur' => walk ss' cur'
    end
  end.

(* ------------------------------------------------------------------ *)
(** * Runs of the parser on the inputs of the test suite *)

Example FormatInt_neg : FormatInt (-42) = bytes_of "-42".
Proof. reflexivity. Qed.

Example b64_apple :
  b64_decode (filter_ws (bytes_of "YXB wbGU=")) = (bytes_of "apple", false).
Proof. reflexivity. Qed.

Example parse_nested : Parse SX (bytes_of "(()())") = Ok [VList [VList []; VList []]].
Proof. vm_compute. reflexivity. Qed.

Example parse_mixed :
  Parse SX (bytes_of "(1:a2:oh3:abc(4:open5:apple42 91))") =
  Ok [VList [VBytes (bytes_of "a"); VBytes (bytes_of "oh"); VBytes (bytes_of "abc");
             VList [VBytes (bytes_of "open"); VBytes (bytes_of "apple"); VInt 42; VInt 91]]].
Proof. vm_compute. reflexivity. Qed.

Example parse_envelope :
  Parse SX (bytes_of "{NTpoZ" ++ [10; 32; 9; 13] ++ bytes_of "WxsbyAoNTp0aGVyZSk=}") =
  Ok [VBytes (bytes_of "hello"); VList [VBytes (bytes_of "there")]].
Proof. vm_compute. reflexivity. Qed.

Example parse_tokens :
  Parse SX (bytes_of "the elves") = Ok [VString (bytes_of "the"); VString (bytes_of "elves")]
  /\ Parse SX (bytes_of "-token") = Ok [VString (bytes_of "-token")].
Proof. split; vm_compute; reflexivity. Qed.

Example parse_octal_escape :
  Parse SX (34 :: bytes_of "app\377ae" ++ [34]) = Ok [VString [97; 112; 112; 255; 97; 101]].
Proof. vm_compute. reflexivity. Qed.

Example render_integers :
  Format_String [VList [VInt 42; VInt 105; VInt (-12)]] = (bytes_of "(42 105 -12)", None).
Proof. vm_compute. reflexivity. Qed.

(* ------------------------------------------------------------------ *)
(** * Integer atoms *)

(** What [integer_token] pushes, by the sign and the accumulated magnitude. *)
Lemma integer_token_cases (neg : bool) (i : Z) :
  0 <= i < 2 ^ 64 ->
  integer_token neg i =
    if neg then
      if i <=? 2 ^ 31 then VInt (- i)
      else if i <=? 2 ^ 63 then VInt64 (- i)
      else VInt64 (2 ^ 64 - i)
    else if i <=? 2 ^ 31 - 1 then VInt i else VUint64 i.
Proof.
  intros Hi. unfold integer_token.
  destruct neg; [|reflexivity].
  change (2 ^ 31) with 2147483648.
  destruct (i <=? 2147483648) eqn:E31; [reflexivity|].
  apply Z.leb_gt in E31.
  destruct (i <=? 2 ^ 63) eqn:E63; f_equal; unfold to_int64.
  - apply Z.leb_le in E63.
    destruct (Z.eq_dec i (2 ^ 63)) as [->|Hne]; [reflexivity|].
    rewrite (Z.mod_small (i + 2 ^ 63)) by lia.
    replace (i + 2 ^ 63 - 2 ^ 63) with i by lia.
    rewrite Z.mod_small by lia. lia.
  - apply Z.leb_gt in E63.
    replace (i + 2 ^ 63) with ((i - 2 ^ 63) + 1 * 2 ^ 64) by lia.
    rewrite Z.mod_add by lia.
    rewrite (Z.mod_small (i - 2 ^ 63)) by lia.
    replace (- (i - 2 ^ 63 - 2 ^ 63) + 2 ^ 63) with (3 * 2 ^ 63 - i) by lia.
    replace (3 * 2 ^ 63 - i) with ((2 ^ 63 - i + 2 ^ 64)) by lia.
    replace (2 ^ 63 - i + 2 ^ 64) with ((2 ^ 64 + 2 ^ 63 - i)) by lia.
    rewrite Z.mod_small by lia. lia.
Qed.

(** C2: a non-negative integer atom above the [int] range is pushed as
    [uint64] even when it fits [int64]; the parse of [4294967296] is a
    [uint64], where the narrowing rule asks for [int64]. *)
Theorem C2_nonneg_above_int_is_uint64 :
  Parse SX (bytes_of "4294967296") = Ok [VUint64 4294967296]
  /\ Parse SX (bytes_of "9223372036854775807") = Ok [VUint64 9223372036854775807]
  /\ Parse SX (bytes_of "-18446744073709551615") = Ok [VInt64 1].
Proof. repeat split; vm_compute; reflexivity. Qed.

(* ------------------------------------------------------------------ *)
(** * Separators of the serializer *)

(** C3: the spacer's recorded type is never reset by a string, byte or
    list element, so an integer is preceded by a space although the element
    before it is a string, and a string directly after an integer gets no
    separator. *)
Theorem C3_space_after_non_integer :
  Format_String [VInt 5; VString (bytes_of "a"); VInt 6] = (bytes_of "51:a 6", None)
  /\ Format_String [VInt 5; VList []; VInt 6] = (bytes_of "5() 6", None).
Proof. split; vm_compute; reflexivity. Qed.

(* ------------------------------------------------------------------ *)
(** * Length hints *)

(** C5: a length-hinted base64 atom whose decoded length equals the hint
    is not accepted: the decoder is only created when [|] is met while
    drifting, so it is nil here (or, after an earlier base64 atom, already
    drained). *)
Theorem C5_hinted_base64_not_accepted :
  Parse SX (bytes_of "3|YWJj|") = Panics
  /\ Parse SX (bytes_of "|YWJj|") = Ok [VString (bytes_of "abc")]
  /\ Parse SX (bytes_of "||3|YWJj|") = Err (ErrInvalidToken 89)
  /\ Parse SX (bytes_of "||0|YWJj|") = Ok [VString []; VString []].
Proof. repeat split; vm_compute; reflexivity. Qed.

(** The hex path checks the hint against the decoded length. *)
Lemma hex_hint_checked (p : Parser) (prev : option byte) (rest : list byte) :
  p_state p = pstateHexString -> p_lenhint p = true ->
  dispatch p 35 prev rest =
    if len (p_b p) =? p_xL p
    then Continue (set_lenhint false (set_i 0 (set_b []
                     (push (VBytes (p_b p)) (set_state pstateDrifting p))))) prev rest
    else Return_ p rest (Some (ErrInvalidToken 35)).
Proof.
  intros Hs Hl. unfold dispatch. rewrite Hs, Hl. simpl.
  destruct (len (p_b p) =? p_xL p); reflexivity.
Qed.

(* ------------------------------------------------------------------ *)
(** * Query helpers *)

Lemma bytes_eqb_eq (a b : list byte) : bytes_eqb a b = true <-> a = b.
Proof.
  unfold bytes_eqb. destruct (list_eq_dec Z.eq_dec a b); split; congruence.
Qed.

(** C8: [Hhy v s] holds exactly for the lists whose first element is the
    string [s]; and on the parsed test input the selector [beta y] yields
    the one-element list rendered as [3:qwe]. *)
Theorem C8_has_head_and_selector :
  (forall v s, Hhy v s = true <-> exists tl, v = VList (VString s :: tl))
  /\ exists xs r,
       Parse SX (bytes_of "(alpha) (beta (x) (y qwe) (z)) (gamma) (delta)") = Ok xs
       /\ Q1bsyt xs (bytes_of "beta y") = QFound (Some r)
       /\ length r = 1%nat
       /\ Format_String r = (bytes_of "3:qwe", None).
Proof.
  split.
  - intros v s. split.
    + destruct v as [| | | | |l|]; simpl; try discriminate.
      destruct l as [|x tl]; try discriminate.
      destruct x; try discriminate.
      intros H. apply bytes_eqb_eq in H. subst. eauto.
    + intros [tl ->]. simpl. apply bytes_eqb_eq. reflexivity.
  - eexists. eexists.
    split; [vm_compute; reflexivity|].
    split; [vm_compute; reflexivity|].
    split; vm_compute; reflexivity.
Qed.

(* ------------------------------------------------------------------ *)
(** * Hex digits *)

(** C10: every ASCII letter is a hex digit for [dechex], with value
    10..35, so [#gg#] and [\xgg] are accepted and give the byte 16. *)
Theorem C10_dechex_accepts_all_letters :
  (forall r, 97 <= r <= 122 -> dechex r = Some (r - 97 + 10) /\ 10 <= r - 97 + 10 <= 35)
  /\ (forall r, 65 <= r <= 90 -> dechex r = Some (r - 65 + 10) /\ 10 <= r - 65 + 10 <= 35)
  /\ Parse SX (bytes_of "#gg#") = Ok [VBytes [16]]
  /\ Parse SX (bytes_of "#zz#") = Ok [VBytes [Z.lor (35 * 16 mod 256) 35]]
  /\ Parse SX ([34; 92] ++ bytes_of "xgg" ++ [34]) = Ok [VString [16]].
Proof.
  split; [|split; [|repeat split; vm_compute; reflexivity]].
  - intros r Hr. split; [|lia]. unfold dechex.
    replace ((48 <=? r) && (r <=? 57)) with false
      by (symmetry; apply andb_false_iff; right; apply Z.leb_gt; lia).
    replace ((97 <=? r) && (r <=? 122)) with true
      by (symmetry; apply andb_true_iff; split; apply Z.leb_le; lia).
    unfold to_byte. rewrite Z.mod_small by lia. reflexivity.
  - intros r Hr. split; [|lia]. unfold dechex.
    replace ((48 <=? r) && (r <=? 57)) with false
      by (symmetry; apply andb_false_iff; right; apply Z.leb_gt; lia).
    replace ((97 <=? r) && (r <=? 122)) with false
      by (symmetry; apply andb_false_iff; left; apply Z.leb_gt; lia).
    replace ((65 <=? r) && (r <=? 90)) with true
      by (symmetry; apply andb_true_iff; split; apply Z.leb_le; lia).
    unfold to_byte. rewrite Z.mod_small by lia. reflexivity.
Qed.

Lemma C10_dechex_witness : dechex 103 = Some 16 /\ 10 <= 103 - 97 + 10 <= 35.
Proof. apply (proj1 C10_dechex_accepts_all_letters 103). lia. Defined.

(* ------------------------------------------------------------------ *)
(** * The length-hint flag *)

Ltac case_if :=
  match goal with
  | H : context [if ?c then _ else _] |- _ => destruct c eqn:?
  | H : context [match ?x with _ => _ end] |- _ => destruct x eqn:?
  end.

(** C9: once set, the length-hint flag is cleared by no transition but
    the closing [#] of a hex atom; the [N:] and [N|] paths leave it set, so
    a later [|...|] or [#...#] atom without a hint is checked against the
    stale count and the parse fails although each atom is valid alone. *)
Theorem C9_lenhint_cleared_only_by_hex :
  (forall p r prev rest q,
      p_lenhint p = true ->
      action_parser (dispatch p r prev rest) = Some q ->
      p_lenhint q = false ->
      p_state p = pstateHexString /\ r = 35)
  /\ Parse SX (bytes_of "3:abc") = Ok [VBytes (bytes_of "abc")]
  /\ Parse SX (bytes_of "|YQ==|") = Ok [VString (bytes_of "a")]
  /\ Parse SX (bytes_of "#00#") = Ok [VBytes [0]]
  /\ Parse SX (bytes_of "3:abc|YQ==|") = Err (ErrInvalidToken 89)
  /\ Parse SX (bytes_of "3:abc#00#") = Err (ErrInvalidToken 35)
  /\ Parse SX (bytes_of "||0|||YQ==|") = Err (ErrInvalidToken 89)
  /\ Parse SX (bytes_of "1#00#|YQ==|") = Ok [VBytes [0]; VString (bytes_of "a")].
Proof.
  split; [|repeat split; vm_compute; reflexivity].
  intros p r prev rest q Hl Ha Hq.
  unfold dispatch, octal_digit in Ha.
  destruct (p_state p) eqn:Hs;
    repeat case_if; simpl in Ha; try discriminate;
    try (injection Ha as <-; simpl in Hq; congruence).
  1-3: injection Heqo as <-; injection Ha as <-; simpl in Hq; congruence.
  split; [reflexivity|]. apply Z.eqb_eq. assumption.
Qed.

Lemma C9_lenhint_witness :
  p_state (set_lenhint true (set_state pstateHexString (NewParser SX))) = pstateHexString
  /\ 35 = 35.
Proof.
  eapply (proj1 C9_lenhint_cleared_only_by_hex _ 35 None []);
    [reflexivity | vm_compute; reflexivity | reflexivity].
Defined.

(* ------------------------------------------------------------------ *)
(** * Unfolding the loop *)

Lemma read_rune_ascii (p : Parser) (x : byte) (t : list byte) :
  x < 128 -> read_rune p (x :: t) = (x, 1%nat).
Proof.
  intros Hx. unfold read_rune, DecodeRune.
  destruct (negb (p_bytemode p =? 0)); [reflexivity|].
  apply Z.ltb_lt in Hx. rewrite Hx. reflexivity.
Qed.

(** With no reissue pending the next iteration reads a fresh rune. *)
Lemma write_loop_fetch (fuel : nat) (p : Parser) (prev : option byte)
    (x : byte) (t : list byte) (r : rune) :
  p_reissue p = 0 -> x < 128 ->
  write_loop (S fuel) p prev (x :: t) r =
  resume (write_loop fuel) (dispatch p x (Some x) t) x.
Proof.
  intros Hr Hx. simpl. rewrite Hr. simpl.
  rewrite read_rune_ascii by assumption. reflexivity.
Qed.

Lemma write_loop_fetch_byte (fuel : nat) (p : Parser) (prev : option byte)
    (x : byte) (t : list byte) (r : rune) :
  p_reissue p = 0 -> p_bytemode p <> 0 ->
  write_loop (S fuel) p prev (x :: t) r =
  resume (write_loop fuel) (dispatch p x (Some x) t) x.
Proof.
  intros Hr Hb. simpl. rewrite Hr. simpl. unfold read_rune.
  apply Z.eqb_neq in Hb. rewrite Hb. reflexivity.
Qed.

Lemma write_loop_reissue (fuel : nat) (p : Parser) (prev : option byte)
    (rest : list byte) (r : rune) :
  0 < p_reissue p ->
  write_loop (S fuel) p prev rest r =
  resume (write_loop fuel) (dispatch (set_reissue (p_reissue p - 1) p) r prev rest) r.
Proof.
  intros Hr. simpl. apply Z.ltb_lt in Hr. rewrite Hr. reflexivity.
Qed.

Lemma write_loop_end (fuel : nat) (p : Parser) (prev : option byte) (r : rune) :
  p_reissue p = 0 -> write_loop (S fuel) p prev [] r = Returned p [] None.
Proof. intros Hr. simpl. rewrite Hr. reflexivity. Qed.

(** With no reissue pending the loop does not look at [prev] and [r]. *)
Lemma write_loop_fresh (fuel : nat) (p : Parser) (prev : option byte)
    (rest : list byte) (r : rune) :
  p_reissue p = 0 ->
  write_loop fuel p prev rest r = write_loop fuel p None rest 0.
Proof. intros Hr. destruct fuel; simpl; [reflexivity|]. rewrite Hr. reflexivity. Qed.

(** [Close] on a drifting parser below the top of no envelope: the
    sentinel byte makes [write] return at once. *)
Lemma Close_drifting (p : Parser) :
  p_state p = pstateDrifting -> p_reissue p = 0 -> p_sublexing p = false ->
  Close p = Returned (set_eof true p) [] None.
Proof.
  intros Hs Hr Hsub. unfold Close, Parser_Write, Parser_Write_with. simpl.
  rewrite Hsub. unfold write, write_fuel. simpl p_reissue. rewrite Hr. simpl Z.to_nat.
  simpl. rewrite Hr. simpl.
  assert (E : read_rune (set_eof true p) [0] = (0, 1%nat))
    by (apply read_rune_ascii; lia).
  rewrite E. unfold dispatch. simpl. rewrite Hs. reflexivity.
Qed.

(* ------------------------------------------------------------------ *)
(** * The depth limit *)

Lemma unsnoc_snoc (A : Type) (l : list A) (x : A) : unsnoc (l ++ [x]) = Some (l, x).
Proof.
  induction l as [|y l IH]; simpl; [reflexivity|]. rewrite IH. reflexivity.
Qed.

Lemma dispatch_open (p : Parser) (prev : option byte) (rest : list byte) :
  drifting p -> allowLists (p_f p) = true -> p_depth p < maxListDepth (p_f p) ->
  dispatch p 40 prev rest = Continue (opened p) prev rest.
Proof.
  intros (Hs & _ & He) Hl Hd. unfold dispatch. rewrite Hs, He. simpl.
  rewrite Hl. apply Z.leb_gt in Hd. rewrite Hd. reflexivity.
Qed.

Lemma dispatch_excess (p : Parser) (prev : option byte) (rest : list byte) :
  drifting p -> allowLists (p_f p) = true -> maxListDepth (p_f p) <= p_depth p ->
  dispatch p 40 prev rest = Return_ p rest (Some ErrDepthLimitExceeded).
Proof.
  intros (Hs & _ & He) Hl Hd. unfold dispatch. rewrite Hs, He. simpl.
  rewrite Hl. apply Z.leb_le in Hd. rewrite Hd. reflexivity.
Qed.

Lemma drifting_opened (p : Parser) : drifting p -> drifting (opened p).
Proof. intros H. exact H. Qed.

Lemma write_loop_opens (n : nat) : forall (p : Parser) (k : list byte) (fuel : nat),
  drifting p -> allowLists (p_f p) = true ->
  p_depth p + Z.of_nat n <= maxListDepth (p_f p) ->
  write_loop (n + fuel) p None (repeat 40 n ++ k) 0 =
  write_loop fuel (open_lists n p) None k 0.
Proof.
  induction n as [|n IH]; intros p k fuel Hp Hl Hd; [reflexivity|].
  simpl repeat. simpl app. simpl Nat.add.
  rewrite write_loop_fetch by (try apply Hp; lia).
  rewrite dispatch_open by (auto; lia). simpl resume.
  rewrite write_loop_fresh by apply Hp.
  rewrite IH; [reflexivity | apply drifting_opened; assumption | assumption |].
  simpl. lia.
Qed.

Lemma open_lists_facts (n : nat) : forall p,
  drifting p ->
  drifting (open_lists n p) /\ p_f (open_lists n p) = p_f p
  /\ p_depth (open_lists n p) = p_depth p + Z.of_nat n.
Proof.
  induction n as [|n IH]; intros p Hp; simpl open_lists.
  - repeat split; try apply Hp. lia.
  - destruct (IH (opened p) (drifting_opened Hp)) as (H1 & H2 & H3).
    repeat split; try apply H1; [exact H2|]. rewrite H3. simpl. lia.
Qed.

Lemma write_loop_nested (n : nat) : forall (p : Parser) (k : list byte) (fuel : nat),
  drifting p -> allowLists (p_f p) = true -> 0 <= p_depth p ->
  p_depth p + Z.of_nat n <= maxListDepth (p_f p) ->
  write_loop (2 * n + fuel) p None (repeat 40 n ++ repeat 41 n ++ k) 0 =
  write_loop fuel (set_tokens (p_tokens p ++ nested n) p) None k 0.
Proof.
  induction n as [|n IH]; intros p k fuel Hp Hl H0 Hd.
  - simpl. rewrite app_nil_r. destruct p; reflexivity.
  - replace (2 * S n + fuel)%nat with (S (2 * n + S fuel)) by lia.
    replace (repeat 41 (S n)) with (repeat 41 n ++ [41])
      by (symmetry; apply (repeat_cons n 41)).
    simpl repeat. rewrite <- !app_assoc. simpl app.
    rewrite write_loop_fetch by (try apply Hp; lia).
    rewrite dispatch_open by (auto; lia). simpl resume.
    rewrite write_loop_fresh by apply Hp.
    rewrite IH; [| apply drifting_opened; assumption | assumption
                 | simpl; lia | simpl; lia].
    rewrite write_loop_fetch by (try apply Hp; lia).
    destruct Hp as (Hs & Hr & He).
    unfold dispatch. simpl. rewrite Hs, He, Hl. simpl.
    replace (p_depth p + 1 =? 0) with false by (symmetry; apply Z.eqb_neq; lia).
    rewrite unsnoc_snoc. simpl resume.
    rewrite write_loop_fresh by exact Hr.
    f_equal. destruct p; simpl in *. unfold set_tokens, set_stack, set_depth. simpl.
    f_equal. lia.
Qed.

Lemma NewParser_drifting (f : Format) :
  drifting (NewParser f) /\ p_f (NewParser f) = f /\ p_depth (NewParser f) = 0
  /\ p_tokens (NewParser f) = [] /\ p_sublexing (NewParser f) = false.
Proof. unfold NewParser, drifting. destruct (unicodeStream f); simpl; auto. Qed.

(** C6: an opening parenthesis met at depth [maxListDepth] fails with
    [ErrDepthLimitExceeded]; no other transition gives that error and the
    depth never passes the limit, so the error arises exactly at the first
    parenthesis in excess; nestings up to the limit parse. *)
Theorem C6_depth_limit :
  (forall p prev rest,
      drifting p -> allowLists (p_f p) = true -> p_depth p = maxListDepth (p_f p) ->
      dispatch p 40 prev rest = Return_ p rest (Some ErrDepthLimitExceeded))
  /\ (forall p r prev rest q rest',
      dispatch p r prev rest = Return_ q rest' (Some ErrDepthLimitExceeded) ->
      p_state p = pstateDrifting /\ r = 40 /\ maxListDepth (p_f p) <= p_depth p)
  /\ (forall p r prev rest q,
      p_depth p <= maxListDepth (p_f p) ->
      action_parser (dispatch p r prev rest) = Some q ->
      p_depth q <= maxListDepth (p_f q))
  /\ (forall f n k,
      allowLists f = true -> Z.of_nat n = maxListDepth f ->
      (exists q, write (NewParser f) (repeat 40 n ++ 40 :: k) =
                 Returned q k (Some ErrDepthLimitExceeded))
      /\ Parse f (repeat 40 n ++ 40 :: k) = Err ErrDepthLimitExceeded)
  /\ (forall f n,
      allowLists f = true -> Z.of_nat n <= maxListDepth f ->
      Parse f (repeat 40 n ++ repeat 41 n) = Ok (nested n)).
Proof.
  split; [|split; [|split; [|split]]].
  - intros p prev rest Hp Hl Hd. apply dispatch_excess; auto. lia.
  - intros p r prev rest q rest' H.
    unfold dispatch, octal_digit in H.
    destruct (p_state p) eqn:Hs; repeat case_if; try discriminate.
    repeat split.
    + match goal with E : (r =? 40) && _ = true |- _ =>
        apply andb_true_iff in E; destruct E as [E _]; apply Z.eqb_eq in E; exact E end.
    + match goal with E : (_ <=? _) = true |- _ => apply Z.leb_le in E; exact E end.
  - intros p r prev rest q Hd H.
    unfold dispatch, octal_digit in H.
    destruct (p_state p) eqn:Hs; repeat case_if; simpl in H; try discriminate;
      try (injection H as <-; simpl; try lia).
    all: try match goal with E : (_ <=? _) = false |- _ => apply Z.leb_gt in E; lia end.
    all: try match goal with E : Some _ = Some _ |- _ => injection E as <-; simpl; lia end.
  - intros f n k Hl Hn.
    destruct (NewParser_drifting f) as (Hdr & Hf & Hd0 & _ & Hsub).
    assert (W : write (NewParser f) (repeat 40 n ++ 40 :: k) =
                Returned (open_lists n (NewParser f)) k (Some ErrDepthLimitExceeded)).
    { unfold write, write_fuel. destruct Hdr as (Hs & Hr & He). rewrite Hr.
      rewrite length_app, repeat_length. simpl length. simpl Z.to_nat.
      replace (S (3 * (n + S (length k)) + 3 * 0))%nat
        with (n + S (2 * n + 3 * S (length k)))%nat by lia.
      rewrite write_loop_opens; [| repeat split; auto | rewrite Hf; auto | rewrite Hf, Hd0; lia].
      destruct (open_lists_facts n (p := NewParser f)) as (Hdr' & Hf' & Hd');
        [repeat split; auto|].
      rewrite write_loop_fetch by (try apply Hdr'; lia).
      rewrite dispatch_excess; [reflexivity | assumption | rewrite Hf', Hf; assumption |].
      rewrite Hf', Hd', Hf, Hd0. lia. }
    split; [eexists; exact W|].
    unfold Parse, Parser_Write, Parser_Write_with. rewrite Hsub, W. reflexivity.
  - intros f n Hl Hn.
    destruct (NewParser_drifting f) as (Hdr & Hf & Hd0 & Ht & Hsub).
    unfold Parse, Parser_Write, Parser_Write_with. rewrite Hsub.
    unfold write, write_fuel. destruct Hdr as (Hs & Hr & He). rewrite Hr.
    rewrite length_app, !repeat_length. simpl Z.to_nat.
    replace (S (3 * (n + n) + 3 * 0))%nat with (2 * n + S (4 * n))%nat by lia.
    rewrite <- (app_nil_r (repeat 41 n)).
    rewrite write_loop_nested;
      [| repeat split; auto | rewrite Hf; auto | lia | rewrite Hf, Hd0; lia].
    rewrite write_loop_end by exact Hr.
    rewrite Ht. simpl app.
    change (Parser_Write_with write) with Parser_Write.
    fold (Close (set_tokens (nested n) (NewParser f))).
    rewrite Close_drifting by (simpl; auto). reflexivity.
Qed.

Lemma C6_depth_limit_witness :
  Parse SX (repeat 40 255 ++ 40 :: bytes_of "x") = Err ErrDepthLimitExceeded.
Proof.
  apply (proj2 (proj1 (proj2 (proj2 (proj2 C6_depth_limit))) SX 255%nat (bytes_of "x")
                  eq_refl eq_refl)).
Defined.

(* ------------------------------------------------------------------ *)
(** * Base64 atoms *)

Lemma IndexByte_absent (c : list byte) (x : byte) (k : list byte) :
  ~ In x c -> IndexByte (c ++ x :: k) x = Some (length c).
Proof.
  induction c as [|y c IH]; simpl; intros H.
  - rewrite Z.eqb_refl. reflexivity.
  - replace (y =? x) with false by (symmetry; apply Z.eqb_neq; intros ->; tauto).
    rewrite IH by tauto. reflexivity.
Qed.

Arguments write_loop : simpl never.




(* ------------------------------------------------------------------ *)
(** * What a successful parse returns *)

Lemma Value_ind_nested (P : Value -> Prop) :
  (forall s, P (VString s)) -> (forall b, P (VBytes b)) ->
  (forall n, P (VInt n)) -> (forall n, P (VInt64 n)) -> (forall n, P (VUint64 n)) ->
  (forall l, Forall P l -> P (VList l)) -> P VOther ->
  forall v, P v.
Proof.
  intros Hs Hb Hi Hi64 Hu Hl Ho.
  fix IH 1. intros v.
  destruct v as [s|b|n|n|n|l|];
    [apply Hs | apply Hb | apply Hi | apply Hi64 | apply Hu | | apply Ho].
  apply Hl. induction l as [|x l IHl]; constructor; [apply IH | exact IHl].
Qed.

Lemma fits_list (d : Z) (l : list Value) :
  fits d (VList l) <-> 1 <= d /\ Forall (fits (d - 1)) l.
Proof.
  simpl. split; intros [H1 H2]; (split; [exact H1|]).
  - induction l as [|x l IH]; constructor; [apply H2 | apply IH, H2].
  - induction l as [|x l IH]; [exact I|]. inversion H2; subst.
    split; [assumption | apply IH; assumption].
Qed.

Lemma fits_mono (v : Value) : forall d d', fits d v -> d <= d' -> fits d' v.
Proof.
  induction v as [s|b|n|n|n|l IH|] using Value_ind_nested; intros d d' H Hd;
    try exact H.
  apply fits_list in H. apply fits_list. destruct H as [H1 H2]. split; [lia|].
  revert H2. induction IH as [|x l Hx _ IHl]; intros H2; constructor;
    inversion H2; subst.
  - apply (Hx (d - 1)); [assumption | lia].
  - apply IHl. assumption.
Qed.

Lemma Forall_fits_mono (l : list Value) (d d' : Z) :
  Forall (fits d) l -> d <= d' -> Forall (fits d') l.
Proof.
  intros H Hd. apply Forall_impl with (P := fits d); [|exact H].
  intros v Hv. apply fits_mono with d; assumption.
Qed.

Lemma stack_fits_snoc (st : list (list Value)) : forall m l,
  stack_fits m (st ++ [l]) <-> stack_fits m st /\ Forall (fits (m - len st)) l.
Proof.
  induction st as [|x st IH]; intros m l; simpl.
  - unfold len. simpl. rewrite Z.sub_0_r. tauto.
  - rewrite IH. unfold len. simpl length. rewrite Nat2Z.inj_succ.
    replace (m - 1 - Z.of_nat (length st)) with (m - Z.succ (Z.of_nat (length st))) by lia.
    tauto.
Qed.

Lemma unsnoc_Some (A : Type) (l : list A) : forall l' x,
  unsnoc l = Some (l', x) -> l = l' ++ [x].
Proof.
  induction l as [|y l IH]; simpl; intros l' x H; [discriminate|].
  destruct (unsnoc l) as [[i z]|] eqn:E.
  - injection H as <- <-. rewrite (IH i z eq_refl). reflexivity.
  - injection H as <- <-. destruct l; [reflexivity|].
    simpl in E. destruct (unsnoc l) as [[? ?]|]; discriminate.
Qed.

Lemma to_int64_range (x : Z) : - 2 ^ 63 <= to_int64 x <= 2 ^ 63 - 1.
Proof.
  unfold to_int64.
  pose proof (Z.mod_pos_bound (x + 2 ^ 63) (2 ^ 64) ltac:(lia)). lia.
Qed.

Lemma integer_token_fits (neg : bool) (i d : Z) :
  0 <= i < 2 ^ 64 -> fits d (integer_token neg i).
Proof.
  intros Hi. unfold integer_token.
  destruct neg.
  - destruct (i <=? 2147483648) eqn:E; simpl.
    + apply Z.leb_le in E. lia.
    + apply to_int64_range.
  - destruct (i <=? 2147483647) eqn:E; simpl.
    + apply Z.leb_le in E. lia.
    + lia.
Qed.

Lemma to_byte_range (x : Z) : 0 <= to_byte x < 256.
Proof. unfold to_byte. apply Z.mod_pos_bound. lia. Qed.

Lemma to_uint64_range (x : Z) : 0 <= to_uint64 x < 2 ^ 64.
Proof. unfold to_uint64. apply Z.mod_pos_bound. lia. Qed.

Lemma lor_byte_range (a b : Z) : 0 <= a < 256 -> 0 <= b < 256 -> 0 <= Z.lor a b < 256.
Proof.
  intros Ha Hb. split; [apply Z.lor_nonneg; lia|].
  destruct (Z.eq_dec (Z.lor a b) 0) as [E|E]; [lia|].
  assert (0 < Z.lor a b) by (pose proof (proj2 (Z.lor_nonneg a b)); lia).
  change 256 with (2 ^ 8). apply Z.log2_lt_pow2; [assumption|].
  rewrite Z.log2_lor by lia.
  apply Z.max_lub_lt.
  - destruct (Z.eq_dec a 0) as [->|]; [reflexivity|]. apply Z.log2_lt_pow2; lia.
  - destruct (Z.eq_dec b 0) as [->|]; [reflexivity|]. apply Z.log2_lt_pow2; lia.
Qed.

Lemma dechex_range (r : rune) (v : byte) : dechex r = Some v -> 0 <= v < 256.
Proof.
  unfold dechex. repeat match goal with |- context [if ?c then _ else _] => destruct c end;
    intros H; try discriminate; injection H as <-; apply to_byte_range.
Qed.

Lemma decoct_range (r : rune) (v : byte) : decoct r = Some v -> 0 <= v < 256.
Proof.
  unfold decoct. destruct (_ && _); intros H; try discriminate.
  injection H as <-. apply to_byte_range.
Qed.

(** An update that leaves the format, the depth and the stack alone keeps
    the invariant if the integer scratch stays in range and the tokens
    stay well formed. *)
Lemma Inv_update (p q : Parser) :
  Inv p -> p_f q = p_f p -> p_depth q = p_depth p -> p_stack q = p_stack p ->
  0 <= p_i q < 2 ^ 64 ->
  Forall (fits (maxListDepth (p_f p) - p_depth p)) (p_tokens q) ->
  Inv q.
Proof.
  intros (Hi & Hd & Hm & Ht & Hst) Ef Ed Es Hi' Ht'.
  unfold Inv. rewrite Ef, Ed, Es. auto.
Qed.

Lemma Forall_snoc (A : Type) (P : A -> Prop) (l : list A) (x : A) :
  Forall P l -> P x -> Forall P (l ++ [x]).
Proof. intros Hl Hx. apply Forall_app. split; [assumption | constructor; auto]. Qed.

(** Projections of updated parsers. *)
Ltac psimpl :=
  cbn [p_f p_state p_s p_b p_xL p_i p_neg p_lenhint p_bytemode p_reissue p_tokens
       p_stack p_depth p_eof p_b64dec p_sublexing p_subb64
       set_state set_s set_b set_xL set_i set_neg set_lenhint set_bytemode
       set_reissue set_tokens set_stack set_depth set_eof set_b64dec set_sublexing
       set_subb64 reissue_inc bytemode_inc bytemode_dec s_append push opened
       action_parser].

Tactic Notation "psimpl" "in" hyp(H) :=
  cbn [p_f p_state p_s p_b p_xL p_i p_neg p_lenhint p_bytemode p_reissue p_tokens
       p_stack p_depth p_eof p_b64dec p_sublexing p_subb64
       set_state set_s set_b set_xL set_i set_neg set_lenhint set_bytemode
       set_reissue set_tokens set_stack set_depth set_eof set_b64dec set_sublexing
       set_subb64 reissue_inc bytemode_inc bytemode_dec s_append push opened
       action_parser] in H.

Ltac inv_field :=
  first
    [ assumption
    | reflexivity
    | apply to_uint64_range
    | lia
    | match goal with
      | H : dechex _ = Some ?v |- _ <= ?v < _ => apply dechex_range in H; lia
      | H : decoct _ = Some ?v |- _ <= Z.lor ?a ?v < _ =>
        apply decoct_range in H;
        pose proof (@lor_byte_range a v (to_byte_range _) H); lia
      end
    | apply Forall_snoc; [assumption | first [exact I | apply integer_token_fits; assumption]] ].

Lemma dispatch_Inv (p : Parser) (r : rune) (prev : option byte) (rest : list byte)
    (q : Parser) :
  Inv p -> action_parser (dispatch p r prev rest) = Some q -> Inv q.
Proof.
  intros HI H. pose proof HI as (Hi & Hd & Hm & Ht & Hst).
  unfold dispatch, octal_digit in H.
  destruct (p_state p) eqn:Hs; repeat case_if; psimpl in H; try discriminate;
    repeat match goal with E : Some _ = Some _ |- _ => injection E as <- end;
    try exact HI;
    try (apply Inv_update with (p := p); [exact HI|..]; psimpl; inv_field).
  - (* an opening parenthesis *)
    match goal with E : (_ <=? _) = false |- _ => apply Z.leb_gt in E end.
    unfold Inv. psimpl. repeat split; try lia.
    + unfold len in *. rewrite length_app. simpl length. lia.
    + constructor.
    + apply stack_fits_snoc. split; [assumption|]. rewrite <- Hd. assumption.
  - (* a closing parenthesis *)
    match goal with E : unsnoc _ = Some _ |- _ => apply unsnoc_Some in E; rename E into Est end.
    match goal with E : (_ =? 0) = false |- _ => apply Z.eqb_neq in E end.
    rewrite Est in Hst. apply stack_fits_snoc in Hst. destruct Hst as [Hst Hl0].
    assert (Hlen : p_depth p = len l + 1).
    { rewrite Hd, Est. unfold len. rewrite length_app. simpl length. lia. }
    unfold Inv. psimpl. repeat split; try lia; try assumption.
    apply Forall_snoc.
    + replace (maxListDepth (p_f p) - (p_depth p - 1)) with (maxListDepth (p_f p) - len l)
        by lia. assumption.
    + apply fits_list. split; [lia|].
      replace (maxListDepth (p_f p) - (p_depth p - 1) - 1)
        with (maxListDepth (p_f p) - p_depth p) by lia. assumption.
Qed.

Lemma dispatch_format (p : Parser) (r : rune) (prev : option byte) (rest : list byte)
    (q : Parser) :
  action_parser (dispatch p r prev rest) = Some q -> p_f q = p_f p.
Proof.
  intros H. unfold dispatch, octal_digit in H.
  destruct (p_state p) eqn:Hs; repeat case_if; psimpl in H; try discriminate;
    repeat match goal with E : Some _ = Some _ |- _ => injection E as <- end;
    reflexivity.
Qed.

Lemma dispatch_Inv_for (f : Format) (p : Parser) (r : rune) (prev : option byte)
    (rest : list byte) (q : Parser) :
  Inv_for f p -> action_parser (dispatch p r prev rest) = Some q -> Inv_for f q.
Proof.
  intros [Hf HI] H. split.
  - rewrite (dispatch_format _ _ _ _ H). exact Hf.
  - exact (dispatch_Inv _ _ _ HI H).
Qed.

Ltac inv_trivial :=
  match goal with
  | H : Inv_for _ ?p |- Inv_for _ _ => unfold Inv_for, Inv in *; psimpl; exact H
  end.

Lemma subb64_Write_Inv (f : Format) (w : Parser -> list byte -> outcome) :
  preserves_Inv f w -> preserves_Inv f (subb64_Write w).
Proof.
  intros Hw p b q rest e HI H. unfold subb64_Write in H.
  destruct (p_subb64 p) as [wd|]; [|discriminate].
  destruct (wd_err wd); [injection H as <- _ _; exact HI|].
  destruct (wd_b64dec wd); [|injection H as <- _ _; exact HI].
  destruct (b64_decode (filter_ws b)) as [out bad].
  destruct out as [|o out].
  - destruct bad; injection H as <- _ _; inv_trivial.
  - match type of H with context [w ?p0 ?x] =>
      destruct (w p0 x) as [p1 rest1 [ew|]| |] eqn:E; try discriminate;
      assert (HI1 : Inv_for f p1)
        by (apply (Hw p0 x p1 _ _) with (2 := E); inv_trivial) end.
    + injection H as <- _ _. inv_trivial.
    + destruct rest1; [destruct bad|]; injection H as <- _ _; inv_trivial.
Qed.

Lemma Parser_Write_with_Inv (f : Format) (w : Parser -> list byte -> outcome) :
  preserves_Inv f w -> preserves_Inv f (Parser_Write_with w).
Proof.
  intros Hw p b q rest e HI H. unfold Parser_Write_with in H.
  destruct (p_sublexing p); [|exact (Hw _ _ _ _ _ HI H)].
  destruct (IndexByte b 125) as [idx|].
  - destruct (subb64_Write w p (firstn idx b)) as [p1 rest1 [e1|]| |] eqn:E;
      try discriminate.
    + injection H as <- _ _.
      eapply subb64_Write_Inv; [exact Hw | exact HI | exact E].
    + apply (Hw _ _ _ _ _) with (2 := H).
      assert (Inv_for f p1)
        by (eapply subb64_Write_Inv; [exact Hw | exact HI | exact E]).
      inv_trivial.
  - eapply subb64_Write_Inv; [exact Hw | exact HI | exact H].
Qed.

Lemma write_loop_Inv (f : Format) (fuel : nat) : forall p prev rest r q rest' e,
  Inv_for f p -> write_loop fuel p prev rest r = Returned q rest' e -> Inv_for f q.
Proof.
  induction fuel as [|fuel IH]; intros p prev rest r q rest' e HI H;
    [discriminate|].
  assert (Hres : forall a r1, (forall q1, action_parser a = Some q1 -> Inv_for f q1) ->
            resume (write_loop fuel) a r1 = Returned q rest' e -> Inv_for f q).
  { intros a r1 Ha Hr. destruct a as [p2 prev2 rest2|p2 rest2 e2|p2 rest2|];
      simpl in Hr; try discriminate.
    - apply (IH _ _ _ _ _ _ _ (Ha p2 eq_refl) Hr).
    - injection Hr as <- _ _. apply Ha. reflexivity.
    - eapply Parser_Write_with_Inv; [| exact (Ha p2 eq_refl) | exact Hr].
      intros p0 b0 q0 r0 e0 H0 E0. exact (IH _ _ _ _ _ _ _ H0 E0). }
  unfold write_loop in H; fold write_loop in H.
  destruct (0 <? p_reissue p).
  - apply Hres in H; [exact H|].
    intros q1 Hq1. apply dispatch_Inv_for with (f := f) in Hq1; [exact Hq1 | inv_trivial].
  - destruct rest as [|x t]; [injection H as <- _ _; exact HI|].
    destruct (read_rune p (x :: t)) as [r1 sz].
    apply Hres in H; [exact H|].
    intros q1 Hq1. apply dispatch_Inv_for with (f := f) in Hq1; assumption.
Qed.

Lemma NewParser_Inv (f : Format) : 0 <= maxListDepth f -> Inv_for f (NewParser f).
Proof.
  intros H. unfold NewParser, Inv_for, Inv. destruct (unicodeStream f); simpl;
    repeat split; try lia; constructor.
Qed.

(** The trees of a successful parse: integers in the range of their
    types, lists nested no deeper than the limit. *)
Lemma Parse_fits (f : Format) (b : list byte) (t : list Value) :
  0 <= maxListDepth f -> Parse f b = Ok t -> Forall (fits (maxListDepth f)) t.
Proof.
  intros Hm H. unfold Parse in H.
  assert (Hw : preserves_Inv f write).
  { intros p0 b0 q0 r0 e0 H0 E0. exact (write_loop_Inv _ _ _ _ H0 E0). }
  destruct (Parser_Write (NewParser f) b) as [p rest [e|]| |] eqn:E1; try discriminate.
  assert (HI1 : Inv_for f p)
    by (eapply Parser_Write_with_Inv; [exact Hw | exact (NewParser_Inv f Hm) | exact E1]).
  destruct (Close p) as [p' rest' [e|]| |] eqn:E2; try discriminate.
  injection H as <-.
  assert (HI2 : Inv_for f p').
  { eapply Parser_Write_with_Inv; [exact Hw | | exact E2]. inv_trivial. }
  destruct HI2 as (Hf & Hi & Hd & Hmx & Ht & Hst).
  rewrite Hf in *.
  apply Forall_fits_mono with (d := maxListDepth f - p_depth p'); [exact Ht|].
  rewrite Hd. unfold len. lia.
Qed.

(* ------------------------------------------------------------------ *)
(** * Decimal digits *)

Lemma accum_snoc (a : Z) (ds : list byte) (d : byte) :
  accum a (ds ++ [d]) = to_uint64 (accum a ds * 10 + (d - 48)).
Proof. unfold accum. rewrite fold_left_app. reflexivity. Qed.

(** The digits [digits_acc] puts in front of [acc]: all decimal, at least
    one, and read back as [n]. *)
Lemma digits_acc_spec (fuel : nat) : forall n acc,
  (0 < fuel)%nat -> 0 <= n < 10 ^ Z.of_nat fuel -> n < 2 ^ 64 ->
  exists d ds,
    digits_acc fuel n acc = (d :: ds) ++ acc
    /\ Forall (fun x => is_digit x = true) (d :: ds)
    /\ accum 0 (d :: ds) = n.
Proof.
  induction fuel as [|fuel IH]; intros n acc Hf Hn H64.
  - lia.
  - cbn [digits_acc].
    assert (Hm : 0 <= n mod 10 < 10) by (apply Z.mod_pos_bound; lia).
    assert (Hdig : is_digit (48 + n mod 10) = true).
    { unfold is_digit. apply andb_true_iff. split; apply Z.leb_le; lia. }
    destruct (n <? 10) eqn:E.
    + apply Z.ltb_lt in E. exists (48 + n mod 10), [].
      split; [reflexivity|]. split; [constructor; [exact Hdig | constructor]|].
      unfold accum. cbn [fold_left]. rewrite (Z.mod_small n 10) by lia.
      unfold to_uint64. rewrite Z.mod_small by lia. lia.
    + apply Z.ltb_ge in E.
      assert (Hq : 0 <= n / 10 < 10 ^ Z.of_nat fuel).
      { split; [apply Z.div_pos; lia|].
        apply Z.div_lt_upper_bound; [lia|].
        rewrite Nat2Z.inj_succ, Z.pow_succ_r in Hn by lia. lia. }
      assert (Hq64 : n / 10 < 2 ^ 64).
      { apply Z.div_lt_upper_bound; lia. }
      assert (Hf' : (0 < fuel)%nat).
      { destruct fuel; [simpl in Hn; lia | lia]. }
      destruct (IH (n / 10) ((48 + n mod 10) :: acc) Hf' Hq Hq64)
        as (d & ds & E1 & E2 & E3).
      exists d, (ds ++ [48 + n mod 10]). split; [|split].
      * rewrite E1. cbn [app]. rewrite <- app_assoc. reflexivity.
      * change (d :: ds ++ [48 + n mod 10]) with ((d :: ds) ++ [48 + n mod 10]).
        apply Forall_app. split; [exact E2 | constructor; [exact Hdig | constructor]].
      * change (d :: ds ++ [48 + n mod 10]) with ((d :: ds) ++ [48 + n mod 10]).
        rewrite accum_snoc, E3. unfold to_uint64.
        replace (n / 10 * 10 + (48 + n mod 10 - 48)) with n
          by (pose proof (Z.div_mod n 10 ltac:(lia)); lia).
        apply Z.mod_small. lia.
Qed.

Lemma FormatUint_spec (n : Z) :
  0 <= n < 2 ^ 64 ->
  exists d ds,
    FormatUint n = d :: ds
    /\ Forall (fun x => is_digit x = true) (d :: ds)
    /\ accum 0 (d :: ds) = n.
Proof.
  intros Hn. unfold FormatUint.
  destruct (@digits_acc_spec 20 n []) as (d & ds & E1 & E2 & E3);
    [lia | change (Z.of_nat 20) with 20; lia | lia |].
  exists d, ds. rewrite E1, app_nil_r. auto.
Qed.

(* ------------------------------------------------------------------ *)
(** * Runs of the loop over part of the input *)

Lemma runs_refl (p : Parser) : runs p [] p.
Proof. exists 0%nat. split; [simpl; lia|]. intros k fuel. reflexivity. Qed.

Lemma runs_trans (p q r : Parser) (o1 o2 : list byte) :
  runs p o1 q -> runs q o2 r -> runs p (o1 ++ o2) r.
Proof.
  intros (n1 & B1 & H1) (n2 & B2 & H2). exists (n1 + n2)%nat. split.
  - rewrite length_app. lia.
  - intros k fuel. rewrite <- app_assoc, <- Nat.add_assoc, H1, H2. reflexivity.
Qed.

Lemma chain_loop (c : rune) (p : Parser) (n : nat) (q : Parser) :
  chain c p n q ->
  forall k fuel,
    resume (write_loop (n - 1 + fuel)) (dispatch p c (Some c) k) c =
    write_loop fuel q None k 0.
Proof.
  induction 1 as [p q Hd Hr|p p1 n q Hd Hr Hc IH]; intros k fuel.
  - rewrite Hd. simpl. apply write_loop_fresh. exact Hr.
  - rewrite Hd. cbn [resume].
    assert (Hn : exists m, n = S m) by (inversion Hc; eauto).
    destruct Hn as [m ->].
    replace (S (S m) - 1 + fuel)%nat with (S (S m - 1 + fuel)) by lia.
    rewrite write_loop_reissue by exact Hr. apply IH.
Qed.

(** One byte of input, read as itself, and the dispatches it takes. *)
Lemma runs_chain (c : rune) (p : Parser) (n : nat) (q : Parser) :
  p_reissue p = 0 -> c < 128 \/ p_bytemode p <> 0 ->
  chain c p n q -> (n <= 3)%nat ->
  runs p [c] q.
Proof.
  intros Hr Hc Hch Hn. exists n. split; [simpl; lia|].
  intros k fuel.
  assert (Hn' : exists m, n = S m) by (inversion Hch; eauto).
  destruct Hn' as [m ->]. cbn [app Nat.add].
  replace (write_loop (S (m + fuel)) p None (c :: k) 0)
    with (resume (write_loop (m + fuel)) (dispatch p c (Some c) k) c).
  - replace (m + fuel)%nat with (S m - 1 + fuel)%nat by lia.
    apply chain_loop. exact Hch.
  - symmetry. destruct Hc as [Hc|Hc].
    + apply write_loop_fetch; assumption.
    + apply write_loop_fetch_byte; assumption.
Qed.

Lemma digit_facts (c : rune) :
  is_digit c = true ->
  48 <= c <= 57 /\ is_space c = false /\ c < 128.
Proof.
  unfold is_digit, is_space. intros H. apply andb_true_iff in H.
  destruct H as [H1 H2]. apply Z.leb_le in H1. apply Z.leb_le in H2.
  repeat split; lia.
Qed.

(** The digits of a number, read in the integer state. *)
Lemma runs_digits (ds : list byte) : forall p,
  Forall (fun x => is_digit x = true) ds ->
  p_state p = pstateInteger -> p_reissue p = 0 ->
  runs p ds (set_i (accum (p_i p) ds) p).
Proof.
  induction ds as [|d ds IH]; intros p Hds Hs Hr.
  - replace (set_i (accum (p_i p) []) p) with p by (destruct p; reflexivity).
    apply runs_refl.
  - inversion Hds as [|? ? Hd Hds']; subst.
    change (d :: ds) with ([d] ++ ds).
    apply runs_trans with (q := set_i (to_uint64 (p_i p * 10 + (d - 48))) p).
    + apply runs_chain with (n := 1%nat);
        [exact Hr | left; apply (digit_facts d Hd) | | lia].
      apply chain_last; [|exact Hr].
      intros k. unfold dispatch. rewrite Hs, Hd. reflexivity.
    + apply (IH (set_i (to_uint64 (p_i p * 10 + (d - 48))) p) Hds' Hs Hr).
Qed.

(** The bytes of a byte string, read in the length-byte-string state. *)
Lemma runs_bytes (raw : list byte) : forall p,
  p_state p = pstateLengthByteString -> p_reissue p = 0 -> p_bytemode p <> 0 ->
  p_xL p = len raw ->
  runs p raw (set_xL 0 (set_b (p_b p ++ map to_byte raw) p)).
Proof.
  induction raw as [|x raw IH]; intros p Hs Hr Hb Hx.
  - simpl map. rewrite app_nil_r.
    replace (set_xL 0 (set_b (p_b p) p)) with p
      by (destruct p; simpl in *; rewrite Hx; reflexivity).
    apply runs_refl.
  - change (x :: raw) with ([x] ++ raw).
    assert (Hlen : len (x :: raw) = len raw + 1).
    { unfold len. simpl length. lia. }
    apply runs_trans with (q := set_xL (p_xL p - 1) (set_b (p_b p ++ [to_byte x]) p)).
    + apply runs_chain with (n := 1%nat); [exact Hr | right; exact Hb | | lia].
      apply chain_last; [|exact Hr].
      intros k. unfold dispatch. rewrite Hs.
      replace (p_xL p =? 0) with false; [reflexivity|].
      symmetry. apply Z.eqb_neq. unfold len in *. lia.
    + pose proof (IH (set_xL (p_xL p - 1) (set_b (p_b p ++ [to_byte x]) p)) Hs Hr Hb) as H.
      psimpl in H. rewrite <- app_assoc in H. apply H. lia.
Qed.

(* ------------------------------------------------------------------ *)
(** * Reading a canonical rendering back *)

Lemma octets_list (l : list Value) : octets (VList l) <-> Forall octets l.
Proof.
  simpl. split; intros H.
  - induction l as [|x l IH]; constructor; [apply H | apply IH, H].
  - induction l as [|x l IH]; [exact I|]. inversion H; subst.
    split; [assumption | apply IH; assumption].
Qed.

Lemma map_to_byte_octets (s : list byte) :
  Forall (fun x => 0 <= x < 256) s -> map to_byte s = s.
Proof.
  induction 1 as [|x s Hx _ IH]; [reflexivity|].
  simpl. rewrite IH. unfold to_byte. rewrite Z.mod_small by lia. reflexivity.
Qed.

Section Reread.

Variable f : Format.
Variable bm : Z.
Hypothesis Hint : allowIntegers f = true.
Hypothesis Hlist : allowLists f = true.
Hypothesis Hverb : allowVerbatimBinaryString f = true.
Hypothesis Hbm : 0 <= bm < 255.

(** The first byte after an element makes the parser push what it held
    back; the byte is then dispatched again on the drifting parser [q0]. *)
Lemma arrive (stack : list (list Value)) (depth : Z) (toks : list Value)
    (pd : pending) (p : Parser) (c : rune) :
  cfg f bm stack depth toks pd p ->
  match pd with
  | PInt _ _ => is_digit c = false /\ c <> 34 /\ c <> 35 /\ c <> 124 /\ c <> 58
  | _ => True
  end ->
  exists q0 m,
    cfg f bm stack depth (toks ++ pend_tok pd) PNone q0 /\ (m <= 1)%nat
    /\ forall n q, chain c q0 n q -> chain c p (m + n) q.
Proof.
  intros (Hf & Hst & Hd & Ht & Hr & He & Hsub & Hpd) Hc.
  destruct pd as [|neg m|raw].
  - exists p, 0%nat. simpl pend_tok. rewrite app_nil_r.
    repeat split; auto; apply Hpd.
  - destruct Hpd as (Hs & Hb & Hi & Hn & Hm).
    destruct Hc as (Hc1 & Hc2 & Hc3 & Hc4 & Hc5).
    set (p1 := set_state pstateDrifting (reissue_inc (set_neg false (set_i 0
                 (push (integer_token (p_neg p) (p_i p)) p))))).
    exists (set_reissue (p_reissue p1 - 1) p1), 1%nat.
    split; [|split; [lia|]].
    + unfold cfg, p1. psimpl. rewrite Hi, Hn, Ht, Hr. simpl pend_tok.
      repeat split; auto.
    + intros n q Hch. apply chain_more with (p1 := p1); [| unfold p1; psimpl; lia | exact Hch].
      intros k. unfold dispatch. rewrite Hs, Hc1.
      replace ((c =? 34) && _ && _) with false by (symmetry; lia).
      replace ((c =? 35) && _ && _) with false by (symmetry; lia).
      replace ((c =? 124) && _ && _) with false by (symmetry; lia).
      replace ((c =? 58) && _ && _) with false by (symmetry; lia).
      reflexivity.
  - destruct Hpd as (Hs & Hb & Hx & Hi & Hn & Hm).
    set (p1 := reissue_inc (set_b [] (push (VBytes (p_b p))
                 (set_state pstateDrifting (bytemode_dec p))))).
    exists (set_reissue (p_reissue p1 - 1) p1), 1%nat.
    split; [|split; [lia|]].
    + unfold cfg, p1. psimpl. rewrite Hb, Ht, Hr, Hm. simpl pend_tok.
      repeat split; auto.
      replace (bm + 1 - 1) with bm by lia. unfold to_byte. apply Z.mod_small. lia.
    + intros n q Hch. apply chain_more with (p1 := p1); [| unfold p1; psimpl; lia | exact Hch].
      intros k. unfold dispatch. rewrite Hs, Hx. reflexivity.
Qed.

Lemma not_int_compat (pd : pending) (c : rune) :
  not_int pd ->
  match pd with
  | PInt _ _ => is_digit c = false /\ c <> 34 /\ c <> 35 /\ c <> 124 /\ c <> 58
  | _ => True
  end.
Proof. destruct pd; simpl; tauto. Qed.

Lemma delimiter_compat (pd : pending) (c : rune) :
  c = 32 \/ c = 40 \/ c = 41 \/ c = 45 \/ c = 0 ->
  match pd with
  | PInt _ _ => is_digit c = false /\ c <> 34 /\ c <> 35 /\ c <> 124 /\ c <> 58
  | _ => True
  end.
Proof.
  intros H. destruct pd; [exact I | | exact I].
  unfold is_digit. repeat split; lia.
Qed.

(** The space the spacer writes before an integer. *)
Lemma run_space (stack : list (list Value)) (depth : Z) (toks : list Value)
    (pd : pending) (p : Parser) :
  cfg f bm stack depth toks pd p ->
  exists q, runs p [32] q /\ cfg f bm stack depth (toks ++ pend_tok pd) PNone q.
Proof.
  intros Hp.
  destruct (arrive 32 Hp) as (q0 & m & Hq0 & Hm & Hch);
    [apply delimiter_compat; lia|].
  exists q0. split; [|exact Hq0].
  apply runs_chain with (n := (m + 1)%nat); [apply Hp | left; lia | | lia].
  apply Hch. destruct Hq0 as (_ & _ & _ & _ & Hr & He & _ & Hs & _).
  apply chain_last; [|exact Hr].
  intros k. unfold dispatch. rewrite Hs, He. reflexivity.
Qed.

(** A run of digits met while drifting. *)
Lemma run_number (stack : list (list Value)) (depth : Z) (toks : list Value)
    (pd : pending) (p : Parser) (d : byte) (ds : list byte) :
  cfg f bm stack depth toks pd p -> not_int pd ->
  Forall (fun x => is_digit x = true) (d :: ds) ->
  exists q, runs p (d :: ds) q
            /\ cfg f bm stack depth (toks ++ pend_tok pd)
                 (PInt false (accum 0 (d :: ds))) q.
Proof.
  intros Hp Hpd Hds. inversion Hds as [|? ? Hd Hds']; subst.
  destruct (digit_facts d Hd) as (Hd1 & Hd2 & Hd3).
  destruct (arrive d Hp) as (q0 & m & Hq0 & Hm & Hch);
    [apply not_int_compat; exact Hpd|].
  pose proof Hq0 as (Hf0 & Hst0 & Hdp0 & Ht0 & Hr0 & He0 & Hsub0 & Hs0 & Hb0 & Hi0 & Hn0 & Hbm0).
  set (p1 := reissue_inc (set_state pstateInteger q0)).
  set (q1 := set_i (to_uint64 (p_i q0 * 10 + (d - 48)))
               (set_reissue (p_reissue p1 - 1) p1)).
  assert (R1 : runs p [d] q1).
  { apply runs_chain with (n := (m + 2)%nat); [apply Hp | left; exact Hd3 | | lia].
    apply Hch. apply chain_more with (p1 := p1).
    - intros k. unfold dispatch. rewrite Hs0, He0, Hd2, Hd, Hf0, Hint. reflexivity.
    - unfold p1. psimpl. lia.
    - apply chain_last.
      + intros k. unfold dispatch. unfold p1. psimpl. rewrite Hd. reflexivity.
      + unfold q1, p1. psimpl. lia. }
  exists (set_i (accum (p_i q1) ds) q1). split.
  - change (d :: ds) with ([d] ++ ds). apply runs_trans with (q := q1); [exact R1|].
    apply runs_digits; [exact Hds' | reflexivity | unfold q1, p1; psimpl; lia].
  - unfold cfg, q1, p1. psimpl. rewrite Hi0, Hr0.
    repeat split; auto.
Qed.

(** A minus sign and digits met while drifting. *)
Lemma run_negative (stack : list (list Value)) (depth : Z) (toks : list Value)
    (pd : pending) (p : Parser) (d : byte) (ds : list byte) :
  cfg f bm stack depth toks pd p ->
  Forall (fun x => is_digit x = true) (d :: ds) ->
  exists q, runs p (45 :: d :: ds) q
            /\ cfg f bm stack depth (toks ++ pend_tok pd)
                 (PInt true (accum 0 (d :: ds))) q.
Proof.
  intros Hp Hds. inversion Hds as [|? ? Hd Hds']; subst.
  destruct (digit_facts d Hd) as (Hd1 & Hd2 & Hd3).
  destruct (arrive 45 Hp) as (q0 & m & Hq0 & Hm & Hch);
    [apply delimiter_compat; lia|].
  pose proof Hq0 as (Hf0 & Hst0 & Hdp0 & Ht0 & Hr0 & He0 & Hsub0 & Hs0 & Hb0 & Hi0 & Hn0 & Hbm0).
  set (pn := set_state pstateNegIntegerStart q0).
  assert (R0 : runs p [45] pn).
  { apply runs_chain with (n := (m + 1)%nat); [apply Hp | left; lia | | lia].
    apply Hch. apply chain_last; [|exact Hr0].
    intros k. unfold dispatch. rewrite Hs0, He0, Hf0, Hint. reflexivity. }
  set (p1 := reissue_inc (set_neg true (set_state pstateInteger pn))).
  set (q1 := set_i (to_uint64 (p_i q0 * 10 + (d - 48)))
               (set_reissue (p_reissue p1 - 1) p1)).
  assert (R1 : runs pn [d] q1).
  { apply runs_chain with (n := 2%nat); [exact Hr0 | left; exact Hd3 | | lia].
    apply chain_more with (p1 := p1).
    - intros k. unfold dispatch, pn. psimpl. rewrite Hd. reflexivity.
    - unfold p1, pn. psimpl. lia.
    - apply chain_last.
      + intros k. unfold dispatch. unfold p1, pn. psimpl. rewrite Hd. reflexivity.
      + unfold q1, p1, pn. psimpl. lia. }
  exists (set_i (accum (p_i q1) ds) q1). split.
  - change (45 :: d :: ds) with ([45] ++ [d] ++ ds).
    apply runs_trans with (q := pn); [exact R0|].
    apply runs_trans with (q := q1); [exact R1|].
    apply runs_digits; [exact Hds' | reflexivity | unfold q1, p1, pn; psimpl; lia].
  - unfold cfg, q1, p1, pn. psimpl. rewrite Hi0, Hr0.
    repeat split; auto.
Qed.

(** A length-prefixed byte string met while drifting. *)
Lemma run_string (stack : list (list Value)) (depth : Z) (toks : list Value)
    (pd : pending) (p : Parser) (s : list byte) :
  cfg f bm stack depth toks pd p -> not_int pd ->
  Forall (fun x => 0 <= x < 256) s -> len s < 2 ^ 64 ->
  exists q, runs p (FormatUint (len s) ++ [58] ++ s) q
            /\ cfg f bm stack depth (toks ++ pend_tok pd) (PBytes s) q.
Proof.
  intros Hp Hpd Hs Hl.
  destruct (@FormatUint_spec (len s)) as (d & ds & E & Hds & Hacc);
    [unfold len in *; lia|].
  rewrite E.
  destruct (run_number Hp Hpd Hds) as (q1 & R1 & C1).
  rewrite Hacc in C1.
  pose proof C1 as (Hf1 & Hst1 & Hdp1 & Ht1 & Hr1 & He1 & Hsub1 & Hs1 & Hb1 & Hi1 & Hn1 & Hbm1).
  set (q2 := bytemode_inc (set_lenhint true
               (set_state pstateLengthByteString (set_i 0 (set_xL (p_i q1) q1))))).
  assert (Hbm2 : p_bytemode q2 = bm + 1).
  { unfold q2. psimpl. rewrite Hbm1. unfold to_byte. apply Z.mod_small. lia. }
  assert (R2 : runs q1 [58] q2).
  { apply runs_chain with (n := 1%nat); [exact Hr1 | left; lia | | lia].
    apply chain_last; [|exact Hr1].
    intros k. unfold dispatch. rewrite Hs1, Hn1, Hf1, Hverb. reflexivity. }
  exists (set_xL 0 (set_b (p_b q2 ++ map to_byte s) q2)). split.
  - apply runs_trans with (q := q1); [exact R1|].
    apply runs_trans with (q := q2); [exact R2|].
    apply runs_bytes; [reflexivity | exact Hr1 | rewrite Hbm2; lia |].
    unfold q2. psimpl. exact Hi1.
  - unfold cfg. psimpl. fold q2. rewrite Hbm2.
    unfold q2. psimpl. rewrite Hb1, (map_to_byte_octets Hs).
    repeat split; auto.
Qed.

(** An opening parenthesis below the depth limit. *)
Lemma run_open (stack : list (list Value)) (depth : Z) (toks : list Value)
    (pd : pending) (p : Parser) :
  cfg f bm stack depth toks pd p -> depth < maxListDepth f ->
  exists q, runs p [40] q
            /\ cfg f bm (stack ++ [toks ++ pend_tok pd]) (depth + 1) [] PNone q.
Proof.
  intros Hp Hd.
  destruct (arrive 40 Hp) as (q0 & m & Hq0 & Hm & Hch);
    [apply delimiter_compat; lia|].
  pose proof Hq0 as (Hf0 & Hst0 & Hdp0 & Ht0 & Hr0 & He0 & Hsub0 & Hs0 & Hb0 & Hi0 & Hn0 & Hbm0).
  exists (opened q0). split.
  - apply runs_chain with (n := (m + 1)%nat); [apply Hp | left; lia | | lia].
    apply Hch. apply chain_last; [|exact Hr0].
    intros k. apply dispatch_open; [repeat split; assumption | rewrite Hf0; exact Hlist |].
    rewrite Hf0, Hdp0. exact Hd.
  - unfold cfg. psimpl. rewrite Hst0, Ht0, Hdp0. repeat split; auto.
Qed.

(** The closing parenthesis of the list under construction. *)
Lemma run_close (stack : list (list Value)) (ptok : list Value) (depth : Z)
    (toks : list Value) (pd : pending) (p : Parser) :
  cfg f bm (stack ++ [ptok]) (depth + 1) toks pd p -> 0 <= depth ->
  exists q, runs p [41] q
            /\ cfg f bm stack depth (ptok ++ [VList (toks ++ pend_tok pd)]) PNone q.
Proof.
  intros Hp Hd.
  destruct (arrive 41 Hp) as (q0 & m & Hq0 & Hm & Hch);
    [apply delimiter_compat; lia|].
  pose proof Hq0 as (Hf0 & Hst0 & Hdp0 & Ht0 & Hr0 & He0 & Hsub0 & Hs0 & Hb0 & Hi0 & Hn0 & Hbm0).
  set (q := set_tokens (ptok ++ [VList (p_tokens q0)])
              (set_stack stack (set_depth (p_depth q0 - 1) q0))).
  exists q. split.
  - apply runs_chain with (n := (m + 1)%nat); [apply Hp | left; lia | | lia].
    apply Hch. apply chain_last; [|exact Hr0].
    intros k. unfold dispatch. rewrite Hs0, He0, Hf0, Hint, Hlist. cbn [is_space is_digit].
    replace (p_depth q0 =? 0) with false by (symmetry; lia).
    rewrite Hst0, unsnoc_snoc. reflexivity.
  - unfold cfg, q. psimpl. rewrite Ht0, Hdp0. repeat split; auto. lia.
Qed.

Lemma integer_token_renarrow (n : Z) :
  - 2 ^ 63 <= n < 2 ^ 64 ->
  integer_token (n <? 0) (Z.abs n) = renarrow n.
Proof.
  intros Hn. rewrite integer_token_cases by lia. unfold renarrow.
  destruct (n <? 0) eqn:E;
    [rewrite Z.abs_neq by lia | rewrite Z.abs_eq by lia];
    repeat match goal with |- context [if ?c then _ else _] => destruct c eqn:? end;
    try (f_equal; lia); exfalso; lia.
Qed.

(** An integer as the serializer writes it: a space if the spacer says
    so, then the decimal rendering. *)
Lemma run_integer (stack : list (list Value)) (depth : Z) (toks : list Value)
    (pd : pending) (p : Parser) (sp : rune) (n : Z) :
  cfg f bm stack depth toks pd p -> - 2 ^ 63 <= n < 2 ^ 64 ->
  (forall neg m, pd = PInt neg m -> sp = 105) ->
  exists q neg m,
    runs p ((if sp =? 105 then [32] else []) ++ FormatInt n) q
    /\ cfg f bm stack depth (toks ++ pend_tok pd) (PInt neg m) q
    /\ integer_token neg m = renarrow n.
Proof.
  intros Hp Hn Hsp.
  assert (Body : forall p0 pd0 toks0,
            cfg f bm stack depth toks0 pd0 p0 -> not_int pd0 ->
            exists q neg m,
              runs p0 (FormatInt n) q
              /\ cfg f bm stack depth (toks0 ++ pend_tok pd0) (PInt neg m) q
              /\ integer_token neg m = renarrow n).
  { intros p0 pd0 toks0 Hp0 Hpd0. unfold FormatInt.
    destruct (n <? 0) eqn:E.
    - apply Z.ltb_lt in E.
      destruct (@FormatUint_spec (- n)) as (d & ds & E1 & Hds & Hacc); [lia|].
      rewrite E1.
      destruct (run_negative Hp0 Hds) as (q & R & C).
      exists q, true, (accum 0 (d :: ds)). split; [exact R | split; [exact C|]].
      rewrite Hacc. rewrite <- integer_token_renarrow by lia.
      replace (n <? 0) with true by (symmetry; lia).
      rewrite Z.abs_neq by lia. reflexivity.
    - apply Z.ltb_ge in E.
      destruct (@FormatUint_spec n) as (d & ds & E1 & Hds & Hacc); [lia|].
      rewrite E1.
      destruct (run_number Hp0 Hpd0 Hds) as (q & R & C).
      exists q, false, (accum 0 (d :: ds)). split; [exact R | split; [exact C|]].
      rewrite Hacc. rewrite <- integer_token_renarrow by lia.
      replace (n <? 0) with false by (symmetry; lia).
      rewrite Z.abs_eq by lia. reflexivity. }
  destruct (sp =? 105) eqn:E.
  - destruct (run_space Hp) as (q0 & R0 & C0).
    destruct (Body q0 PNone _ C0 I) as (q & neg & m & R & C & T).
    exists q, neg, m. split; [|split; [|exact T]].
    + apply runs_trans with (q := q0); assumption.
    + simpl pend_tok in C. rewrite app_nil_r in C. exact C.
  - assert (Hpd : not_int pd).
    { destruct pd as [|neg m|raw]; simpl; auto.
      specialize (Hsp neg m eq_refl). lia. }
    destruct (Body p pd toks Hp Hpd) as (q & neg & m & R & C & T).
    exists q, neg, m. auto.
Qed.

Lemma elems_of_items (vs : list Value) :
  Forall (item_ok f bm) vs -> elems_ok f bm vs.
Proof.
  induction 1 as [|v vs Hv _ IH];
    intros sp prev pd stack depth toks p Hp Hd Hfit Hoct Hsep Hpd.
  - exists [], p, toks, pd. split; [|split; [|split]].
    + intros b. simpl. rewrite app_nil_r. reflexivity.
    + apply runs_refl.
    + exact Hp.
    + simpl. rewrite app_nil_r. reflexivity.
  - inversion Hfit as [|? ? Hfv Hfvs]; subst.
    inversion Hoct as [|? ? Hov Hovs]; subst.
    cbn [sep_elems] in Hsep.
    apply andb_true_iff in Hsep. destruct Hsep as [Hsep Hsep3].
    apply andb_true_iff in Hsep. destruct Hsep as [Hsep1 Hsep2].
    destruct (Hv sp pd stack depth toks p Hp Hd Hfv Hov Hsep2)
      as (out1 & q1 & toks1 & pd1 & W1 & R1 & C1 & T1 & P1).
    { intros neg m E. destruct (Hpd neg m E) as [-> ->]. split; [reflexivity|].
      simpl in Hsep1. destruct (is_str v); [discriminate | reflexivity]. }
    destruct (IH (if is_int v then 105 else sp) (is_int v) pd1 stack depth toks1 q1
                C1 Hd Hfvs Hovs Hsep3)
      as (out2 & q2 & toks2 & pd2 & W2 & R2 & C2 & T2).
    { intros neg m E. rewrite (P1 neg m E). auto. }
    exists (out1 ++ out2), q2, toks2, pd2. split; [|split; [|split]].
    + intros b. cbn [write_elems]. rewrite W1, W2, app_assoc. reflexivity.
    + apply runs_trans with (q := q1); assumption.
    + exact C2.
    + rewrite T2, T1. cbn [map]. rewrite <- !app_assoc. reflexivity.
Qed.

Lemma item_all (v : Value) : item_ok f bm v.
Proof.
  induction v as [s|s|n|n|n|l IH|] using Value_ind_nested;
    intros sp pd stack depth toks p Hp Hd Hfit Hoct Hsep Hpd.
  - (* string *)
    destruct Hoct as [Ho1 Ho2].
    assert (Hni : not_int pd).
    { destruct pd as [|neg m|raw]; simpl; auto.
      destruct (Hpd neg m eq_refl) as [_ H]. discriminate. }
    destruct (run_string Hp Hni Ho1 Ho2) as (q & R & C).
    exists (FormatUint (len s) ++ [58] ++ s), q, (toks ++ pend_tok pd), (PBytes s).
    split; [reflexivity | split; [exact R | split; [exact C | split; [reflexivity|]]]].
    discriminate.
  - (* bytes *)
    destruct Hoct as [Ho1 Ho2].
    assert (Hni : not_int pd).
    { destruct pd as [|neg m|raw]; simpl; auto.
      destruct (Hpd neg m eq_refl) as [_ H]. discriminate. }
    destruct (run_string Hp Hni Ho1 Ho2) as (q & R & C).
    exists (FormatUint (len s) ++ [58] ++ s), q, (toks ++ pend_tok pd), (PBytes s).
    split; [reflexivity | split; [exact R | split; [exact C | split; [reflexivity|]]]].
    discriminate.
  - (* int *)
    simpl in Hfit.
    destruct (@run_integer stack depth toks pd p sp n Hp) as (q & neg & m & R & C & T);
      [lia | intros neg m E; apply (Hpd neg m E) |].
    exists ((if sp =? 105 then [32] else []) ++ FormatInt n), q, (toks ++ pend_tok pd),
      (PInt neg m).
    split; [|split; [exact R | split; [exact C | split; [|reflexivity]]]].
    + intros b. cbn [writeValue spacer_write is_int].
      destruct (sp =? 105); rewrite <- ?app_assoc; reflexivity.
    + simpl pend_tok. rewrite T. reflexivity.
  - (* int64 *)
    simpl in Hfit.
    destruct (@run_integer stack depth toks pd p sp n Hp) as (q & neg & m & R & C & T);
      [lia | intros neg m E; apply (Hpd neg m E) |].
    exists ((if sp =? 105 then [32] else []) ++ FormatInt n), q, (toks ++ pend_tok pd),
      (PInt neg m).
    split; [|split; [exact R | split; [exact C | split; [|reflexivity]]]].
    + intros b. cbn [writeValue spacer_write is_int].
      destruct (sp =? 105); rewrite <- ?app_assoc; reflexivity.
    + simpl pend_tok. rewrite T. reflexivity.
  - (* uint64 *)
    simpl in Hfit.
    destruct (@run_integer stack depth toks pd p sp n Hp) as (q & neg & m & R & C & T);
      [lia | intros neg m E; apply (Hpd neg m E) |].
    assert (EF : FormatInt n = FormatUint n).
    { unfold FormatInt. replace (n <? 0) with false by (symmetry; lia). reflexivity. }
    exists ((if sp =? 105 then [32] else []) ++ FormatUint n), q, (toks ++ pend_tok pd),
      (PInt neg m).
    split; [|split; [|split; [exact C | split; [|reflexivity]]]].
    + intros b. cbn [writeValue spacer_write is_int].
      destruct (sp =? 105); rewrite <- ?app_assoc; reflexivity.
    + rewrite <- EF. exact R.
    + simpl pend_tok. rewrite T. reflexivity.
  - (* list *)
    apply fits_list in Hfit. destruct Hfit as [Hf1 Hf2].
    apply octets_list in Hoct.
    destruct (@run_open stack depth toks pd p Hp) as (q1 & R1 & C1); [lia|].
    destruct (@elems_of_items l IH 0 false PNone _ _ _ q1 C1) as
      (out & q2 & toks2 & pd2 & W & R2 & C2 & T2); try assumption; try lia.
    { replace (maxListDepth f - (depth + 1)) with (maxListDepth f - depth - 1) by lia.
      exact Hf2. }
    { intros neg m E. discriminate. }
    destruct (@run_close stack (toks ++ pend_tok pd) depth toks2 pd2 q2 C2 Hd)
      as (q3 & R3 & C3).
    exists ([40] ++ out ++ [41]), q3, ((toks ++ pend_tok pd) ++ [VList (toks2 ++ pend_tok pd2)]),
      PNone.
    split; [|split; [|split; [exact C3 | split]]].
    + intros b. cbn [writeValue is_int]. rewrite W.
      rewrite <- !app_assoc. reflexivity.
    + apply runs_trans with (q := q1); [exact R1|].
      apply runs_trans with (q := q2); assumption.
    + simpl pend_tok. rewrite T2, !app_nil_r. reflexivity.
    + discriminate.
  - (* other *)
    destruct Hfit.
Qed.

(** [Close] makes the parser push what it held back. *)
Lemma Close_pending (stack : list (list Value)) (depth : Z) (toks : list Value)
    (pd : pending) (p : Parser) :
  cfg f bm stack depth toks pd p ->
  exists q, Close p = Returned q [] None /\ p_tokens q = toks ++ pend_tok pd.
Proof.
  intros (Hf & Hst & Hd & Ht & Hr & He & Hsub & Hpd).
  unfold Close, Parser_Write, Parser_Write_with. psimpl. rewrite Hsub.
  unfold write, write_fuel. psimpl. rewrite Hr. cbn [length Z.to_nat Nat.mul Nat.add].
  destruct pd as [|neg m|raw].
  - destruct Hpd as (Hs & _).
    rewrite write_loop_fetch by (psimpl; auto; lia).
    unfold dispatch. psimpl. rewrite Hs. cbn [resume].
    eexists. split; [reflexivity|]. psimpl. rewrite Ht, app_nil_r. reflexivity.
  - destruct Hpd as (Hs & Hb & Hi & Hn & Hm).
    rewrite write_loop_fetch by (psimpl; auto; lia).
    unfold dispatch at 1. psimpl. rewrite Hs. cbn [is_digit Z.leb Z.compare andb Z.eqb resume].
    rewrite write_loop_reissue by (psimpl; lia).
    unfold dispatch. psimpl. cbn [resume].
    eexists. split; [reflexivity|]. psimpl. rewrite Ht, Hi, Hn. reflexivity.
  - destruct Hpd as (Hs & Hb & Hx & Hi & Hn & Hm).
    rewrite write_loop_fetch_byte by (psimpl; auto; lia).
    unfold dispatch at 1. psimpl. rewrite Hs, Hx. cbn [Z.eqb resume].
    rewrite write_loop_reissue by (psimpl; lia).
    unfold dispatch. psimpl. cbn [resume].
    eexists. split; [reflexivity|]. psimpl. rewrite Ht, Hb. reflexivity.
Qed.

(** The rendering of a well-formed, separable tree is read back, by a
    parser between two elements at the top level, as the reread tree. *)
Lemma reread_from (t : list Value) (p : Parser) :
  cfg f bm [] 0 [] PNone p ->
  Forall (fits (maxListDepth f)) t -> Forall octets t ->
  sep_elems separable false t = true ->
  exists out q q',
    writeList t [] = (out, None)
    /\ write p out = Returned q [] None
    /\ Close q = Returned q' [] None
    /\ p_tokens q' = map reread t.
Proof.
  intros Hp Hfit Hoct Hsep.
  assert (Hitems : Forall (item_ok f bm) t).
  { apply Forall_forall. intros v _. apply item_all. }
  destruct (@elems_of_items t Hitems 0 false PNone [] 0 [] p Hp)
    as (out & q & toks' & pd' & W & (n & Hn & R) & C & T); try assumption; try lia.
  { rewrite Z.sub_0_r. exact Hfit. }
  { intros neg m E. discriminate. }
  destruct (Close_pending C) as (q' & E' & T').
  exists out, q, q'. split; [|split; [|split]].
  - unfold writeList. rewrite W. reflexivity.
  - unfold write, write_fuel.
    replace (p_reissue p) with 0 by (symmetry; apply Hp).
    match goal with |- write_loop ?F _ _ _ _ = _ =>
      replace F with (n + S (3 * length out - n))%nat by (cbn [Z.to_nat]; lia) end.
    pose proof (R [] (S (3 * length out - n))) as R'. rewrite app_nil_r in R'.
    rewrite R'. apply write_loop_end. apply C.
  - exact E'.
  - rewrite T', T. reflexivity.
Qed.

End Reread.

Lemma NewParser_cfg (f : Format) :
  cfg f (if unicodeStream f then 0 else 1) [] 0 [] PNone (NewParser f).
Proof. unfold NewParser, cfg. destruct (unicodeStream f); simpl; repeat split. Qed.

(** C1, as the code has it: the canonical rendering of a tree returned by
    a successful parse, in which no string or byte atom directly follows an
    integer in the same list, is parsed to that tree with its strings as
    byte atoms and its integers in the variant chosen for their value. *)
Theorem C1_reread_of_rendering (f : Format) (b : list byte) (t : list Value) :
  allowIntegers f = true -> allowLists f = true ->
  allowVerbatimBinaryString f = true -> 0 <= maxListDepth f ->
  Parse f b = Ok t -> Forall octets t -> separable (VList t) = true ->
  Format_String t = (serialize t, None)
  /\ Parse f (serialize t) = Ok (map reread t).
Proof.
  intros Hint Hlist Hverb Hmax Hparse Hoct Hsep.
  pose proof (Parse_fits f b Hmax Hparse) as Hfit.
  assert (Hbm : 0 <= (if unicodeStream f then 0 else 1) < 255)
    by (destruct (unicodeStream f); lia).
  destruct (@reread_from f _ Hint Hlist Hverb Hbm t (NewParser f) (NewParser_cfg f)
              Hfit Hoct Hsep) as (out & q & q' & W & E1 & E2 & T).
  assert (ES : Format_String t = (out, None)) by (unfold Format_String; rewrite W; reflexivity).
  assert (Eser : serialize t = out) by (unfold serialize; rewrite ES; reflexivity).
  rewrite Eser. split; [exact ES|].
  unfold Parse, Parser_Write, Parser_Write_with.
  replace (p_sublexing (NewParser f)) with false
    by (unfold NewParser; destruct (unicodeStream f); reflexivity).
  rewrite E1, E2, T. reflexivity.
Qed.

Lemma C1_reread_witness :
  Parse SX (serialize [VList [VString (bytes_of "abc"); VInt 5;
                              VList [VInt 7; VInt (-8)]; VString (bytes_of "xyz")]])
  = Ok (map reread [VList [VString (bytes_of "abc"); VInt 5;
                           VList [VInt 7; VInt (-8)]; VString (bytes_of "xyz")]]).
Proof.
  apply (proj2 (@C1_reread_of_rendering SX (bytes_of "(abc 5 (7 -8) xyz)") _
                  eq_refl eq_refl eq_refl ltac:(simpl; lia)
                  ltac:(vm_compute; reflexivity)
                  ltac:(repeat constructor; vm_compute; intuition discriminate)
                  eq_refl)).
Defined.

(** C1 as stated fails: [5 abc] parses to an integer and a string, which
    are rendered as [53:abc]; that is read back as the start of a byte
    string of 53 bytes, and the parse returns no value at all. *)
Lemma C1_counterexample :
  ~ (forall b t, Parse SX b = Ok t ->
       exists t', Parse SX (serialize t) = Ok t'
                  /\ same_up_to_int (VList t) (VList t') = true).
Proof.
  intros H.
  destruct (H (bytes_of "5 abc") [VInt 5; VString (bytes_of "abc")]) as (t' & E & S).
  - vm_compute. reflexivity.
  - assert (E' : Parse SX (serialize [VInt 5; VString (bytes_of "abc")]) = Ok [])
      by (vm_compute; reflexivity).
    rewrite E' in E. injection E as <-. vm_compute in S. discriminate.
Qed.

(* ------------------------------------------------------------------ *)
(** * The loop ends within its iteration bound *)

Lemma dispatch_ranked (p : Parser) (r : rune) (prev : option byte) (rest : list byte) :
  p_reissue p = 0 -> ranked p r rest (dispatch p r prev rest).
Proof.
  intros Hr. unfold dispatch, octal_digit.
  destruct (p_state p) eqn:Hs;
    repeat match goal with
           | |- context [if ?c then _ else _] => destruct c eqn:?
           | |- context [match ?x with _ => _ end] => destruct x eqn:?
           end;
    unfold ranked; psimpl; try exact I; try exact Hr; try (split; [reflexivity | exact Hr]).
  all: rewrite ?Hs.
  all: repeat match goal with
              | E : match decoct ?r with _ => _ end = _ |- _ =>
                destruct (decoct r); try discriminate
              | E : Some _ = Some _ |- _ => injection E as <-
              end; psimpl.
  all: (split; [cbn [length]; rewrite ?length_skipn; lia|]).
  all: try (left; lia).
  all: try (right; (split; [lia|]);
            unfold rk, isTokenChar, isTokenStartChar, is_digit in *;
       repeat match goal with |- context [if ?c then _ else _] => destruct c eqn:? end;
       lia).
Qed.

Lemma rk_pos (st : pstate) (r : rune) : (1 <= rk st r)%nat.
Proof.
  unfold rk. destruct st;
    repeat match goal with |- context [if ?c then _ else _] => destruct c end; lia.
Qed.

Lemma read_rune_size (p : Parser) (x : byte) (t : list byte) :
  (1 <= snd (read_rune p (x :: t)))%nat.
Proof.
  unfold read_rune, DecodeRune.
  repeat match goal with
         | |- context [if ?c then _ else _] => destruct c
         | |- context [match ?l with [] => _ | _ :: _ => _ end] => destruct l
         end; simpl; lia.
Qed.

Lemma b64_decode_length (src : list byte) :
  (length (fst (b64_decode src)) <= length src)%nat.
Proof.
  assert (H : forall n src, (length src <= n)%nat ->
              (length (fst (b64_decode src)) <= length src)%nat).
  { induction n as [|n IH]; intros s Hs.
    - destruct s; [simpl; lia | simpl in Hs; lia].
    - destruct s as [|c0 [|c1 [|c2 [|c3 rest]]]]; try (simpl; lia).
      cbn [b64_decode].
      destruct (b64_val c0); [|simpl; lia].
      destruct (b64_val c1); [|simpl; lia].
      destruct (b64_val c2).
      + destruct (b64_val c3).
        * specialize (IH rest). destruct (b64_decode rest) as [out e].
          simpl in *. lia.
        * destruct (c3 =? 61); simpl; lia.
      + destruct ((c2 =? 61) && (c3 =? 61)); simpl; lia. }
  apply (H (length src)). lia.
Qed.

Lemma filter_ws_length (b : list byte) : (length (filter_ws b) <= length b)%nat.
Proof. apply filter_length_le. Qed.

Lemma subb64_Write_good (w : Parser -> list byte -> outcome) (N : nat)
    (p : Parser) (seg : list byte) :
  (forall q b, p_reissue q = 0 -> (length b <= N)%nat -> good (w q b)) ->
  p_reissue p = 0 -> (length seg <= N)%nat ->
  good (subb64_Write w p seg).
Proof.
  intros Hw Hr Hn. unfold subb64_Write.
  destruct (p_subb64 p) as [wd|]; [|split; [discriminate | intros; discriminate]].
  destruct (wd_err wd); [split; [discriminate | intros; discriminate]|].
  destruct (wd_b64dec wd).
  2:{ split; [discriminate|]. intros q rest E. injection E as <- _. exact Hr. }
  pose proof (b64_decode_length (filter_ws seg)) as Hlen.
  pose proof (filter_ws_length seg) as Hlen2.
  destruct (b64_decode (filter_ws seg)) as [out bad]. simpl in Hlen.
  destruct out as [|o out].
  - destruct bad; (split; [discriminate|]); intros q rest E; try discriminate.
    injection E as <- _. psimpl. exact Hr.
  - match goal with |- context [w ?p0 ?x] =>
      destruct (Hw p0 x) as [G1 G2]; [psimpl; exact Hr | lia |];
      destruct (w p0 x) as [p1 rest1 [ew|]| |] eqn:E end.
    + split; [discriminate | intros; discriminate].
    + destruct rest1; [destruct bad|]; (split; [discriminate|]);
        intros q rest E'; try discriminate.
      injection E' as <- _. apply (G2 p1 []). reflexivity.
    + split; [discriminate | intros; discriminate].
    + contradiction G1; reflexivity.
Qed.

Lemma Parser_Write_with_good (w : Parser -> list byte -> outcome) (N : nat)
    (p : Parser) (b : list byte) :
  (forall q b, p_reissue q = 0 -> (length b <= N)%nat -> good (w q b)) ->
  p_reissue p = 0 -> (length b <= N)%nat ->
  good (Parser_Write_with w p b).
Proof.
  intros Hw Hr Hn. unfold Parser_Write_with.
  destruct (p_sublexing p); [|apply Hw; assumption].
  destruct (IndexByte b 125) as [idx|]; [|apply subb64_Write_good with N; assumption].
  assert (G : good (subb64_Write w p (firstn idx b))).
  { apply subb64_Write_good with N; try assumption.
    rewrite length_firstn. lia. }
  destruct (subb64_Write w p (firstn idx b)) as [p1 rest1 [e1|]| |]; try exact G.
  apply Hw.
  - psimpl. apply (proj2 G p1 rest1). reflexivity.
  - rewrite length_skipn. lia.
Qed.

Lemma write_loop_good (fuel : nat) : forall p prev rest r,
  ready fuel p rest r -> good (write_loop fuel p prev rest r).
Proof.
  induction fuel as [|fuel IH]; intros p prev rest r Hre.
  { destruct Hre as [[_ H]|[_ H]]; lia. }
  assert (Hres : forall p0 r1 rest1 prev1,
            p_reissue p0 = 0 ->
            (forall p2 (rest2 : list byte), (length rest2 <= length rest1)%nat ->
               p_reissue p2 = 0 -> (3 * length rest2 < fuel)%nat) ->
            (forall p2 (rest2 : list byte), (length rest2 <= length rest1)%nat ->
               p_reissue p2 = 1 -> (rk (p_state p2) r1 < rk (p_state p0) r1)%nat ->
               (rk (p_state p2) r1 <= 2)%nat ->
               (3 * length rest2 + rk (p_state p2) r1 < fuel)%nat) ->
            good (resume (write_loop fuel) (dispatch p0 r1 prev1 rest1) r1)).
  { intros p0 r1 rest1 prev1 Hr0 H0 H1.
    pose proof (dispatch_ranked p0 r1 prev1 rest1 Hr0) as Hrk.
    destruct (dispatch p0 r1 prev1 rest1) as [p2 prev2 rest2|p2 rest2 e2|p2 rest2|];
      cbn [resume ranked] in *.
    - apply IH. destruct Hrk as [Hl [Hz|(Ho & Hlt & Hle)]].
      + left. split; [exact Hz | apply (H0 p2); assumption].
      + right. split; [exact Ho | apply (H1 p2); assumption].
    - split; [discriminate|]. intros q rest' E. injection E as E1 E2 E3.
      subst. exact Hrk.
    - destruct Hrk as [-> Hz].
      apply Parser_Write_with_good with (N := length rest1); [| exact Hz | lia].
      intros q b Hq Hb. apply IH. left. split; [exact Hq|].
      specialize (H0 q b Hb Hq). exact H0.
    - split; [discriminate | intros; discriminate]. }
  unfold write_loop; fold write_loop.
  destruct Hre as [[Hz Hf]|[Ho Hf]].
  - rewrite Hz. cbn [Z.ltb Z.compare].
    destruct rest as [|x t].
    + split; [discriminate|]. intros q rest' E. injection E as <- _. exact Hz.
    + pose proof (read_rune_size p x t) as Hsz.
      destruct (read_rune p (x :: t)) as [r1 sz]. cbn [snd] in Hsz.
      assert (Hsk : (length (skipn sz (x :: t)) <= length t)%nat).
      { rewrite length_skipn. simpl length. lia. }
      apply Hres; [exact Hz | |]; intros p2 rest2 Hl; intros; simpl length in Hf; lia.
  - replace (0 <? p_reissue p) with true by (symmetry; lia).
    pose proof (rk_pos (p_state p) r).
    apply Hres; [psimpl; lia | |]; intros p2 rest2 Hl; psimpl; intros; lia.
Qed.

(** [write] never reaches its iteration bound when no reissue is pending
    on entry, as is the case for every call made by [Parse]. *)
Lemma write_good (p : Parser) (b : list byte) : p_reissue p = 0 -> good (write p b).
Proof.
  intros Hr. unfold write, write_fuel. apply write_loop_good. left.
  split; [exact Hr|]. rewrite Hr. simpl. lia.
Qed.

(** [Parse] always ends within the iteration bound of the model. *)
Lemma Parse_total (f : Format) (b : list byte) : Parse f b <> NoFuel.
Proof.
  unfold Parse.
  assert (Hw : forall N q b0, p_reissue q = 0 -> (length b0 <= N)%nat -> good (write q b0))
    by (intros; apply write_good; assumption).
  assert (G1 : good (Parser_Write (NewParser f) b)).
  { apply Parser_Write_with_good with (N := length b); [apply Hw | | lia].
    unfold NewParser. destruct (unicodeStream f); reflexivity. }
  destruct (Parser_Write (NewParser f) b) as [p rest [e|]| |]; try discriminate.
  - assert (G2 : good (Close p)).
    { apply Parser_Write_with_good with (N := 1%nat); [apply Hw | | simpl; lia].
      psimpl. apply (proj2 G1 p rest). reflexivity. }
    destruct (Close p) as [p' rest' [e|]| |]; try discriminate.
    contradiction (proj1 G2). reflexivity.
  - contradiction (proj1 G1). reflexivity.
Qed.

(* ------------------------------------------------------------------ *)
(** * More iterations than needed change nothing *)

Lemma subb64_Write_mono (w w' : Parser -> list byte -> outcome)
    (p : Parser) (seg : list byte) :
  extends w w' -> subb64_Write w p seg <> OutOfFuel ->
  subb64_Write w' p seg = subb64_Write w p seg.
Proof.
  intros Hw H. unfold subb64_Write in *.
  destruct (p_subb64 p) as [wd|]; [|reflexivity].
  destruct (wd_err wd); [reflexivity|].
  destruct (wd_b64dec wd); [|reflexivity].
  destruct (b64_decode (filter_ws seg)) as [out bad].
  destruct out as [|o out]; [reflexivity|].
  match goal with |- context [w ?p0 ?x] =>
    destruct (w p0 x) as [p1 rest1 e1| |] eqn:E;
    [rewrite (Hw p0 x), E by (rewrite E; discriminate); reflexivity
    |rewrite (Hw p0 x), E by (rewrite E; discriminate); reflexivity
    |contradiction H; reflexivity] end.
Qed.

Lemma Parser_Write_with_mono (w w' : Parser -> list byte -> outcome)
    (p : Parser) (b : list byte) :
  extends w w' -> Parser_Write_with w p b <> OutOfFuel ->
  Parser_Write_with w' p b = Parser_Write_with w p b.
Proof.
  intros Hw H. unfold Parser_Write_with in *.
  destruct (p_sublexing p); [|apply Hw; exact H].
  destruct (IndexByte b 125) as [idx|]; [|apply subb64_Write_mono; assumption].
  pose proof (@subb64_Write_mono w w' p (firstn idx b) Hw) as M.
  destruct (subb64_Write w p (firstn idx b)) as [p1 rest1 [e1|]| |] eqn:E.
  - rewrite M by discriminate. reflexivity.
  - rewrite M by discriminate. apply Hw. exact H.
  - rewrite M by discriminate. reflexivity.
  - contradiction H; reflexivity.
Qed.

Lemma write_loop_mono (fuel : nat) : forall p prev rest r fuel',
  write_loop fuel p prev rest r <> OutOfFuel -> (fuel <= fuel')%nat ->
  write_loop fuel' p prev rest r = write_loop fuel p prev rest r.
Proof.
  induction fuel as [|fuel IH]; intros p prev rest r fuel' H Hle.
  { contradiction H; reflexivity. }
  destruct fuel' as [|fuel']; [lia|].
  assert (Hres : forall a r1,
            resume (write_loop fuel) a r1 <> OutOfFuel ->
            resume (write_loop fuel') a r1 = resume (write_loop fuel) a r1).
  { intros a r1 Ha. destruct a as [p2 prev2 rest2|p2 rest2 e2|p2 rest2|];
      cbn [resume] in *; try reflexivity.
    - apply IH; [exact Ha | lia].
    - apply Parser_Write_with_mono; [|exact Ha].
      intros q b Hq. apply IH; [exact Hq | lia]. }
  unfold write_loop in *; fold write_loop in *.
  destruct (0 <? p_reissue p); [apply Hres; exact H|].
  destruct rest as [|x t]; [reflexivity|].
  destruct (read_rune p (x :: t)) as [r1 sz]. apply Hres. exact H.
Qed.

(** Wherever the loop stands with no reissue pending, the rest of the
    run is [write] on the rest of the input. *)
Lemma write_loop_enough (fuel : nat) (p : Parser) (prev : option byte)
    (rest : list byte) (r : rune) :
  p_reissue p = 0 -> (3 * length rest < fuel)%nat ->
  write_loop fuel p prev rest r = write p rest.
Proof.
  intros Hr Hf. rewrite write_loop_fresh by exact Hr.
  unfold write, write_fuel. apply write_loop_mono.
  - apply write_good. exact Hr.
  - rewrite Hr. simpl. lia.
Qed.

(* ------------------------------------------------------------------ *)
(** * Whitespace inside hex and base64 atoms *)







Lemma lor_ge_l (a b : Z) : 0 <= b -> a <= Z.lor a b.
Proof.
  intros Hb. pose proof (Z.sub_lor_l_same_l b a) as H.
  assert (0 <= Z.land b (Z.lnot a)) by (apply Z.land_nonneg; left; exact Hb).
  lia.
Qed.

Lemma lor_ge_r (a b : Z) : 0 <= a -> b <= Z.lor a b.
Proof. intros Ha. rewrite Z.lor_comm. apply lor_ge_l. exact Ha. Qed.

Lemma land_mask_range (a : Z) (n : Z) : 0 <= n -> 0 <= Z.land a (Z.ones n) < 2 ^ n.
Proof. intros Hn. rewrite Z.land_ones by exact Hn. apply Z.mod_pos_bound. lia. Qed.

Lemma mod_window (a b q : Z) : 0 < b -> b * q <= a < b * (q + 1) -> a mod b = a - b * q.
Proof. intros Hb Ha. symmetry. apply Z.mod_unique with q; lia. Qed.

(** A rune read from a byte outside ASCII is outside ASCII. *)
Lemma DecodeRune_high (x : byte) (t : list byte) :
  128 <= x -> 128 <= fst (DecodeRune (x :: t)).
Proof.
  intros Hx. unfold DecodeRune, RuneError, is_cont.
  replace (x <? 128) with false by (symmetry; lia).
  assert (M5 : Z.land x 31 = x mod 32) by (apply (Z.land_ones x 5); lia).
  assert (M4 : Z.land x 15 = x mod 16) by (apply (Z.land_ones x 4); lia).
  assert (M3 : Z.land x 7 = x mod 8) by (apply (Z.land_ones x 3); lia).
  assert (M6 : forall b, Z.land b 63 = b mod 64) by (intros b; apply (Z.land_ones b 6); lia).
  assert (Hmod : forall b, 0 <= b mod 64 < 64) by (intros b; apply Z.mod_pos_bound; lia).
  assert (Hcont : forall b, 128 <= b <= 191 -> b mod 64 = b - 128).
  { intros b Hb. rewrite (@mod_window b 64 2) by lia. lia. }
  destruct ((194 <=? x) && (x <=? 223)) eqn:E2.
  { destruct t as [|b1 t]; [simpl; lia|].
    destruct ((128 <=? b1) && (b1 <=? 191)); [|simpl; lia]. cbn [fst].
    rewrite M5, M6, Z.shiftl_mul_pow2 by lia.
    pose proof (@lor_ge_l (x mod 32 * 2 ^ 6) (b1 mod 64) (proj1 (Hmod b1))).
    pose proof (@mod_window x 32 6 ltac:(lia) ltac:(lia)). lia. }
  destruct ((224 <=? x) && (x <=? 239)) eqn:E3.
  { destruct t as [|b1 [|b2 t]]; try (simpl; lia).
    match goal with |- context [if ?c then _ else _] => destruct c eqn:Ec end;
      [|simpl; lia].
    cbn [fst]. rewrite M4, !M6, !Z.shiftl_mul_pow2 by lia.
    assert (0 <= Z.lor (b1 mod 64 * 2 ^ 6) (b2 mod 64)).
    { apply Z.lor_nonneg. pose proof (Hmod b1). pose proof (Hmod b2). lia. }
    pose proof (@lor_ge_l (x mod 16 * 2 ^ 12) (Z.lor (b1 mod 64 * 2 ^ 6) (b2 mod 64))
                  ltac:(assumption)).
    pose proof (@lor_ge_r (x mod 16 * 2 ^ 12) (Z.lor (b1 mod 64 * 2 ^ 6) (b2 mod 64))).
    pose proof (@lor_ge_l (b1 mod 64 * 2 ^ 6) (b2 mod 64) (proj1 (Hmod b2))).
    pose proof (@mod_window x 16 14 ltac:(lia) ltac:(lia)) as Hx16.
    destruct (x =? 224) eqn:Ex.
    - pose proof (Hcont b1 ltac:(destruct (x =? 237); lia)) as Hb1. lia.
    - lia. }
  destruct ((240 <=? x) && (x <=? 244)) eqn:E4.
  { destruct t as [|b1 [|b2 [|b3 t]]]; try (simpl; lia).
    match goal with |- context [if ?c then _ else _] => destruct c eqn:Ec end;
      [|simpl; lia].
    cbn [fst]. rewrite M3, !M6, !Z.shiftl_mul_pow2 by lia.
    set (C := Z.lor (b2 mod 64 * 2 ^ 6) (b3 mod 64)).
    assert (HC : 0 <= C).
    { apply Z.lor_nonneg. pose proof (Hmod b2). pose proof (Hmod b3). lia. }
    set (B := Z.lor (b1 mod 64 * 2 ^ 12) C).
    assert (HB : 0 <= B).
    { apply Z.lor_nonneg. pose proof (Hmod b1). lia. }
    pose proof (@lor_ge_l (x mod 8 * 2 ^ 18) B HB).
    pose proof (@lor_ge_r (x mod 8 * 2 ^ 18) B).
    pose proof (@lor_ge_l (b1 mod 64 * 2 ^ 12) C HC). fold B in H1.
    pose proof (@mod_window x 8 30 ltac:(lia) ltac:(lia)) as Hx8.
    destruct (x =? 240) eqn:Ex.
    - pose proof (Hcont b1 ltac:(destruct (x =? 244); lia)) as Hb1. lia.
    - lia. }
  simpl. lia.
Qed.

Lemma read_rune_high (p : Parser) (x : byte) (t : list byte) :
  128 <= x -> 128 <= fst (read_rune p (x :: t)).
Proof.
  intros Hx. unfold read_rune. destruct (negb (p_bytemode p =? 0)).
  - simpl. exact Hx.
  - apply DecodeRune_high. exact Hx.
Qed.

(** The first iteration of [write] on a non-empty buffer. *)
Lemma write_step (p : Parser) (x : byte) (t : list byte) :
  p_reissue p = 0 ->
  write p (x :: t) =
  resume (write_loop (3 * S (length t)))
    (dispatch p (fst (read_rune p (x :: t)))
       (nth_error (x :: t) (snd (read_rune p (x :: t)) - 1))
       (skipn (snd (read_rune p (x :: t))) (x :: t)))
    (fst (read_rune p (x :: t))).
Proof.
  intros Hr. unfold write, write_fuel. rewrite Hr.
  replace (S (3 * length (x :: t) + 3 * Z.to_nat 0)) with (S (3 * S (length t)))
    by (simpl; lia).
  unfold write_loop; fold write_loop. rewrite Hr. cbn [Z.ltb Z.compare].
  destruct (read_rune p (x :: t)) as [r1 sz]. reflexivity.
Qed.

Lemma write_step_ascii (p : Parser) (x : byte) (t : list byte) :
  p_reissue p = 0 -> x < 128 ->
  write p (x :: t) =
  resume (write_loop (3 * S (length t))) (dispatch p x (Some x) t) x.
Proof.
  intros Hr Hx. rewrite write_step by exact Hr.
  rewrite read_rune_ascii by exact Hx. reflexivity.
Qed.


Lemma hex_dispatch_other (p : Parser) (r : rune) (prev : option byte) (rest : list byte) :
  in_hex p -> r <> 35 -> is_space r = false ->
  dispatch p r prev rest =
  match dechex r with
  | None => Return_ p rest (Some (ErrInvalidToken r))
  | Some hv => Continue (hex_digit p hv) prev rest
  end.
Proof.
  intros [Hs|Hs] H35 Hw; unfold dispatch, hex_digit; rewrite Hs; unfold is_space in Hw.
  - replace (r =? 35) with false by (symmetry; lia).
    replace ((r =? 32) || (r =? 13) || (r =? 10) || (r =? 9)) with false
      by (symmetry; lia). reflexivity.
  - replace ((r =? 32) || (r =? 13) || (r =? 10) || (r =? 9)) with false
      by (symmetry; lia). reflexivity.
Qed.











(** [write] on an opening brace met while drifting: the envelope up to
    the closing brace is decoded and fed to the parser, then the rest is
    parsed. *)
Lemma brace_write (p : Parser) (e k : list byte) :
  drifting p -> p_sublexing p = false ->
  allowVerbatimBase64BinaryString (p_f p) = true -> ~ In 125 e ->
  write p (123 :: e ++ 125 :: k) =
  Parser_Write_with write
    (set_subb64 (Some newWriteDecoder) (set_sublexing true p)) (e ++ 125 :: k).
Proof.
  intros (Hs & Hr & He) Hsub Hv Hne.
  rewrite write_step_ascii by (auto; lia).
  unfold dispatch. rewrite Hs, He, Hsub, Hv. cbn [is_space is_digit Z.eqb Z.leb Z.compare
    andb orb negb Pos.compare Pos.compare_cont Pos.eqb resume].
  set (p' := set_subb64 (Some newWriteDecoder) (set_sublexing true p)).
  set (F := (3 * S (length (e ++ 125%Z :: k)))%nat).
  assert (Hw : forall q b, p_reissue q = 0 -> (length b <= length (e ++ 125%Z :: k))%nat ->
                 write_loop F q None b 0 = write q b).
  { intros q b Hq Hb. apply write_loop_enough; [exact Hq | unfold F; lia]. }
  unfold Parser_Write_with. unfold p' at 1 3. psimpl. fold p'.
  rewrite IndexByte_absent by exact Hne.
  rewrite firstn_app, firstn_all, Nat.sub_diag. cbn [firstn]. rewrite app_nil_r.
  assert (Hk : skipn (S (length e)) (e ++ 125 :: k) = k).
  { replace (e ++ 125 :: k) with ((e ++ [125]) ++ k) by (rewrite <- app_assoc; reflexivity).
    rewrite skipn_app.
    replace (S (length e) - length (e ++ [125%Z]))%nat with 0%nat
      by (rewrite length_app; cbn [length]; lia).
    rewrite skipn_all2 by (rewrite length_app; cbn [length]; lia). reflexivity. }
  rewrite Hk.
  assert (Hsubw : subb64_Write (fun q b => write_loop F q None b 0) p' e =
                  subb64_Write write p' e).
  { unfold subb64_Write. unfold p' at 1 3. psimpl. cbn [newWriteDecoder wd_err wd_b64dec].
    pose proof (b64_decode_length (filter_ws e)) as Hl1.
    pose proof (filter_ws_length e) as Hl2.
    destruct (b64_decode (filter_ws e)) as [out bad]. cbn [fst] in Hl1.
    destruct out as [|o out]; [reflexivity|].
    rewrite Hw; [reflexivity | psimpl; exact Hr |].
    rewrite length_app. simpl length in *. lia. }
  rewrite Hsubw.
  assert (G : good (subb64_Write write p' e)).
  { apply subb64_Write_good with (N := length e); [| psimpl; exact Hr | lia].
    intros q b Hq _. apply write_good. exact Hq. }
  destruct (subb64_Write write p' e) as [p1 rest1 [e1|]| |]; try reflexivity.
  apply Hw.
  - psimpl. apply (proj2 G p1 rest1). reflexivity.
  - rewrite length_app. simpl. lia.
Qed.










(* ------------------------------------------------------------------ *)
(** * Incremental writes ([Parser.Write], [Parser.write]) *)

(** Outside the base64 state, and on a rune other than [|] and [{], the
    [switch] does not look at the input that follows: it goes on with a
    parser that depends on the state and the rune only, or fails, or
    panics. *)
Lemma dispatch_plain (p : Parser) (r : rune) :
  steady p -> r <> 124 -> r <> 123 ->
  (exists q, (forall pv rs, dispatch p r pv rs = Continue q pv rs) /\ steady q)
  \/ (exists q e, forall pv rs, dispatch p r pv rs = Return_ q rs (Some e))
  \/ (forall pv rs, dispatch p r pv rs = Panic).
Proof.
  intros (Hs & He & Hsub & Hre) H1 H2. unfold dispatch, octal_digit, steady.
  destruct (p_state p) eqn:Hst; try congruence; rewrite ?He;
    repeat match goal with
           | |- context [if ?c then _ else _] => destruct c eqn:?
           | |- context [match dechex ?x with _ => _ end] => destruct (dechex x) eqn:?
           | |- context [match decoct ?x with _ => _ end] => destruct (decoct x) eqn:?
           | |- context [match unsnoc ?x with _ => _ end] => destruct (unsnoc x) as [[? ?]|] eqn:?
           end;
    try (exfalso; lia);
    first
      [ left; eexists; split; [intros; reflexivity |];
        psimpl; rewrite ?Hst; repeat split; solve [discriminate | assumption | congruence | lia]
      | right; left; do 2 eexists; intros; reflexivity
      | right; right; intros; reflexivity ].
Qed.

Lemma write_loop_split (fuel : nat) : forall p prev a r b,
  steady p -> (0 < p_reissue p -> r <> 124 /\ r <> 123) -> plain a ->
  match write_loop fuel p prev a r with
  | Returned q _ None =>
    steady q /\ p_reissue q = 0
    /\ write_loop (fuel + S (3 * length b)) p prev (a ++ b) r = write q b
  | Returned q rest (Some e) =>
    write_loop (fuel + S (3 * length b)) p prev (a ++ b) r = Returned q (rest ++ b) (Some e)
  | Panicked => write_loop (fuel + S (3 * length b)) p prev (a ++ b) r = Panicked
  | OutOfFuel => True
  end.
Proof.
  induction fuel as [|fuel IH]; intros p prev a r b Hp Hr Ha; [exact I|].
  cbn [Nat.add].
  destruct (Z.ltb_spec 0 (p_reissue p)) as [Hre|Hre].
  - rewrite !write_loop_reissue by exact Hre.
    destruct (Hr Hre) as [R1 R2].
    assert (Hp' : steady (set_reissue (p_reissue p - 1) p)).
    { destruct Hp as (? & ? & ? & ?). unfold steady. psimpl. repeat split; auto; lia. }
    destruct (dispatch_plain Hp' R1 R2) as [(q & Hd & Hq) | [(q & e & Hd) | Hd]];
      rewrite !Hd; cbn [resume]; [|reflexivity|reflexivity].
    apply IH; [exact Hq | intros _; split; assumption | exact Ha].
  - assert (Hz : p_reissue p = 0) by (destruct Hp as (_ & _ & _ & ?); lia).
    destruct a as [|x t].
    + rewrite write_loop_end by exact Hz.
      cbn [app]. split; [exact Hp|]. split; [exact Hz|].
      apply write_loop_enough; [exact Hz | lia].
    + inversion Ha as [|x' t' (X1 & X2 & X3) Ht]; subst.
      cbn [app]. rewrite !write_loop_fetch by assumption.
      destruct (dispatch_plain Hp X2 X3) as [(q & Hd & Hq) | [(q & e & Hd) | Hd]];
        rewrite !Hd; cbn [resume]; [|reflexivity|reflexivity].
      apply IH; [exact Hq | intros _; split; assumption | exact Ht].
Qed.

Lemma write_split (p : Parser) (a b : list byte) :
  steady p -> p_reissue p = 0 -> plain a ->
  match write p a with
  | Returned q _ None => steady q /\ p_reissue q = 0 /\ write p (a ++ b) = write q b
  | Returned q rest (Some e) => write p (a ++ b) = Returned q (rest ++ b) (Some e)
  | Panicked => write p (a ++ b) = Panicked
  | OutOfFuel => False
  end.
Proof.
  intros Hp Hr Ha.
  pose proof (@write_loop_split (write_fuel p a) p None a 0 b Hp
                ltac:(intros; lia) Ha) as H.
  pose proof (proj1 (@write_good p a Hr)) as G.
  assert (E : write_loop (write_fuel p a + S (3 * length b)) p None (a ++ b) 0
              = write p (a ++ b)).
  { apply write_loop_enough; [exact Hr|].
    unfold write_fuel. rewrite length_app. lia. }
  rewrite E in H. fold (write p a) in H.
  destruct (write p a) as [q rest [e|]| |]; auto.
Qed.

(** X1: The incremental interface agrees with itself: a plain chunk [a]
    written together with what follows it gives what writing [a] and then
    the rest gives.  If [a] alone is accepted, the parser it leaves can be
    written to again and the two ways end alike; if [a] alone fails or
    panics, so does the longer input, on the same parser with the same
    error. *)
Theorem Write_in_two_pieces (p : Parser) (a b : list byte) :
  steady p -> p_reissue p = 0 -> plain a ->
  (forall q rest, Parser_Write p a = Returned q rest None ->
     steady q /\ p_reissue q = 0
     /\ Parser_Write p (a ++ b) = Parser_Write q b)
  /\ (forall q rest e, Parser_Write p a = Returned q rest (Some e) ->
     Parser_Write p (a ++ b) = Returned q (rest ++ b) (Some e))
  /\ (Parser_Write p a = Panicked -> Parser_Write p (a ++ b) = Panicked)
  /\ Parser_Write p a <> OutOfFuel.
Proof.
  intros Hp Hr Ha. pose proof (write_split b Hp Hr Ha) as H.
  assert (Ew : forall c, Parser_Write p c = write p c).
  { intros c. unfold Parser_Write, Parser_Write_with.
    destruct Hp as (_ & _ & -> & _). reflexivity. }
  rewrite !Ew. destruct (write p a) as [q rest [e|]| |]; try contradiction.
  - split; [intros ? ? ?; discriminate|].
    split; [|split; discriminate].
    intros q' rest' e' E. injection E as <- <- <-. exact H.
  - destruct H as (Hq & Hrq & H).
    split; [|split; [intros ? ? ? ?; discriminate | split; discriminate]].
    intros q' rest' E. injection E as <- _.
    split; [exact Hq|]. split; [exact Hrq|].
    rewrite H. unfold Parser_Write, Parser_Write_with.
    destruct Hq as (_ & _ & -> & _). reflexivity.
  - split; [intros ? ? ?; discriminate|].
    split; [intros ? ? ? ?; discriminate|]. split; [intros _; exact H | discriminate].
Qed.

Lemma Write_in_two_pieces_witness :
  exists q,
    Parser_Write (NewParser SX) (bytes_of "(abc 12") = Returned q [] None
    /\ Parser_Write (NewParser SX) (bytes_of "(abc 12" ++ bytes_of "3 de)")
       = Parser_Write q (bytes_of "3 de)").
Proof.
  assert (Hs : steady (NewParser SX))
    by (unfold steady; cbn; repeat split; [discriminate | lia]).
  assert (Ha : plain (bytes_of "(abc 12"))
    by (unfold plain; repeat constructor; cbn; lia).
  destruct (Parser_Write (NewParser SX) (bytes_of "(abc 12")) as [q rest [e|]| |] eqn:E;
    try (vm_compute in E; discriminate).
  exists q. split.
  - vm_compute in E. injection E as <- <-. reflexivity.
  - exact (proj2 (proj2 (proj1 (@Write_in_two_pieces (NewParser SX) (bytes_of "(abc 12")
                                  (bytes_of "3 de)") Hs eq_refl Ha) q rest E))).
Defined.

(** A plain prefix that is accepted alone is a prefix in the sense of
    [after_prefix]. *)
Lemma after_prefix_plain (f : Format) (a : list byte) (q : Parser) (rest : list byte) :
  plain a -> write (NewParser f) a = Returned q rest None -> after_prefix f a q.
Proof.
  intros Ha E.
  assert (Hp : steady (NewParser f) /\ p_reissue (NewParser f) = 0).
  { unfold steady, NewParser. destruct (unicodeStream f); simpl; repeat split;
      try discriminate; lia. }
  destruct Hp as [Hp Hr]. split.
  - pose proof (write_split [] Hp Hr Ha) as H. rewrite E in H. apply H.
  - intros k. pose proof (write_split k Hp Hr Ha) as H. rewrite E in H. apply H.
Qed.

(* ------------------------------------------------------------------ *)
(** * Where the parser cannot panic *)

Lemma unsnoc_None (A : Type) (l : list A) : unsnoc l = None -> l = [].
Proof.
  destruct l as [|x l]; [reflexivity|]. simpl.
  destruct (unsnoc l) as [[? ?]|]; discriminate.
Qed.

(** Outside the base64 state the [switch] indexes nothing out of range:
    the stack is popped only when the depth, which is its length, is not
    zero. *)
Lemma dispatch_calm (p : Parser) (r : rune) (prev : option byte) (rest : list byte) :
  Inv p -> p_state p <> pstateBase64String -> 0 <= p_reissue p ->
  r <> 124 -> r <> 123 ->
  calm_action p rest (dispatch p r prev rest).
Proof.
  intros (_ & Hd & _) Hs Hre H1 H2. unfold dispatch, octal_digit, calm_action.
  destruct (p_state p) eqn:Hst; try congruence;
    repeat match goal with
           | |- context [if ?c then _ else _] => destruct c eqn:?
           | |- context [match dechex ?x with _ => _ end] => destruct (dechex x) eqn:?
           | |- context [match decoct ?x with _ => _ end] => destruct (decoct x) eqn:?
           | |- context [match unsnoc ?x with _ => _ end] => destruct (unsnoc x) as [[? ?]|] eqn:?
           end;
    try (exfalso; lia);
    try (psimpl; rewrite ?Hst; repeat split;
         solve [discriminate | assumption | congruence | reflexivity | lia]).
  match goal with H : unsnoc _ = None |- _ => apply unsnoc_None in H; rewrite H in Hd end.
  unfold len in Hd. simpl in Hd. lia.
Qed.

Lemma read_rune_calm (p : Parser) (x : byte) (t : list byte) :
  x <> 124 -> x <> 123 ->
  fst (read_rune p (x :: t)) <> 124 /\ fst (read_rune p (x :: t)) <> 123.
Proof.
  intros H1 H2. destruct (Z.lt_ge_cases x 128) as [Hx|Hx].
  - rewrite read_rune_ascii by exact Hx. simpl. auto.
  - pose proof (@read_rune_high p x t Hx). lia.
Qed.

Lemma Forall_skip (A : Type) (P : A -> Prop) (n : nat) : forall l,
  Forall P l -> Forall P (skipn n l).
Proof.
  induction n as [|n IH]; intros l H; [exact H|].
  destruct H as [|x l Hx Hl]; [constructor | apply IH; exact Hl].
Qed.

Lemma Inv_reissue (p : Parser) (n : Z) : Inv p -> Inv (set_reissue n p).
Proof. intros H. exact H. Qed.

Lemma write_loop_calm (fuel : nat) : forall p prev rest r,
  Inv p -> p_state p <> pstateBase64String -> p_sublexing p = false ->
  0 <= p_reissue p -> (0 < p_reissue p -> r <> 124 /\ r <> 123) -> calm rest ->
  match write_loop fuel p prev rest r with
  | Returned q _ _ => p_state q <> pstateBase64String /\ p_sublexing q = false
  | Panicked => False
  | OutOfFuel => True
  end.
Proof.
  induction fuel as [|fuel IH]; intros p prev rest r HI Hs Hsub Hre Hr Hc; [exact I|].
  destruct (Z.ltb_spec 0 (p_reissue p)) as [Hpos|Hz].
  - rewrite write_loop_reissue by exact Hpos.
    destruct (Hr Hpos) as [R1 R2].
    set (p' := set_reissue (p_reissue p - 1) p).
    assert (HI' : Inv p') by (apply Inv_reissue; exact HI).
    assert (Hre' : 0 <= p_reissue p') by (unfold p'; psimpl; lia).
    pose proof (@dispatch_calm p' r prev rest HI' Hs Hre' R1 R2) as Hd.
    pose proof (@dispatch_Inv p' r prev rest) as HInv.
    destruct (dispatch p' r prev rest) as [q pv rest'|q rest' e|q rest'|];
      cbn [resume]; cbn [calm_action] in Hd; try contradiction.
    + destruct Hd as (Hq1 & Hq2 & -> & Hq4).
      apply IH; [apply HInv; [exact HI' | reflexivity] | exact Hq1
                | rewrite Hq2; exact Hsub | exact Hq4
                | intros _; split; assumption | exact Hc].
    + destruct Hd as (Hq1 & Hq2). split; [exact Hq1 | rewrite Hq2; exact Hsub].
  - assert (Hz0 : p_reissue p = 0) by lia.
    destruct rest as [|x t].
    + rewrite write_loop_end by exact Hz0. split; assumption.
    + unfold write_loop; fold write_loop.
      replace (0 <? p_reissue p) with false by (symmetry; lia).
      inversion Hc as [|x' t' (X1 & X2) Ht]; subst.
      pose proof (@read_rune_calm p x t X1 X2) as [R1 R2].
      destruct (read_rune p (x :: t)) as [r1 sz]. cbn [fst] in R1, R2.
      set (rest' := skipn sz (x :: t)).
      assert (Hc' : calm rest') by (apply Forall_skip; exact Hc).
      pose proof (@dispatch_calm p r1 (nth_error (x :: t) (sz - 1)) rest' HI Hs Hre R1 R2) as Hd.
      pose proof (@dispatch_Inv p r1 (nth_error (x :: t) (sz - 1)) rest') as HInv.
      destruct (dispatch p r1 (nth_error (x :: t) (sz - 1)) rest') as [q pv rest2|q rest2 e|q rest2|];
        cbn [resume]; cbn [calm_action] in Hd; try contradiction.
      * destruct Hd as (Hq1 & Hq2 & -> & Hq4).
        apply IH; [apply HInv; [exact HI | reflexivity] | exact Hq1
                  | rewrite Hq2; exact Hsub | exact Hq4
                  | intros _; split; assumption | exact Hc'].
      * destruct Hd as (Hq1 & Hq2). split; [exact Hq1 | rewrite Hq2; exact Hsub].
Qed.

(** X2: On input with no [|] and no [{] byte [Parse] never panics: it returns
    values or an error. *)
Theorem Parse_calm_never_panics (f : Format) (b : list byte) :
  0 <= maxListDepth f -> calm b ->
  (exists t, Parse f b = Ok t) \/ (exists e, Parse f b = Err e).
Proof.
  intros Hm Hb.
  pose proof (Parse_total f b) as T. revert T. unfold Parse, Parser_Write, Parser_Write_with.
  destruct (NewParser_drifting f) as ((Hs & Hr & He) & _ & _ & _ & Hsub).
  rewrite Hsub.
  pose proof (@NewParser_Inv f Hm) as HI0.
  pose proof (@write_loop_calm (write_fuel (NewParser f) b) (NewParser f) None b 0
                (proj2 HI0) ltac:(rewrite Hs; discriminate) Hsub ltac:(lia) ltac:(lia) Hb)
    as H1.
  pose proof (@write_loop_Inv f (write_fuel (NewParser f) b) (NewParser f) None b 0) as HI1.
  pose proof (proj2 (@write_good (NewParser f) b Hr)) as G.
  fold (write (NewParser f) b) in H1, HI1.
  destruct (write (NewParser f) b) as [q rest [e|]| |]; try contradiction.
  - intros _. right. exists e. reflexivity.
  - destruct H1 as [Hq Hqs].
    assert (HIq : Inv_for f q) by (apply (HI1 q rest None); [exact HI0 | reflexivity]).
    assert (Hrq : p_reissue q = 0) by (apply (G q rest); reflexivity).
    unfold Close, Parser_Write, Parser_Write_with. psimpl. rewrite Hqs.
    pose proof (@write_loop_calm (write_fuel (set_eof true q) [0]) (set_eof true q) None [0] 0
                  (proj2 HIq) Hq Hqs ltac:(psimpl; lia) ltac:(psimpl; lia)
                  ltac:(repeat constructor; lia)) as H2.
    fold (write (set_eof true q) [0]) in H2.
    destruct (write (set_eof true q) [0]) as [q' rest' [e|]| |]; try contradiction.
    + intros _. right. exists e. reflexivity.
    + intros _. left. eexists. reflexivity.
Qed.

Lemma Parse_calm_never_panics_witness :
  (exists t, Parse SX (bytes_of "(a 3:b)c) #zz") = Ok t)
  \/ (exists e, Parse SX (bytes_of "(a 3:b)c) #zz") = Err e).
Proof.
  apply (@Parse_calm_never_panics SX (bytes_of "(a 3:b)c) #zz")).
  - cbn. lia.
  - unfold calm. repeat constructor; cbn; lia.
Defined.

(* ------------------------------------------------------------------ *)
(** * The end of the input ([Parser.Close]) *)

(** [Close] dispatches the byte 0 once, with [eof] set. *)
Lemma Close_step (p : Parser) :
  p_reissue p = 0 -> p_sublexing p = false ->
  Close p = resume (write_loop 3) (dispatch (set_eof true p) 0 (Some 0) []) 0.
Proof.
  intros Hr Hsub. unfold Close, Parser_Write, Parser_Write_with.
  change (p_sublexing (set_eof true p)) with (p_sublexing p). rewrite Hsub.
  rewrite write_step_ascii by (auto; lia). reflexivity.
Qed.

Ltac disp Hs :=
  unfold dispatch at 1; psimpl; rewrite ?Hs;
  cbn [is_digit is_space isTokenChar isTokenStartChar dechex decoct octal_digit
       Z.eqb Z.leb Z.ltb Z.compare Pos.compare Pos.compare_cont Pos.eqb
       andb orb negb resume].

Ltac loop_step Hr :=
  first [ rewrite write_loop_reissue by (psimpl; rewrite ?Hr; lia)
        | rewrite write_loop_end by (psimpl; rewrite ?Hr; lia) ].

Lemma Close_cases (p : Parser) :
  p_reissue p = 0 -> p_sublexing p = false ->
  match p_state p with
  | pstateDrifting | pstateQuotedString | pstateQuotedStringEscape
  | pstateQuotedStringEscapeCR | pstateQuotedStringEscapeLF =>
    exists q, Close p = Returned q [] None /\ p_tokens q = p_tokens p
  | pstateToken =>
    exists q, Close p = Returned q [] None
              /\ p_tokens q = p_tokens p ++ [VString (p_s p)]
  | pstateNegIntegerStart =>
    exists q, Close p = Returned q [] None /\ p_tokens q = p_tokens p ++ [VString [45]]
  | pstateInteger =>
    exists q, Close p = Returned q [] None
              /\ p_tokens q = p_tokens p ++ [integer_token (p_neg p) (p_i p)]
  | pstateLengthByteString =>
    exists q, Close p = Returned q [] None
              /\ p_tokens q = if p_xL p =? 0 then p_tokens p ++ [VBytes (p_b p)]
                              else p_tokens p
  | pstateLengthQuotedString =>
    exists q, Close p = Returned q [] None
              /\ p_tokens q = if p_xL p =? 0 then p_tokens p ++ [VString (p_s p)]
                              else p_tokens p
  | pstateBase64String =>
    match p_b64dec p with
    | None => Close p = Panicked
    | Some _ => exists q, Close p = Returned q [] None /\ p_tokens q = p_tokens p
    end
  | _ => Close p = Returned (set_eof true p) [] (Some (ErrInvalidToken 0))
  end.
Proof.
  intros Hr Hsub. rewrite Close_step by assumption.
  destruct (p_state p) eqn:Hs.
  all: try (destruct (p_xL p =? 0) eqn:HxL).
  all: try (destruct (p_b64dec p) as [[|]|] eqn:Hd).
  all: repeat first
         [ progress cbn [resume]
         | loop_step Hr
         | progress (disp Hs;
                     try match goal with
                         | Hd : p_b64dec _ = _ |- _ => rewrite ?Hd
                         end;
                     try match goal with
                         | HxL : (p_xL _ =? 0) = _ |- _ => rewrite ?HxL
                         end;
                     cbn [IndexByte Z.eqb Pos.eqb filter_ws filter is_space negb orb
                          b64_decode fst last]) ].
  all: try reflexivity.
  all: try (eexists; split; reflexivity).
Qed.

(** X3: What [Close] makes of the atom the input ended in.  A token or an
    integer is completed and pushed, and so is a length-prefixed string all
    of whose bytes have been read; an unfinished quoted or length-prefixed
    string and an unfinished base64 atom are dropped without an error; inside
    a hex atom or a hex or octal escape the input is refused, the error
    naming the character 0; in the base64 state without a decoder the code
    panics. *)
Theorem Close_by_state (p : Parser) :
  p_reissue p = 0 -> p_sublexing p = false ->
  match p_state p with
  | pstateDrifting | pstateQuotedString | pstateQuotedStringEscape
  | pstateQuotedStringEscapeCR | pstateQuotedStringEscapeLF =>
    exists q, Close p = Returned q [] None /\ p_tokens q = p_tokens p
  | pstateToken =>
    exists q, Close p = Returned q [] None
              /\ p_tokens q = p_tokens p ++ [VString (p_s p)]
  | pstateNegIntegerStart =>
    exists q, Close p = Returned q [] None /\ p_tokens q = p_tokens p ++ [VString [45]]
  | pstateInteger =>
    exists q, Close p = Returned q [] None
              /\ p_tokens q = p_tokens p ++ [integer_token (p_neg p) (p_i p)]
  | pstateLengthByteString =>
    exists q, Close p = Returned q [] None
              /\ p_tokens q = if p_xL p =? 0 then p_tokens p ++ [VBytes (p_b p)]
                              else p_tokens p
  | pstateLengthQuotedString =>
    exists q, Close p = Returned q [] None
              /\ p_tokens q = if p_xL p =? 0 then p_tokens p ++ [VString (p_s p)]
                              else p_tokens p
  | pstateBase64String =>
    match p_b64dec p with
    | None => Close p = Panicked
    | Some _ => exists q, Close p = Returned q [] None /\ p_tokens q = p_tokens p
    end
  | _ => Close p = Returned (set_eof true p) [] (Some (ErrInvalidToken 0))
  end.
Proof.
  intros Hr Hsub. apply Close_cases.
  - exact Hr.
  - exact Hsub.
Qed.

Lemma Close_by_state_witness :
  exists q,
    Close (set_s (bytes_of "ab") (set_state pstateQuotedString (NewParser SX)))
    = Returned q [] None
    /\ p_tokens q = [].
Proof.
  exact (@Close_by_state (set_s (bytes_of "ab") (set_state pstateQuotedString (NewParser SX)))
           eq_refl eq_refl).
Defined.

(* ------------------------------------------------------------------ *)
(** * Atoms read from the start of the input *)

Lemma write_step_one (p : Parser) (x : byte) (t : list byte) :
  p_reissue p = 0 -> x < 128 \/ p_bytemode p <> 0 ->
  write p (x :: t) =
  resume (write_loop (3 * S (length t))) (dispatch p x (Some x) t) x.
Proof.
  intros Hr [Hx|Hb].
  - apply write_step_ascii; assumption.
  - rewrite write_step by exact Hr.
    assert (E : read_rune p (x :: t) = (x, 1%nat)).
    { unfold read_rune. destruct (p_bytemode p =? 0) eqn:E0; [lia | reflexivity]. }
    rewrite E. reflexivity.
Qed.

(** One rune that the [switch] accepts without a reissue. *)
Lemma write_one (p q : Parser) (x : byte) (t : list byte) :
  p_reissue p = 0 -> x < 128 \/ p_bytemode p <> 0 ->
  dispatch p x (Some x) t = Continue q (Some x) t -> p_reissue q = 0 ->
  write p (x :: t) = write q t.
Proof.
  intros Hr Hx Hd Hq. rewrite write_step_one by assumption. rewrite Hd. cbn [resume].
  apply write_loop_enough; [exact Hq | lia].
Qed.

Lemma s_append_nil (p : Parser) : s_append [] p = p.
Proof. destruct p. unfold s_append, set_s. cbn. rewrite app_nil_r. reflexivity. Qed.

Lemma s_append_app (a b : list byte) (p : Parser) :
  s_append b (s_append a p) = s_append (a ++ b) p.
Proof. unfold s_append, set_s. cbn. rewrite app_assoc. reflexivity. Qed.

(** The interior of a quoted string without quote and backslash: every
    rune is appended to [p.s]. *)
Lemma quoted_run (s : list byte) : forall p k,
  p_state p = pstateQuotedString -> p_reissue p = 0 ->
  p_bytemode p <> 0 \/ Forall (fun x => x < 128) s ->
  ~ In 34 s -> ~ In 92 s ->
  write p (s ++ k) = write (s_append (flat_map string_of_rune s) p) k.
Proof.
  induction s as [|x s IH]; intros p k Hs Hr Hb H1 H2.
  - cbn [flat_map app]. rewrite s_append_nil. reflexivity.
  - cbn [app flat_map].
    assert (Hx : x < 128 \/ p_bytemode p <> 0).
    { destruct Hb as [Hb|Hb]; [right; exact Hb | left; inversion Hb; assumption]. }
    assert (N1 : x <> 34) by (intros ->; apply H1; left; reflexivity).
    assert (N2 : x <> 92) by (intros ->; apply H2; left; reflexivity).
    rewrite (@write_one p (s_append (string_of_rune x) p) x (s ++ k)); try assumption.
    + rewrite IH.
      * rewrite s_append_app. reflexivity.
      * exact Hs.
      * exact Hr.
      * destruct Hb as [Hb|Hb]; [left; exact Hb | right; inversion Hb; assumption].
      * intros H; apply H1; right; exact H.
      * intros H; apply H2; right; exact H.
    + unfold dispatch. rewrite Hs.
      replace (x =? 34) with false by (symmetry; lia).
      replace (x =? 92) with false by (symmetry; lia). reflexivity.
Qed.

Lemma NewParser_fresh (f : Format) :
  p_s (NewParser f) = [] /\ p_lenhint (NewParser f) = false
  /\ p_xL (NewParser f) = 0
  /\ p_bytemode (NewParser f) = (if unicodeStream f then 0 else 1).
Proof. unfold NewParser. destruct (unicodeStream f); simpl; auto. Qed.

Lemma write_nil (p : Parser) : p_reissue p = 0 -> write p [] = Returned p [] None.
Proof. intros Hr. unfold write, write_fuel. apply write_loop_end. exact Hr. Qed.

Lemma Parse_steps (f : Format) (b : list byte) (q : Parser) :
  write (NewParser f) b = write q [] -> drifting q -> p_sublexing q = false ->
  Parse f b = Ok (p_tokens q).
Proof.
  intros E (Hs & Hr & He) Hsub. unfold Parse, Parser_Write, Parser_Write_with.
  destruct (NewParser_drifting f) as (_ & _ & _ & _ & ->).
  rewrite E, write_nil by exact Hr.
  rewrite Close_drifting by assumption. reflexivity.
Qed.

Lemma string_of_rune_ascii (s : list byte) :
  Forall (fun x => 0 <= x < 128) s -> flat_map string_of_rune s = s.
Proof.
  induction 1 as [|x s Hx _ IH]; [reflexivity|].
  cbn [flat_map]. rewrite IH. unfold string_of_rune.
  replace ((x <? 0) || (1114111 <? x) || ((55296 <=? x) && (x <=? 57343))) with false
    by (symmetry; lia).
  replace (x <=? 127) with true by (symmetry; lia). reflexivity.
Qed.

(** X4: Quoted strings without escapes.  The bytes between the quotes come
    back as one string: in a Unicode stream ASCII bytes are kept as they
    are; in a byte stream every byte is taken for a rune and encoded, so a
    byte above 127 comes back as the two bytes of its UTF-8 encoding.  When
    the closing quote is missing the string is dropped and the parse still
    succeeds. *)
Theorem quoted_string_read (f : Format) (s : list byte) :
  allowQuotedString f = true ->
  unicodeStream f = false \/ Forall (fun x => x < 128) s ->
  ~ In 34 s -> ~ In 92 s ->
  Parse f (34 :: s ++ [34]) = Ok [VString (flat_map string_of_rune s)]
  /\ Parse f (34 :: s) = Ok []
  /\ (Forall (fun x => 0 <= x < 128) s -> Parse f (34 :: s ++ [34]) = Ok [VString s]).
Proof.
  intros Hq Hu H1 H2.
  destruct (NewParser_drifting f) as ((Hs & Hr & He) & Hf & _ & Ht & Hsub).
  destruct (NewParser_fresh f) as (Hps & _ & _ & Hbm).
  set (q1 := set_state pstateQuotedString (NewParser f)).
  assert (E1 : forall t, write (NewParser f) (34 :: t) = write q1 t).
  { intros t. apply write_one; [exact Hr | left; lia | | exact Hr].
    unfold dispatch. rewrite Hs, He, Hf, Hq. reflexivity. }
  assert (Hb : p_bytemode q1 <> 0 \/ Forall (fun x => x < 128) s).
  { destruct Hu as [Hu|Hu]; [left | right; exact Hu].
    unfold q1. psimpl. rewrite Hbm, Hu. lia. }
  set (q2 := s_append (flat_map string_of_rune s) q1).
  assert (E2 : forall k, write q1 (s ++ k) = write q2 k).
  { intros k. apply quoted_run; auto. }
  assert (C1 : Parse f (34 :: s ++ [34]) = Ok [VString (flat_map string_of_rune s)]).
  { set (q3 := set_s [] (push (VString (p_s q2)) (set_state pstateDrifting q2))).
    assert (E3 : write q2 [34] = write q3 []).
    { apply write_one; [exact Hr | left; lia | | exact Hr]. reflexivity. }
    rewrite (@Parse_steps f (34 :: s ++ [34]) q3).
    - unfold q3, q2, q1. psimpl. rewrite Ht, Hps. reflexivity.
    - rewrite E1, E2. exact E3.
    - unfold drifting, q3, q2, q1. psimpl. auto.
    - exact Hsub. }
  split; [exact C1|]. split.
  - unfold Parse, Parser_Write, Parser_Write_with. rewrite Hsub, E1.
    rewrite <- (app_nil_r s), E2, write_nil by exact Hr.
    destruct (@Close_cases q2 Hr Hsub) as (q & -> & Hq2).
    rewrite Hq2. unfold q2, q1. psimpl. rewrite Ht. reflexivity.
  - intros Ha. rewrite C1, string_of_rune_ascii by exact Ha. reflexivity.
Qed.

Lemma quoted_string_read_witness :
  Parse SX (34 :: bytes_of "a b(c" ++ [34]) = Ok [VString (flat_map string_of_rune (bytes_of "a b(c"))]
  /\ Parse SX (34 :: bytes_of "a b(c") = Ok []
  /\ (Forall (fun x => 0 <= x < 128) (bytes_of "a b(c") ->
      Parse SX (34 :: bytes_of "a b(c" ++ [34]) = Ok [VString (bytes_of "a b(c")]).
Proof.
  apply (@quoted_string_read SX (bytes_of "a b(c")).
  - reflexivity.
  - right. repeat constructor.
  - cbn. intuition discriminate.
  - cbn. intuition discriminate.
Defined.

(** One rune that is dispatched twice: the first pass asks for a reissue. *)
Lemma write_two (p p1 q : Parser) (x : byte) (t : list byte) :
  p_reissue p = 0 -> x < 128 \/ p_bytemode p <> 0 ->
  dispatch p x (Some x) t = Continue p1 (Some x) t -> p_reissue p1 = 1 ->
  dispatch (set_reissue 0 p1) x (Some x) t = Continue q (Some x) t ->
  p_reissue q = 0 ->
  write p (x :: t) = write q t.
Proof.
  intros Hr Hx Hd H1 Hd2 Hq. rewrite write_step_one by assumption. rewrite Hd. cbn [resume].
  replace (3 * S (length t))%nat with (S (3 * length t + 2))%nat by lia.
  rewrite write_loop_reissue by lia.
  replace (p_reissue p1 - 1) with 0 by lia. rewrite Hd2. cbn [resume].
  apply write_loop_enough; [exact Hq | lia].
Qed.

Lemma Parse_via (f : Format) (b : list byte) (q : Parser) :
  write (NewParser f) b = write q [] -> p_reissue q = 0 ->
  Parse f b = match Close q with
              | Returned q' _ None => Ok (p_tokens q')
              | Returned _ _ (Some e) => Err e
              | Panicked => Panics
              | OutOfFuel => NoFuel
              end.
Proof.
  intros E Hr. unfold Parse, Parser_Write, Parser_Write_with.
  destruct (NewParser_drifting f) as (_ & _ & _ & _ & ->).
  rewrite E, write_nil by exact Hr.
  destruct (Close q) as [q' rest [e|]| |]; reflexivity.
Qed.

Lemma set_i_same (p : Parser) : set_i (p_i p) p = p.
Proof. destruct p. reflexivity. Qed.

(** The digits of an integer literal. *)
Lemma digits_run (ds : list byte) : forall p k,
  p_state p = pstateInteger -> p_reissue p = 0 ->
  Forall (fun x => is_digit x = true) ds ->
  write p (ds ++ k) = write (set_i (accum (p_i p) ds) p) k.
Proof.
  induction ds as [|x ds IH]; intros p k Hs Hr Hd.
  - cbn. unfold accum. cbn. rewrite set_i_same. reflexivity.
  - inversion Hd as [|x' ds' Hx Hds]; subst. cbn [app].
    rewrite (@write_one p (set_i (to_uint64 (p_i p * 10 + (x - 48))) p) x (ds ++ k)).
    + rewrite IH by assumption. reflexivity.
    + exact Hr.
    + left. unfold is_digit in Hx. lia.
    + unfold dispatch. rewrite Hs, Hx. reflexivity.
    + exact Hr.
Qed.

Lemma accum_range (ds : list byte) : forall a,
  0 <= a < 2 ^ 64 -> 0 <= accum a ds < 2 ^ 64.
Proof.
  induction ds as [|d ds IH]; intros a Ha; [exact Ha|].
  unfold accum. cbn [fold_left]. apply IH. apply to_uint64_range.
Qed.

Lemma accum_congr (ds : list byte) : forall a b,
  to_uint64 a = to_uint64 b ->
  to_uint64 (accum a ds) = to_uint64 (fold_left (fun a d => a * 10 + (d - 48)) ds b).
Proof.
  induction ds as [|d ds IH]; intros a b H; [exact H|].
  unfold accum. cbn [fold_left]. apply IH.
  unfold to_uint64 in *. rewrite Z.mod_mod by lia.
  rewrite (Z.add_mod (a * 10)), (Z.add_mod (b * 10)) by lia.
  rewrite (Z.mul_mod a), (Z.mul_mod b) by lia. rewrite H. reflexivity.
Qed.

Lemma accum_decimal (ds : list byte) : accum 0 ds = decimal ds mod 2 ^ 64.
Proof.
  pose proof (@accum_congr ds 0 0 eq_refl) as H.
  pose proof (@accum_range ds 0 ltac:(lia)) as R.
  unfold to_uint64 in H. rewrite Z.mod_small in H by exact R. exact H.
Qed.

Lemma integer_literal_parse (f : Format) (d : byte) (ds : list byte) :
  allowIntegers f = true -> Forall (fun x => is_digit x = true) (d :: ds) ->
  Parse f (d :: ds) = Ok [integer_token false (decimal (d :: ds) mod 2 ^ 64)]
  /\ Parse f (45 :: d :: ds) = Ok [integer_token true (decimal (d :: ds) mod 2 ^ 64)].
Proof.
  intros Hi Hd. inversion Hd as [|d' ds' Hx Hds]; subst.
  assert (Hacc : accum (to_uint64 (0 * 10 + (d - 48))) ds = decimal (d :: ds) mod 2 ^ 64).
  { rewrite <- accum_decimal. reflexivity. }
  assert (Hd48 : 48 <= d <= 57) by (unfold is_digit in Hx; lia).
  assert (Hsp : is_space d = false) by (unfold is_space; lia).
  unfold Parse, Parser_Write, Parser_Write_with.
  destruct (NewParser_drifting f) as ((Hs & Hr & He) & Hf & _ & Ht & Hsub).
  destruct (NewParser_cfg f) as (_ & _ & _ & _ & _ & _ & _ & _ & _ & Hpi & Hneg & _).
  rewrite Hsub. rewrite <- Hf in Hi.
  remember (NewParser f) as p0 eqn:E0. clear E0.
  (* without a sign *)
  set (q1 := set_i (to_uint64 (p_i p0 * 10 + (d - 48)))
               (set_reissue 0 (reissue_inc (set_state pstateInteger p0)))).
  assert (E1 : forall t, write p0 (d :: t) = write q1 t).
  { intros t.
    apply (@write_two p0 (reissue_inc (set_state pstateInteger p0)) q1 d t);
      [exact Hr | left; lia | | psimpl; rewrite Hr; reflexivity | | reflexivity].
    - unfold dispatch. rewrite Hs, He, Hsp, Hx, Hi. reflexivity.
    - unfold dispatch. psimpl. rewrite Hx. reflexivity. }
  (* with a sign *)
  set (n0 := set_state pstateNegIntegerStart p0).
  set (q2 := set_i (to_uint64 (p_i p0 * 10 + (d - 48)))
               (set_reissue 0 (reissue_inc (set_neg true (set_state pstateInteger n0))))).
  assert (E2 : forall t, write p0 (45 :: d :: t) = write q2 t).
  { intros t.
    rewrite (@write_one p0 n0 45 (d :: t));
      [| exact Hr | left; lia | | exact Hr].
    - apply (@write_two n0 (reissue_inc (set_neg true (set_state pstateInteger n0))) q2 d t);
        [exact Hr | left; lia | | unfold n0; psimpl; rewrite Hr; reflexivity
         | | reflexivity].
      + unfold dispatch, n0. psimpl. rewrite Hx. reflexivity.
      + unfold dispatch, n0. psimpl. rewrite Hx. reflexivity.
    - unfold dispatch. rewrite Hs, He, Hi. reflexivity. }
  assert (D : forall q, p_state q = pstateInteger -> p_reissue q = 0 ->
            write q ds = Returned (set_i (accum (p_i q) ds) q) [] None).
  { intros q Hq1 Hq2. rewrite <- (app_nil_r ds) at 1.
    rewrite digits_run by assumption. apply write_nil. exact Hq2. }
  split.
  - rewrite E1, D by (reflexivity || exact Hr).
    destruct (@Close_cases (set_i (accum (p_i q1) ds) q1) eq_refl Hsub) as (q & -> & Hq).
    rewrite Hq. unfold q1. psimpl. rewrite Ht, Hneg, Hpi, Hacc. reflexivity.
  - rewrite E2, D by (reflexivity || exact Hr).
    destruct (@Close_cases (set_i (accum (p_i q2) ds) q2) eq_refl Hsub) as (q & -> & Hq).
    rewrite Hq. unfold q2, n0. psimpl. rewrite Ht, Hpi, Hacc. reflexivity.
Qed.

(** X7: Integer literals.  A string of decimal digits of any length is
    accepted, with or without a minus sign: the magnitude is taken modulo
    2^64 (there is no overflow error) and then given the type that
    [integer_token] chooses. *)
Theorem integer_literal (f : Format) (d : byte) (ds : list byte) :
  allowIntegers f = true -> Forall (fun x => is_digit x = true) (d :: ds) ->
  Parse f (d :: ds) = Ok [integer_token false (decimal (d :: ds) mod 2 ^ 64)]
  /\ Parse f (45 :: d :: ds) = Ok [integer_token true (decimal (d :: ds) mod 2 ^ 64)].
Proof.
  intros Hi Hd. apply integer_literal_parse.
  - exact Hi.
  - exact Hd.
Qed.

Lemma integer_literal_witness :
  Parse SX (bytes_of "18446744073709551621")
  = Ok [integer_token false (decimal (bytes_of "18446744073709551621") mod 2 ^ 64)]
  /\ Parse SX (45 :: bytes_of "18446744073709551621")
     = Ok [integer_token true (decimal (bytes_of "18446744073709551621") mod 2 ^ 64)].
Proof.
  apply (@integer_literal SX 49 (bytes_of "8446744073709551621")).
  - reflexivity.
  - repeat constructor.
Defined.

Lemma token_char_ascii (x : rune) :
  isTokenChar x = true -> 0 <= x < 128 /\ is_space x = false.
Proof. unfold isTokenChar, isTokenStartChar, is_space. lia. Qed.

(** The characters of a token after the first one. *)
Lemma token_run (cs : list byte) : forall p k,
  p_state p = pstateToken -> p_reissue p = 0 ->
  forallb isTokenChar cs = true ->
  write p (cs ++ k) = write (s_append cs p) k.
Proof.
  induction cs as [|x cs IH]; intros p k Hs Hr Hc.
  - cbn [app]. rewrite s_append_nil. reflexivity.
  - cbn [forallb] in Hc. apply andb_prop in Hc as [Hx Hc].
    destruct (token_char_ascii x Hx) as [Hx1 _].
    cbn [app].
    rewrite (@write_one p (s_append [x] p) x (cs ++ k)).
    + rewrite IH by assumption. rewrite s_append_app. reflexivity.
    + exact Hr.
    + left. lia.
    + unfold dispatch. rewrite Hs, Hx. cbn [negb].
      unfold string_of_rune.
      replace ((x <? 0) || (1114111 <? x) || ((55296 <=? x) && (x <=? 57343))) with false
        by (symmetry; lia).
      replace (x <=? 127) with true by (symmetry; lia). reflexivity.
    + exact Hr.
Qed.

(** The first character of a token, met between two atoms. *)
Lemma token_start (p : Parser) (c : byte) (t : list byte) :
  drifting p -> allowTokens (p_f p) = true ->
  isTokenStartChar c = true -> c <> 45 ->
  write p (c :: t) =
  write (s_append [c] (set_reissue 0 (reissue_inc (set_state pstateToken p)))) t.
Proof.
  intros (Hs & Hr & He) Ha Hc Hm.
  assert (Hx : isTokenChar c = true) by (unfold isTokenChar; rewrite Hc; reflexivity).
  destruct (token_char_ascii c Hx) as [Hx1 Hx2].
  apply (@write_two p (reissue_inc (set_state pstateToken p)) _ c t);
    [exact Hr | left; lia | | psimpl; rewrite Hr; reflexivity | | exact eq_refl].
  - unfold dispatch. rewrite Hs, He, Hx2, Ha, Hc.
    replace (is_digit c) with false by (unfold is_digit, isTokenStartChar in *; lia).
    replace (c =? 45) with false by (symmetry; lia).
    replace (c =? 40) with false by (unfold isTokenStartChar in *; lia).
    replace (c =? 41) with false by (unfold isTokenStartChar in *; lia).
    replace (c =? 34) with false by (unfold isTokenStartChar in *; lia).
    replace (c =? 124) with false by (unfold isTokenStartChar in *; lia).
    replace (c =? 123) with false by (unfold isTokenStartChar in *; lia).
    reflexivity.
  - unfold dispatch. psimpl. rewrite Hx. cbn [negb].
    unfold string_of_rune.
    replace ((c <? 0) || (1114111 <? c) || ((55296 <=? c) && (c <=? 57343))) with false
      by (symmetry; lia).
    replace (c <=? 127) with true by (symmetry; lia). reflexivity.
Qed.

(** A token and the space after it, read between two atoms: the token is
    pushed as a string and the parser is between two atoms again. *)
Lemma token_then_space (p : Parser) (w k : list byte) :
  drifting p -> p_s p = [] -> allowTokens (p_f p) = true -> is_token w = true ->
  write p (w ++ 32 :: k) = write (push (VString w) p) k.
Proof.
  intros Hd Hps Ha Hw. destruct w as [|c cs]; [discriminate|].
  cbn [is_token] in Hw. apply andb_prop in Hw as [Hw Hcs]. apply andb_prop in Hw as [Hc Hm].
  assert (Hm' : c <> 45) by lia.
  cbn [app]. rewrite token_start by assumption.
  set (q1 := s_append [c] (set_reissue 0 (reissue_inc (set_state pstateToken p)))).
  rewrite token_run by (reflexivity || exact Hcs).
  set (q2 := s_append cs q1).
  set (p1 := set_s [] (push (VString (p_s q2)) (set_state pstateDrifting (reissue_inc q2)))).
  rewrite (@write_two q2 p1 (set_reissue 0 p1) 32 k);
    [ | reflexivity | left; lia | reflexivity | reflexivity | | reflexivity].
  - f_equal. destruct Hd as (Hs & Hr & He).
    unfold p1, q2, q1. destruct p. cbn in *. subst. reflexivity.
  - unfold dispatch, p1, q2, q1. psimpl. destruct Hd as (_ & _ & ->). reflexivity.
Qed.

Lemma words_run (ws : list (list byte)) : forall p,
  drifting p -> p_s p = [] -> p_sublexing p = false ->
  allowTokens (p_f p) = true -> forallb is_token ws = true ->
  exists q q',
    write p (unwords ws) = Returned q [] None
    /\ Close q = Returned q' [] None
    /\ p_tokens q' = p_tokens p ++ map VString ws.
Proof.
  induction ws as [|w ws IH]; intros p Hd Hps Hsub Ha Hw.
  - exists p, (set_eof true p). destruct Hd as (Hs & Hr & He).
    cbn [unwords map]. rewrite write_nil by exact Hr.
    rewrite Close_drifting by assumption. rewrite app_nil_r. auto.
  - cbn [forallb] in Hw. apply andb_prop in Hw as [Hw Hws].
    destruct ws as [|w2 ws].
    + destruct w as [|c cs]; [discriminate|].
      pose proof Hw as Hw0.
      cbn [is_token] in Hw. apply andb_prop in Hw as [Hw Hcs].
      apply andb_prop in Hw as [Hc Hm].
      cbn [unwords]. rewrite token_start by (assumption || lia).
      set (q1 := s_append [c] (set_reissue 0 (reissue_inc (set_state pstateToken p)))).
      replace (write q1 cs) with (write q1 (cs ++ []))
        by (rewrite app_nil_r; reflexivity).
      rewrite token_run by (reflexivity || exact Hcs).
      rewrite write_nil by reflexivity.
      destruct (@Close_cases (s_append cs q1) eq_refl Hsub) as (q' & E & Hq').
      exists (s_append cs q1), q'. split; [reflexivity|]. split; [exact E|].
      rewrite Hq'. unfold q1. psimpl. rewrite Hps. reflexivity.
    + change (unwords (w :: w2 :: ws)) with (w ++ 32 :: unwords (w2 :: ws)).
      rewrite token_then_space by assumption.
      destruct (IH (push (VString w) p)) as (q & q' & E1 & E2 & E3); try assumption.
      exists q, q'. split; [exact E1|]. split; [exact E2|].
      rewrite E3. psimpl. rewrite <- app_assoc. reflexivity.
Qed.

Lemma words_parse (f : Format) (ws : list (list byte)) :
  allowTokens f = true -> forallb is_token ws = true ->
  Parse f (unwords ws) = Ok (map VString ws).
Proof.
  intros Ha Hw.
  destruct (NewParser_drifting f) as (Hd & Hf & _ & Ht & Hsub).
  destruct (NewParser_fresh f) as (Hps & _).
  destruct (@words_run ws (NewParser f) Hd Hps Hsub) as (q & q' & E1 & E2 & E3);
    [rewrite Hf; exact Ha | exact Hw |].
  unfold Parse, Parser_Write, Parser_Write_with. rewrite Hsub, E1, E2, E3, Ht.
  reflexivity.
Qed.

(** X8: Bare tokens.  A sequence of tokens separated by single spaces is
    parsed into the strings that spell them, in order. *)
Theorem tokens_read (f : Format) (ws : list (list byte)) :
  allowTokens f = true -> forallb is_token ws = true ->
  Parse f (unwords ws) = Ok (map VString ws).
Proof.
  intros Ha Hw. apply words_parse.
  - exact Ha.
  - exact Hw.
Qed.

Lemma tokens_read_witness :
  Parse Csexp (unwords [bytes_of "beta"; bytes_of "y2"; bytes_of "a.b/c"])
  = Ok (map VString [bytes_of "beta"; bytes_of "y2"; bytes_of "a.b/c"]).
Proof.
  apply (@tokens_read Csexp [bytes_of "beta"; bytes_of "y2"; bytes_of "a.b/c"]);
    reflexivity.
Defined.

(* ------------------------------------------------------------------ *)
(** * The query helpers *)

Lemma Hhy_shape (v : Value) (s : list byte) :
  Hhy v s = true -> exists tl, v = VList (VString s :: tl).
Proof.
  destruct v as [| | | | |l|]; try discriminate.
  destruct l as [|h tl]; try discriminate.
  destruct h; try discriminate. cbn [Hhy]. intros H.
  apply bytes_eqb_eq in H. subst. exists tl. reflexivity.
Qed.

(** X25: [Q1bhy] returns the first element of [xs] that is a list headed by
    the string [s], and nil when there is none; [Q1bhyt] returns what
    follows the head in that list. *)
Theorem Q1bhy_first_match (xs : list Value) (s : list byte) :
  (forall l, Q1bhy xs s = Some l <->
     exists pre tl post,
       l = VString s :: tl /\ xs = pre ++ VList l :: post
       /\ Forall (fun x => Hhy x s = false) pre)
  /\ (Q1bhy xs s = None <-> Forall (fun x => Hhy x s = false) xs)
  /\ (forall t, Q1bhyt xs s = Some t <-> Q1bhy xs s = Some (VString s :: t))
  /\ (Q1bhyt xs s = None <-> Q1bhy xs s = None).
Proof.
  assert (A : forall l, Q1bhy xs s = Some l <->
     exists pre tl post,
       l = VString s :: tl /\ xs = pre ++ VList l :: post
       /\ Forall (fun x => Hhy x s = false) pre).
  { induction xs as [|x xs IH]; intros l.
    - split; [discriminate|]. intros (pre & tl & post & _ & E & _).
      destruct pre; discriminate.
    - cbn [Q1bhy]. destruct (Hhy x s) eqn:Hx.
      + destruct (Hhy_shape x s Hx) as (tl & ->). split.
        * intros E. injection E as <-. exists [], tl, xs. auto.
        * intros (pre & tl' & post & -> & E & Hpre).
          destruct pre as [|y pre].
          -- cbn in E. injection E as E _. rewrite E. reflexivity.
          -- cbn in E. injection E as <- _. inversion Hpre; congruence.
      + rewrite IH. split.
        * intros (pre & tl & post & -> & -> & Hpre).
          exists (x :: pre), tl, post. split; [reflexivity|]. split; [reflexivity|].
          constructor; assumption.
        * intros (pre & tl & post & -> & E & Hpre).
          destruct pre as [|y pre].
          -- cbn in E. injection E as -> _. cbn [Hhy] in Hx.
             unfold bytes_eqb in Hx. destruct (list_eq_dec Z.eq_dec s s); congruence.
          -- cbn in E. injection E as <- ->. inversion Hpre; subst.
             exists pre, tl, post. auto. }
  assert (B : Q1bhy xs s = None <-> Forall (fun x => Hhy x s = false) xs).
  { clear A. induction xs as [|x xs IH].
    - split; [constructor | reflexivity].
    - cbn [Q1bhy]. destruct (Hhy x s) eqn:Hx.
      + destruct (Hhy_shape x s Hx) as (tl & ->). split; [discriminate|].
        intros H. inversion H; congruence.
      + rewrite IH. split; [intros H; constructor; assumption|].
        intros H. inversion H; assumption. }
  split; [exact A|]. split; [exact B|]. split.
  - intros t. unfold Q1bhyt. destruct (Q1bhy xs s) as [l|] eqn:E.
    + destruct (proj1 (A l) eq_refl) as (pre & tl & post & -> & _).
      split; intros H; injection H as ->; reflexivity.
    + split; discriminate.
  - unfold Q1bhyt. destruct (Q1bhy xs s) as [[|h l]|]; split; try discriminate; reflexivity.
Qed.

(** X26: [Q1bsyt] on a selector made of tokens: the empty selector returns
    [xs] itself, and every word of the selector is one call of [Q1bhyt] on
    what the words before it selected; such a selector never panics at a
    word, and the query returns nil as soon as a word has no match. *)
Theorem Q1bsyt_words (xs : list Value) (w : list byte) (ws : list (list byte)) :
  forallb is_token (w :: ws) = true ->
  Q1bsyt xs [] = QFound (Some xs)
  /\ Q1bsyt xs (unwords (w :: ws)) =
     match Q1bhyt xs w with
     | None => QFound None
     | Some t => Q1bsyt t (unwords ws)
     end.
Proof.
  intros Hw. split; [reflexivity|].
  assert (Hws : forallb is_token ws = true)
    by (cbn [forallb] in Hw; apply andb_prop in Hw; apply Hw).
  unfold Q1bsyt.
  rewrite (@words_parse SX (w :: ws) eq_refl Hw).
  rewrite (@words_parse SX ws eq_refl Hws).
  cbn [map Q1bsyt_loop]. destruct (Q1bhyt xs w); reflexivity.
Qed.

Lemma Q1bsyt_words_witness :
  Q1bsyt [VList [VString (bytes_of "b"); VList [VString (bytes_of "y"); VInt 7]]] []
  = QFound (Some [VList [VString (bytes_of "b"); VList [VString (bytes_of "y"); VInt 7]]])
  /\ Q1bsyt [VList [VString (bytes_of "b"); VList [VString (bytes_of "y"); VInt 7]]]
       (unwords [bytes_of "b"; bytes_of "y"])
     = match Q1bhyt [VList [VString (bytes_of "b"); VList [VString (bytes_of "y"); VInt 7]]]
               (bytes_of "b") with
       | None => QFound None
       | Some t => Q1bsyt t (unwords [bytes_of "y"])
       end.
Proof.
  apply (@Q1bsyt_words _ (bytes_of "b") [bytes_of "y"]). reflexivity.
Defined.

(* ------------------------------------------------------------------ *)
(** * The serializer on arbitrary trees *)

(** The spacer after one element. *)
Lemma writeValue_pt (v : Value) (sp : rune) (b : list byte) (pt : rune) (b' : list byte) :
  writeValue v sp b = (pt, b', None) -> pt = if is_int v then 105 else sp.
Proof.
  destruct v as [s|s|n|n|n|l|]; cbn [writeValue is_int spacer_write];
    try (intros H; injection H as <- _; reflexivity).
  - destruct (write_elems writeValue l 0 (b ++ [40])) as [b1 [e|]];
      intros H; [discriminate | injection H as <- _; reflexivity].
Qed.

(** The elements of a list are written in order, the loop stops at the
    first error, and after the elements [xs] the spacer holds ['i'] exactly
    when one of them was an integer. *)
Lemma write_elems_app (xs : list Value) : forall ys sp b,
  write_elems writeValue (xs ++ ys) sp b =
  match write_elems writeValue xs sp b with
  | (b1, None) => write_elems writeValue ys (spacer_after sp xs) b1
  | r => r
  end.
Proof.
  induction xs as [|x xs IH]; intros ys sp b; [reflexivity|].
  cbn [app write_elems]. destruct (writeValue x sp b) as [[pt b'] [e|]] eqn:E.
  - reflexivity.
  - rewrite IH. apply writeValue_pt in E. subst pt.
    unfold spacer_after. cbn [existsb].
    destruct (is_int x); cbn [orb]; [|reflexivity].
    destruct (existsb is_int xs); reflexivity.
Qed.

(** X23: [writeList] on a list put together from two.  The second part is
    written after the first with the spacer as the first part left it, so an
    integer is preceded by a space exactly when an integer occurs before it
    in the same list, whatever lies between them; an error in the first part
    ends the call. *)
Theorem writeList_app (xs ys : list Value) (b : list byte) :
  writeList (xs ++ ys) b =
    match writeList xs b with
    | (b1, None) => write_elems writeValue ys (spacer_after 0 xs) b1
    | r => r
    end
  /\ (forall b1 n, writeList xs b = (b1, None) ->
       writeList (xs ++ [VInt n]) b =
       (b1 ++ (if existsb is_int xs then [32] else []) ++ FormatInt n, None)).
Proof.
  split; [apply write_elems_app|].
  intros b1 n E. unfold writeList in *. rewrite write_elems_app, E.
  unfold spacer_after. cbn [write_elems writeValue spacer_write].
  destruct (existsb is_int xs); cbn [Z.eqb Pos.eqb]; [|rewrite app_nil_l];
    rewrite <- ?app_assoc; reflexivity.
Qed.

Lemma writeList_app_witness :
  writeList ([VInt 5; VString (bytes_of "a")] ++ [VInt 6]) []
  = (bytes_of "51:a" ++ (if existsb is_int [VInt 5; VString (bytes_of "a")] then [32] else [])
       ++ FormatInt 6, None).
Proof.
  apply (proj2 (@writeList_app [VInt 5; VString (bytes_of "a")] [VInt 6] [])).
  reflexivity.
Defined.

Lemma write_elems_error (l : list Value) :
  Forall (fun v => forall sp b,
            snd (writeValue v sp b) =
            if supported v then None else Some ErrUnsupportedType) l ->
  forall sp b,
    snd (write_elems writeValue l sp b) =
    if forallb supported l then None else Some ErrUnsupportedType.
Proof.
  induction 1 as [|x l Hx _ IH]; intros sp b; [reflexivity|].
  cbn [write_elems forallb]. specialize (Hx sp b).
  destruct (writeValue x sp b) as [[pt b'] e]. cbn [snd] in Hx. subst e.
  destruct (supported x); cbn [andb]; [apply IH | reflexivity].
Qed.

Lemma writeValue_error (v : Value) : forall sp b,
  snd (writeValue v sp b) = if supported v then None else Some ErrUnsupportedType.
Proof.
  induction v as [s|s|n|n|n|l IH|] using Value_ind_nested; intros sp b;
    try reflexivity.
  cbn [writeValue supported].
  pose proof (write_elems_error IH 0 (b ++ [40])) as H.
  destruct (write_elems writeValue l 0 (b ++ [40])) as [b1 [e|]]; cbn [snd] in *; exact H.
Qed.

Lemma Format_String_cases (vs : list Value) :
  Format_String vs =
  if forallb supported vs then (serialize vs, None)
  else ([], Some ErrUnsupportedType).
Proof.
  pose proof (@write_elems_error vs) as H.
  assert (HF : Forall (fun v => forall sp b,
            snd (writeValue v sp b) =
            if supported v then None else Some ErrUnsupportedType) vs).
  { apply Forall_forall. intros v _. apply writeValue_error. }
  specialize (H HF 0 []).
  unfold serialize, Format_String, writeList in *.
  destruct (write_elems writeValue vs 0 []) as [out [e|]]; cbn [snd fst] in *;
    destruct (forallb supported vs); try discriminate; try reflexivity.
  injection H as ->. reflexivity.
Qed.

(** X21: [Format.String] fails exactly when the tree holds, at some depth, a
    value of a type other than the six supported ones; the error is then
    [ErrUnsupportedType] and the string returned is empty, whatever was
    written before the offending element. *)
Theorem String_supported (vs : list Value) :
  Format_String vs =
  if forallb supported vs then (serialize vs, None)
  else ([], Some ErrUnsupportedType).
Proof.
  rewrite Format_String_cases. destruct (forallb supported vs); reflexivity.
Qed.

Lemma write_elems_reread (l : list Value) :
  Forall (fun v => forall d sp b, fits d v ->
            writeValue (reread v) sp b = writeValue v sp b) l ->
  forall d sp b, Forall (fits d) l ->
    write_elems writeValue (map reread l) sp b = write_elems writeValue l sp b.
Proof.
  induction 1 as [|x l Hx _ IH]; intros d sp b Hf; [reflexivity|].
  inversion Hf; subst. cbn [map write_elems]. rewrite (Hx d) by assumption.
  destruct (writeValue x sp b) as [[pt b'] [e|]]; [reflexivity|].
  apply (IH d). assumption.
Qed.

Lemma writeValue_reread (v : Value) : forall d sp b,
  fits d v -> writeValue (reread v) sp b = writeValue v sp b.
Proof.
  induction v as [s|s|n|n|n|l IH|] using Value_ind_nested; intros d sp b Hf;
    try reflexivity.
  - cbn [reread]. unfold renarrow.
    destruct ((- 2 ^ 31 <=? n) && (n <=? 2 ^ 31 - 1)); [reflexivity|].
    destruct (n <? 0) eqn:Hn; [reflexivity|].
    cbn [writeValue]. unfold FormatInt. rewrite Hn. reflexivity.
  - cbn [reread]. unfold renarrow.
    destruct ((- 2 ^ 31 <=? n) && (n <=? 2 ^ 31 - 1)); [reflexivity|].
    destruct (n <? 0) eqn:Hn; [reflexivity|].
    cbn [writeValue]. unfold FormatInt. rewrite Hn. reflexivity.
  - cbn [reread]. unfold renarrow. cbn [fits] in Hf.
    assert (Hn : (n <? 0) = false) by lia.
    destruct ((- 2 ^ 31 <=? n) && (n <=? 2 ^ 31 - 1)).
    + cbn [writeValue]. unfold FormatInt. rewrite Hn. reflexivity.
    + rewrite Hn. reflexivity.
  - apply fits_list in Hf as [_ Hf]. cbn [reread writeValue].
    rewrite (write_elems_reread IH (d - 1)) by exact Hf. reflexivity.
Qed.

(** X22: The rendering does not tell a string from a byte slice, nor the
    integer types from each other: a tree whose integers are in the range of
    their types and the tree it is read back as ([reread]) are rendered
    alike. *)
Theorem String_reread (d : Z) (t : list Value) :
  Forall (fits d) t -> Format_String (map reread t) = Format_String t.
Proof.
  intros Hf. unfold Format_String, writeList.
  rewrite (@write_elems_reread t) with (d := d); [reflexivity | | exact Hf].
  apply Forall_forall. intros v _ d' sp b. apply writeValue_reread.
Qed.

Lemma String_reread_witness :
  Format_String (map reread [VString (bytes_of "ab"); VUint64 7; VList [VInt64 (-3)]])
  = Format_String [VString (bytes_of "ab"); VUint64 7; VList [VInt64 (-3)]].
Proof.
  apply (@String_reread 1). repeat constructor; cbn; lia.
Defined.

(* ------------------------------------------------------------------ *)
(** * Rendering a tree and reading it back *)

Lemma reread_parse (f : Format) (t : list Value) :
  allowIntegers f = true -> allowLists f = true ->
  allowVerbatimBinaryString f = true ->
  Forall (fits (maxListDepth f)) t -> Forall octets t ->
  separable (VList t) = true ->
  Format_String t = (serialize t, None)
  /\ Parse f (serialize t) = Ok (map reread t).
Proof.
  intros Hint Hlist Hverb Hfit Hoct Hsep.
  assert (Hbm : 0 <= (if unicodeStream f then 0 else 1) < 255)
    by (destruct (unicodeStream f); lia).
  destruct (@reread_from f _ Hint Hlist Hverb Hbm t (NewParser f) (NewParser_cfg f)
              Hfit Hoct Hsep) as (out & q & q' & W & E1 & E2 & T).
  assert (ES : Format_String t = (out, None)) by (unfold Format_String; rewrite W; reflexivity).
  assert (Eser : serialize t = out) by (unfold serialize; rewrite ES; reflexivity).
  rewrite Eser. split; [exact ES|].
  unfold Parse, Parser_Write, Parser_Write_with.
  destruct (NewParser_drifting f) as (_ & _ & _ & _ & ->).
  rewrite E1, E2, T. reflexivity.
Qed.

(** X19: A tree built by a caller can be rendered and read back like one that
    came from the parser: if its integers are in the range of their types,
    its lists nest no deeper than the format allows, and no string directly
    follows an integer in a list, the rendering is accepted and gives the
    tree back, strings as byte slices and integers in the type the parser
    chooses. *)
Theorem render_then_parse (f : Format) (t : list Value) :
  allowIntegers f = true -> allowLists f = true ->
  allowVerbatimBinaryString f = true ->
  Forall (fits (maxListDepth f)) t -> Forall octets t ->
  separable (VList t) = true ->
  Format_String t = (serialize t, None)
  /\ Parse f (serialize t) = Ok (map reread t).
Proof.
  intros Hint Hlist Hverb Hfit Hoct Hsep.
  apply reread_parse; assumption.
Qed.

Lemma render_then_parse_witness :
  Format_String [VString (bytes_of "k"); VList [VInt64 5; VUint64 9; VList []]]
  = (serialize [VString (bytes_of "k"); VList [VInt64 5; VUint64 9; VList []]], None)
  /\ Parse Csexp (serialize [VString (bytes_of "k"); VList [VInt64 5; VUint64 9; VList []]])
     = Ok (map reread [VString (bytes_of "k"); VList [VInt64 5; VUint64 9; VList []]]).
Proof.
  apply (@render_then_parse Csexp); try reflexivity.
  - repeat constructor; cbn; lia.
  - repeat constructor; cbn; lia.
Defined.

(** X20: The canonical rendering is unambiguous: two trees (integers in
    range, no string directly after an integer) with the same rendering are
    the same tree up to the type that holds a string and the type that holds
    an integer. *)
Theorem rendering_injective (d : Z) (t1 t2 : list Value) :
  Forall (fits d) t1 -> Forall (fits d) t2 ->
  Forall octets t1 -> Forall octets t2 ->
  separable (VList t1) = true -> separable (VList t2) = true ->
  serialize t1 = serialize t2 -> map reread t1 = map reread t2.
Proof.
  intros F1 F2 O1 O2 S1 S2 E.
  set (f := {| allowQuotedString := true; allowIntegers := true; allowLists := true;
               allowVerbatimBinaryString := true; allowBase64BinaryString := true;
               allowVerbatimBase64BinaryString := true; allowHexBinaryString := true;
               allowTokens := true; maxListDepth := d; unicodeStream := true |}).
  destruct (@reread_parse f t1 eq_refl eq_refl eq_refl F1 O1 S1) as [_ P1].
  destruct (@reread_parse f t2 eq_refl eq_refl eq_refl F2 O2 S2) as [_ P2].
  rewrite E, P2 in P1. injection P1 as ->. reflexivity.
Qed.

Lemma rendering_injective_witness :
  map reread [VString (bytes_of "ab"); VInt64 7] = map reread [VBytes (bytes_of "ab"); VInt 7].
Proof.
  apply (@rendering_injective 0); try reflexivity; repeat constructor; cbn; lia.
Defined.

Lemma fits_supported (v : Value) : forall d, fits d v -> supported v = true.
Proof.
  induction v as [s|s|n|n|n|l IH|] using Value_ind_nested; intros d Hf;
    try reflexivity; [|destruct Hf].
  apply fits_list in Hf as [_ Hf]. cbn [supported].
  apply forallb_forall. intros x Hx.
  rewrite Forall_forall in IH, Hf. apply (IH x Hx (d - 1)). apply Hf. exact Hx.
Qed.

(** X18: What [Parse] returns is well formed: every integer lies in the range
    of the Go type that holds it, lists nest at most [maxListDepth] deep,
    and only the six types of the data model occur, so that [Format.String]
    never fails on it. *)
Theorem Parse_values_fit (f : Format) (b : list byte) (t : list Value) :
  0 <= maxListDepth f -> Parse f b = Ok t ->
  Forall (fits (maxListDepth f)) t
  /\ Format_String t = (serialize t, None).
Proof.
  intros Hm Hp. pose proof (Parse_fits f b Hm Hp) as Hf.
  split; [exact Hf|].
  rewrite Format_String_cases.
  replace (forallb supported t) with true; [reflexivity|].
  symmetry. apply forallb_forall. intros x Hx.
  rewrite Forall_forall in Hf. apply (@fits_supported x (maxListDepth f)). apply Hf. exact Hx.
Qed.

Lemma Parse_values_fit_witness :
  Forall (fits (maxListDepth SX)) [VList [VInt 5; VString (bytes_of "a")]]
  /\ Format_String [VList [VInt 5; VString (bytes_of "a")]]
     = (serialize [VList [VInt 5; VString (bytes_of "a")]], None).
Proof.
  apply (@Parse_values_fit SX (bytes_of "(5 a)")).
  - cbn. lia.
  - vm_compute. reflexivity.
Defined.

(* ------------------------------------------------------------------ *)
(** * Closing a list that is not open *)

(** X14: A closing parenthesis met between two atoms while no list is open
    fails with [ErrListEnd]; no other transition gives that error; and so
    an input fails with it as soon as its prefix leaves the parser between
    two atoms at depth 0 and a closing parenthesis follows. *)
Theorem list_end_error :
  (forall p prev rest,
      drifting p -> allowLists (p_f p) = true -> p_depth p = 0 ->
      dispatch p 41 prev rest = Return_ p rest (Some ErrListEnd))
  /\ (forall p r prev rest q rest',
      dispatch p r prev rest = Return_ q rest' (Some ErrListEnd) ->
      p_state p = pstateDrifting /\ r = 41 /\ p_depth p = 0)
  /\ (forall f a p k,
      after_prefix f a p -> drifting p -> allowLists (p_f p) = true ->
      p_depth p = 0 ->
      Parse f (a ++ 41 :: k) = Err ErrListEnd).
Proof.
  assert (A : forall p prev rest,
      drifting p -> allowLists (p_f p) = true -> p_depth p = 0 ->
      dispatch p 41 prev rest = Return_ p rest (Some ErrListEnd)).
  { intros p prev rest (Hs & Hr & He) Hl Hd.
    unfold dispatch. rewrite Hs, He, Hl, Hd. reflexivity. }
  split; [exact A|]. split.
  - intros p r prev rest q rest' H.
    unfold dispatch, octal_digit in H.
    destruct (p_state p) eqn:Hs; repeat case_if; try discriminate.
    repeat split; lia.
  - intros f a p k [Hr Ha] Hd Hl H0.
    unfold Parse, Parser_Write, Parser_Write_with.
    destruct (NewParser_drifting f) as (_ & _ & _ & _ & ->).
    rewrite Ha, write_step_ascii by (assumption || lia).
    rewrite A by assumption. reflexivity.
Qed.

Lemma list_end_error_witness :
  Parse SX (bytes_of "(a b) " ++ 41 :: bytes_of "c") = Err ErrListEnd.
Proof.
  assert (Ha : plain (bytes_of "(a b) "))
    by (unfold plain; repeat constructor; cbn; lia).
  destruct (write (NewParser SX) (bytes_of "(a b) ")) as [q rest [e|]| |] eqn:E;
    try (vm_compute in E; discriminate).
  apply (proj2 (proj2 list_end_error) SX (bytes_of "(a b) ") q (bytes_of "c")
           (@after_prefix_plain SX _ q rest Ha E)).
  - vm_compute in E. injection E as <- _. vm_compute. auto.
  - vm_compute in E. injection E as <- _. reflexivity.
  - vm_compute in E. injection E as <- _. reflexivity.
Defined.

(* ------------------------------------------------------------------ *)
(** * Hex atoms *)

Lemma dechex_ascii (r : rune) (v : byte) :
  dechex r = Some v -> r < 128 /\ r <> 35 /\ is_space r = false.
Proof.
  unfold dechex, is_space. intros H.
  destruct ((48 <=? r) && (r <=? 57)) eqn:E1; [lia|].
  destruct ((97 <=? r) && (r <=? 122)) eqn:E2; [lia|].
  destruct ((65 <=? r) && (r <=? 90)) eqn:E3; [lia|]. discriminate.
Qed.

(** Pairs of hex digits, read in the even hex state: each pair appends
    one byte to [p.b]. *)
Lemma hex_run (ps : list (byte * byte)) : forall p k,
  p_state p = pstateHexString -> p_reissue p = 0 ->
  forallb hex_pair_ok ps = true ->
  exists q,
    write p (hex_text ps ++ k) = write q k
    /\ p_state q = pstateHexString /\ p_reissue q = 0
    /\ p_b q = p_b p ++ map hex_byte ps
    /\ p_tokens q = p_tokens p /\ p_lenhint q = p_lenhint p /\ p_xL q = p_xL p
    /\ p_eof q = p_eof p /\ p_sublexing q = p_sublexing p.
Proof.
  induction ps as [|[h l] ps IH]; intros p k Hs Hr Hok.
  - exists p. cbn [hex_text flat_map app map]. rewrite app_nil_r. repeat split; auto.
  - cbn [forallb] in Hok. apply andb_prop in Hok as [Hhl Hok].
    unfold hex_pair_ok in Hhl. cbn [fst snd] in Hhl.
    destruct (dechex h) as [a|] eqn:Eh; [|discriminate].
    destruct (dechex l) as [c|] eqn:El; [|discriminate].
    destruct (dechex_ascii h Eh) as (Hh1 & Hh2 & Hh3).
    destruct (dechex_ascii l El) as (Hl1 & Hl2 & Hl3).
    set (p1 := set_state pstateHexStringOdd (set_i a p)).
    set (p2 := set_state pstateHexString
                 (set_b (p_b p1 ++ [Z.lor (to_byte (Z.shiftl (to_byte (p_i p1)) 4)) c]) p1)).
    assert (E1 : forall t, write p (h :: t) = write p1 t).
    { intros t. apply write_one; [exact Hr | left; exact Hh1 | | exact Hr].
      rewrite hex_dispatch_other by (try (left; exact Hs); assumption).
      rewrite Eh. unfold hex_digit. rewrite Hs. reflexivity. }
    assert (E2 : forall t, write p1 (l :: t) = write p2 t).
    { intros t. apply write_one; [exact Hr | left; exact Hl1 | | exact Hr].
      rewrite hex_dispatch_other by (try (right; reflexivity); assumption).
      rewrite El. reflexivity. }
    destruct (IH p2 k eq_refl Hr Hok) as (q & Eq & Q1 & Q2 & Q3 & Q4 & Q5 & Q6 & Q7 & Q8).
    exists q. split.
    + change (hex_text ((h, l) :: ps) ++ k) with (h :: l :: hex_text ps ++ k).
      rewrite E1, E2. exact Eq.
    + repeat split; try assumption.
      rewrite Q3. unfold p2, p1. psimpl. rewrite <- app_assoc. cbn [map app].
      replace (hex_byte (h, l)) with (Z.lor (to_byte (Z.shiftl (to_byte a) 4)) c)
        by (unfold hex_byte, hexval; cbn [fst snd]; rewrite Eh, El; reflexivity).
      reflexivity.
Qed.

Lemma hex_byte_value (a c : Z) :
  0 <= a < 16 -> 0 <= c < 16 ->
  Z.lor (to_byte (Z.shiftl (to_byte a) 4)) c = 16 * a + c.
Proof.
  intros Ha Hc.
  assert (H : forallb (fun a => forallb (fun c =>
                Z.lor (to_byte (Z.shiftl (to_byte a) 4)) c =? 16 * a + c)
                (map Z.of_nat (seq 0 16))) (map Z.of_nat (seq 0 16)) = true)
    by (vm_compute; reflexivity).
  rewrite forallb_forall in H.
  assert (Ia : In a (map Z.of_nat (seq 0 16))).
  { apply in_map_iff. exists (Z.to_nat a). split; [lia|]. apply in_seq. lia. }
  specialize (H a Ia). rewrite forallb_forall in H.
  assert (Ic : In c (map Z.of_nat (seq 0 16))).
  { apply in_map_iff. exists (Z.to_nat c). split; [lia|]. apply in_seq. lia. }
  specialize (H c Ic). lia.
Qed.

(** X11: Hex atoms.  Between two [#], pairs of digits are read as bytes, the
    first digit of a pair giving the high four bits; the atom is a byte
    slice.  With an odd number of digits the closing [#] is refused as an
    invalid token. *)
Theorem hex_atom_read (f : Format) (ps : list (byte * byte)) (h : byte) :
  allowHexBinaryString f = true -> forallb hex_pair_ok ps = true ->
  Parse f (35 :: hex_text ps ++ [35]) = Ok [VBytes (map hex_byte ps)]
  /\ (dechex h <> None ->
      Parse f (35 :: hex_text ps ++ [h; 35]) = Err (ErrInvalidToken 35))
  /\ (forall hl, 0 <= hexval (fst hl) < 16 -> 0 <= hexval (snd hl) < 16 ->
      hex_byte hl = 16 * hexval (fst hl) + hexval (snd hl)).
Proof.
  intros Hx Hok.
  destruct (NewParser_drifting f) as ((Hs & Hr & He) & Hf & _ & Ht & Hsub).
  destruct (NewParser_fresh f) as (_ & Hlh & _).
  destruct (NewParser_cfg f) as (_ & _ & _ & _ & _ & _ & _ & _ & Hb & _).
  set (p1 := set_state pstateHexString (NewParser f)).
  assert (E1 : forall t, write (NewParser f) (35 :: t) = write p1 t).
  { intros t. apply write_one; [exact Hr | left; lia | | exact Hr].
    unfold dispatch. rewrite Hs, He, Hf, Hx. cbn.
    destruct (allowIntegers f), (allowLists f), (allowQuotedString f),
      (allowBase64BinaryString f), (allowVerbatimBase64BinaryString f),
      (allowTokens f); reflexivity. }
  split; [|split].
  - destruct (@hex_run ps p1 [35] eq_refl Hr Hok)
      as (q & Eq & Q1 & Q2 & Q3 & Q4 & Q5 & Q6 & Q7 & Q8).
    set (q2 := set_lenhint false (set_i 0 (set_b []
                 (push (VBytes (p_b q)) (set_state pstateDrifting q))))).
    rewrite (@Parse_steps f (35 :: hex_text ps ++ [35]) q2).
    + unfold q2. psimpl. rewrite Q3, Q4. unfold p1. psimpl. rewrite Ht, Hb. reflexivity.
    + rewrite E1, Eq. apply write_one; [exact Q2 | left; lia | | exact Q2].
      unfold dispatch. rewrite Q1, Q5. unfold p1. psimpl. rewrite Hlh. reflexivity.
    + unfold drifting, q2. psimpl. rewrite Q2, Q7. unfold p1. psimpl. auto.
    + unfold q2. psimpl. rewrite Q8. exact Hsub.
  - intros Hh. destruct (dechex h) as [a|] eqn:Eh; [|congruence].
    destruct (dechex_ascii h Eh) as (Hh1 & Hh2 & Hh3).
    destruct (@hex_run ps p1 [h; 35] eq_refl Hr Hok)
      as (q & Eq & Q1 & Q2 & Q3 & Q4 & Q5 & Q6 & Q7 & Q8).
    unfold Parse, Parser_Write, Parser_Write_with. rewrite Hsub, E1, Eq.
    rewrite (@write_one q (set_state pstateHexStringOdd (set_i a q)) h [35]);
      [| exact Q2 | left; exact Hh1 | | exact Q2].
    + rewrite write_step_ascii by (psimpl; assumption || lia).
      unfold dispatch. psimpl. cbn. reflexivity.
    + rewrite hex_dispatch_other by (try (left; exact Q1); assumption).
      rewrite Eh. unfold hex_digit. rewrite Q1. reflexivity.
  - intros hl Ha Hc. unfold hex_byte. apply hex_byte_value; assumption.
Qed.

Lemma hex_atom_read_witness :
  Parse SX (35 :: hex_text [(48, 97); (70, 102)] ++ [35])
  = Ok [VBytes (map hex_byte [(48, 97); (70, 102)])]
  /\ (dechex 55 <> None ->
      Parse SX (35 :: hex_text [(48, 97); (70, 102)] ++ [55; 35])
      = Err (ErrInvalidToken 35))
  /\ (forall hl, 0 <= hexval (fst hl) < 16 -> 0 <= hexval (snd hl) < 16 ->
      hex_byte hl = 16 * hexval (fst hl) + hexval (snd hl)).
Proof.
  apply (@hex_atom_read SX [(48, 97); (70, 102)] 55); reflexivity.
Defined.

(* ------------------------------------------------------------------ *)
(** * The filtering reader (b64.go) *)

Lemma set_nth_length (A : Type) (x : A) (l : list A) : forall i,
  length (set_nth i x l) = length l.
Proof.
  induction l as [|y l IH]; intros [|i]; cbn; auto.
Qed.

Lemma firstn_set_nth (A : Type) (x : A) (l : list A) : forall i,
  (i < length l)%nat -> firstn (S i) (set_nth i x l) = firstn i l ++ [x].
Proof.
  induction l as [|y l IH]; intros [|i] H; cbn in *; try lia.
  - reflexivity.
  - f_equal. apply IH. lia.
Qed.

Lemma skipn_set_nth (A : Type) (x : A) (l : list A) : forall i k,
  (i < k)%nat -> skipn k (set_nth i x l) = skipn k l.
Proof.
  induction l as [|y l IH]; intros [|i] [|k] H; cbn; try lia; try reflexivity.
  apply IH. lia.
Qed.

Lemma firstn_snoc_nth (A : Type) (d : A) (l : list A) : forall i,
  (i < length l)%nat -> firstn (S i) l = firstn i l ++ [nth i l d].
Proof.
  induction l as [|y l IH]; intros [|i] H; cbn in *; try lia.
  - reflexivity.
  - f_equal. apply IH. lia.
Qed.

Lemma nth_of_skipn (A : Type) (d : A) (l : list A) : forall i,
  nth i l d = hd d (skipn i l).
Proof.
  induction l as [|y l IH]; intros [|i]; cbn; auto.
Qed.

Lemma skipn_S_tl (A : Type) (l : list A) : forall i,
  skipn (S i) l = tl (skipn i l).
Proof.
  induction l as [|y l IH]; intros [|i]; try reflexivity.
  change (skipn (S i) l = tl (skipn i l)). apply IH.
Qed.

Lemma not_space_test (b : byte) :
  negb (b =? 13) && negb (b =? 10) && negb (b =? 32) && negb (b =? 9)
  = negb (is_space b).
Proof.
  unfold is_space.
  destruct (b =? 13) eqn:E1, (b =? 10) eqn:E2, (b =? 32) eqn:E3, (b =? 9) eqn:E4;
    reflexivity.
Qed.

Lemma filter_ws_app (a b : list byte) : filter_ws (a ++ b) = filter_ws a ++ filter_ws b.
Proof. unfold filter_ws. apply filter_app. Qed.

(** The inner loop moves to the front of the buffer the bytes of [p[:n]]
    that are not whitespace, in order. *)
Lemma compact_spec (p0 : list byte) (steps : nat) : forall i p off,
  length p = length p0 -> (off <= i)%nat -> (i + steps <= length p0)%nat ->
  firstn off p = filter_ws (firstn i p0) -> skipn i p = skipn i p0 ->
  length (fst (compact steps i p off)) = length p0
  /\ firstn (snd (compact steps i p off)) (fst (compact steps i p off))
     = filter_ws (firstn (i + steps) p0)
  /\ (snd (compact steps i p off) <= i + steps)%nat.
Proof.
  induction steps as [|k IH]; intros i p off Hl Ho Hi Hf Hs.
  - cbn [compact fst snd]. rewrite Nat.add_0_r. auto.
  - cbn [compact].
    assert (Hb : nth i p 0 = nth i p0 0) by (rewrite !nth_of_skipn, Hs; reflexivity).
    assert (Hfi : firstn (S i) p0 = firstn i p0 ++ [nth i p0 0])
      by (apply firstn_snoc_nth; lia).
    assert (Hs' : skipn (S i) p = skipn (S i) p0) by (rewrite !skipn_S_tl, Hs; reflexivity).
    rewrite not_space_test. replace (i + S k)%nat with (S i + k)%nat by lia.
    destruct (is_space (nth i p 0)) eqn:Hw; cbn [negb].
    + apply IH; try assumption; try lia.
      rewrite Hfi, filter_ws_app, <- Hf. unfold filter_ws. cbn [filter].
      rewrite <- Hb, Hw. cbn [negb]. rewrite app_nil_r. reflexivity.
    + assert (Hgoal : filter_ws (firstn (S i) p0) = firstn off p ++ [nth i p 0]).
      { rewrite Hfi, filter_ws_app, <- Hf. unfold filter_ws. cbn [filter].
        rewrite <- Hb, Hw. reflexivity. }
      destruct (Nat.eqb_spec i off) as [->|Hne]; cbn [negb].
      * apply IH; try assumption; try lia.
        rewrite Hgoal. apply firstn_snoc_nth. lia.
      * apply IH; try lia.
        -- rewrite set_nth_length. exact Hl.
        -- rewrite Hgoal. apply firstn_set_nth. lia.
        -- rewrite skipn_set_nth by lia. exact Hs'.
Qed.

Lemma firstn_add (A : Type) (l : list A) : forall a b,
  firstn (a + b) l = firstn a l ++ firstn b (skipn a l).
Proof.
  induction l as [|x l IH]; intros [|a] b; cbn [Nat.add firstn skipn app];
    try reflexivity.
  - destruct b; reflexivity.
  - f_equal. apply IH.
Qed.

Lemma skipn_add (A : Type) (l : list A) : forall a b,
  skipn b (skipn a l) = skipn (a + b) l.
Proof.
  induction l as [|x l IH]; intros [|a] b; cbn [Nat.add skipn]; try reflexivity.
  - destruct b; reflexivity.
  - apply IH.
Qed.

(** The outer loop, entered after a read that put the [n] bytes [chunk]
    into the buffer and left [src] unread. *)
Lemma filter_loop_spec (fuel : nat) : forall src p n eof chunk,
  (length src < fuel)%nat -> (0 < length p)%nat -> (n <= length p)%nat ->
  firstn n p = chunk ->
  (n = O -> eof = true /\ src = []) -> ((0 < n)%nat -> eof = false) ->
  exists src' p' m eof' j,
    filter_loop fuel (Some src) p n eof = Some (Some src', p', m, eof')
    /\ length p' = length p /\ (m <= length p)%nat
    /\ src' = skipn j src
    /\ firstn m p' = filter_ws (chunk ++ firstn j src)
    /\ (m = O -> eof' = true /\ src' = []) /\ ((0 < m)%nat -> eof' = false).
Proof.
  induction fuel as [|fuel IH]; intros src p n eof chunk Hf Hp Hn Hc H0 H1; [lia|].
  destruct n as [|n].
  - exists src, p, O, eof, O. cbn [filter_loop]. destruct (H0 eq_refl) as [-> ->].
    cbn in Hc. subst chunk. repeat split; auto; lia.
  - cbn [filter_loop].
    destruct (@compact_spec p (S n) O p O eq_refl (le_n _) ltac:(lia) eq_refl eq_refl)
      as (L1 & L2 & L3).
    destruct (compact (S n) 0 p 0) as [p' off]. cbn [fst snd] in L1, L2, L3.
    cbn [Nat.add] in L2. rewrite Hc in L2.
    destruct (Nat.ltb_spec 0 off) as [Hoff|Hoff].
    + exists src, p', off, eof, O. cbn [firstn skipn]. rewrite app_nil_r.
      repeat split; auto; try lia. intros _. apply H1. lia.
    + assert (off = O) by lia. subst off. cbn [firstn] in L2.
      cbn [switchableReader_Read]. destruct src as [|x src].
      * cbn [bytes_Reader_Read].
        exists [], p', O, true, O. cbn [firstn skipn]. rewrite app_nil_r.
        split; [destruct fuel; reflexivity|]. repeat split; auto; lia.
      * unfold bytes_Reader_Read.
        set (n1 := Nat.min (length p') (length (x :: src))).
        assert (Hn1 : (1 <= n1 <= length p')%nat) by (unfold n1; cbn [length]; lia).
        assert (Hn1s : (n1 <= length (x :: src))%nat) by (unfold n1; lia).
        destruct (IH (skipn n1 (x :: src)) (firstn n1 (x :: src) ++ skipn n1 p') n1 false
                    (firstn n1 (x :: src)))
          as (src' & p2 & m & eof' & j & E & K1 & K2 & K3 & K4 & K5 & K6).
        -- rewrite length_skipn. cbn [length] in *. lia.
        -- rewrite length_app, length_firstn, length_skipn. lia.
        -- rewrite length_app, length_firstn, length_skipn. lia.
        -- rewrite firstn_app, length_firstn.
           replace (n1 - Nat.min n1 (length (x :: src)))%nat with O by lia.
           cbn [firstn]. rewrite app_nil_r. apply firstn_all2.
           rewrite length_firstn. lia.
        -- lia.
        -- reflexivity.
        -- exists src', p2, m, eof', (n1 + j)%nat.
           split; [exact E|].
           assert (Lp : length (firstn n1 (x :: src) ++ skipn n1 p') = length p).
           { rewrite length_app, length_firstn, length_skipn. lia. }
           split; [lia|]. split; [lia|].
           split; [rewrite K3; apply skipn_add|].
           split; [|split; assumption].
           rewrite K4, filter_ws_app, (filter_ws_app chunk), <- L2, firstn_add.
           rewrite filter_ws_app. reflexivity.
Qed.

Lemma filteringReader_Read_spec (fuel : nat) (src buf : list byte) :
  (length src < fuel)%nat -> (0 < length buf)%nat ->
  exists src' buf' m eof j,
    filteringReader_Read fuel (Some src) buf = Some (Some src', buf', m, eof)
    /\ length buf' = length buf /\ (m <= length buf)%nat
    /\ src' = skipn j src
    /\ firstn m buf' = filter_ws (firstn j src)
    /\ (m = O -> eof = true /\ src' = []) /\ ((0 < m)%nat -> eof = false /\ (0 < j)%nat).
Proof.
  intros Hf Hb. unfold filteringReader_Read, switchableReader_Read, bytes_Reader_Read.
  destruct src as [|x src].
  - exists [], buf, O, true, O. destruct fuel; [lia|]. cbn. repeat split; auto; lia.
  - set (n1 := Nat.min (length buf) (length (x :: src))).
    assert (Hn1 : (1 <= n1 <= length buf)%nat) by (unfold n1; cbn [length]; lia).
    assert (Hn1s : (n1 <= length (x :: src))%nat) by (unfold n1; lia).
    destruct (@filter_loop_spec fuel (skipn n1 (x :: src))
                (firstn n1 (x :: src) ++ skipn n1 buf) n1 false (firstn n1 (x :: src)))
      as (src' & p2 & m & eof' & j & E & K1 & K2 & K3 & K4 & K5 & K6).
    + rewrite length_skipn. lia.
    + rewrite length_app, length_firstn, length_skipn. lia.
    + rewrite length_app, length_firstn, length_skipn. lia.
    + rewrite firstn_app, length_firstn.
      replace (n1 - Nat.min n1 (length (x :: src)))%nat with O by lia.
      cbn [firstn]. rewrite app_nil_r. apply firstn_all2.
      rewrite length_firstn. lia.
    + lia.
    + reflexivity.
    + assert (Lp : length (firstn n1 (x :: src) ++ skipn n1 buf) = length buf).
      { rewrite length_app, length_firstn, length_skipn. lia. }
      exists src', p2, m, eof', (n1 + j)%nat.
      split; [exact E|]. split; [lia|]. split; [lia|].
      split; [rewrite K3; apply skipn_add|].
      split; [rewrite K4, firstn_add; reflexivity|].
      split; [exact K5|]. intros Hm. split; [apply K6; exact Hm | lia].
Qed.

(** X24: [filteringReader.Read] and a consumer that reads it to the end.  One
    call consumes a prefix of the unread bytes and returns its bytes other
    than space, tab, CR and LF, in order, at the front of the buffer; it
    returns 0 only together with [io.EOF], when nothing but whitespace was
    left.  So a consumer that reads until [io.EOF], with whatever non-empty
    buffers, receives exactly the input with the whitespace bytes removed;
    on a nil reader it receives nothing. *)
Theorem filteringReader_drains (src : list byte) (bufs : nat -> list byte) :
  (forall k, (0 < length (bufs k))%nat) ->
  (forall k, exists src' buf' m eof j,
      filteringReader_Read (S (length src)) (Some src) (bufs k)
      = Some (Some src', buf', m, eof)
      /\ src' = skipn j src /\ firstn m buf' = filter_ws (firstn j src)
      /\ (m <= length (bufs k))%nat
      /\ (m = O -> eof = true /\ filter_ws src = [])
      /\ ((0 < m)%nat -> eof = false))
  /\ (forall fuel k, (length src < fuel)%nat ->
      drain fuel k (Some src) bufs = Some (filter_ws src))
  /\ (forall fuel k, drain (S fuel) k None bufs = Some []).
Proof.
  intros Hb. split; [|split].
  - intros k.
    destruct (@filteringReader_Read_spec (S (length src)) src (bufs k) ltac:(lia) (Hb k))
      as (src' & buf' & m & eof & j & E & K1 & K2 & K3 & K4 & K5 & K6).
    exists src', buf', m, eof, j. split; [exact E|]. split; [exact K3|].
    split; [exact K4|]. split; [exact K2|]. split; [|intros Hm; apply K6; exact Hm].
    intros Hm. destruct (K5 Hm) as [He Hs]. split; [exact He|].
    rewrite <- (firstn_skipn j src), filter_ws_app, <- K4, <- K3, Hs, Hm. reflexivity.
  - intros fuel. revert src.
    induction fuel as [|fuel IH]; intros src k Hf; [lia|].
    cbn [drain].
    destruct (@filteringReader_Read_spec (S fuel) src (bufs k) Hf (Hb k))
      as (src' & buf' & m & eof & j & E & K1 & K2 & K3 & K4 & K5 & K6).
    rewrite E. destruct m as [|m].
    + destruct (K5 eq_refl) as [-> Hs].
      cbn [firstn]. rewrite <- (firstn_skipn j src), filter_ws_app, <- K4, <- K3, Hs.
      reflexivity.
    + assert (Hm : (0 < S m)%nat) by lia. destruct (K6 Hm) as [-> Hj].
      rewrite (IH src' (S k)).
      * rewrite K4, K3, <- filter_ws_app, firstn_skipn. reflexivity.
      * assert (Hlen : (S m <= length src)%nat).
        { assert (L : length (firstn (S m) buf') = S m)
            by (rewrite length_firstn; lia).
          rewrite K4 in L. pose proof (filter_ws_length (firstn j src)) as L2.
          rewrite length_firstn in L2. lia. }
        rewrite K3, length_skipn. lia.
  - intros fuel k. reflexivity.
Qed.

Lemma filteringReader_drains_witness :
  drain 20 0 (Some (bytes_of "YXB  wb GU=")) (fun _ => [0; 0; 0])
  = Some (filter_ws (bytes_of "YXB  wb GU=")).
Proof.
  apply (proj1 (proj2 (@filteringReader_drains (bytes_of "YXB  wb GU=") (fun _ => [0; 0; 0])
                         (fun _ => ltac:(cbn; lia))))).
  cbn. lia.
Defined.

(* ------------------------------------------------------------------ *)
(** * [Csexp] and [SX] on ASCII input *)

(** One pass through the [switch] is the same in both formats. *)
Lemma dispatch_byte_stream (p : Parser) (r : rune) (prev : option byte) (rest : list byte) :
  unicode_parser p ->
  dispatch (as_byte_stream p) r prev rest
  = action_map as_byte_stream (dispatch p r prev rest).
Proof.
  intros [Hf Hb]. destruct p as [f st s b xL i neg lh bm re toks stk dep eof dec sub sb].
  cbn in Hf, Hb. subst f.
  unfold dispatch, as_byte_stream, octal_digit.
  cbn [p_f p_state p_s p_b p_xL p_i p_neg p_lenhint p_bytemode p_reissue p_tokens
       p_stack p_depth p_eof p_b64dec p_sublexing p_subb64].
  destruct st; subst bm;
    cbn [SX Csexp allowQuotedString allowIntegers allowLists allowVerbatimBinaryString
         allowBase64BinaryString allowVerbatimBase64BinaryString allowHexBinaryString
         allowTokens maxListDepth unicodeStream andb];
    cbv zeta; psimpl;
    repeat match goal with
           | |- context [if ?c then _ else _] => destruct c eqn:?
           | |- context [match dechex ?x with _ => _ end] => destruct (dechex x) eqn:?
           | |- context [match decoct ?x with _ => _ end] => destruct (decoct x) eqn:?
           | |- context [match unsnoc ?x with _ => _ end] => destruct (unsnoc x) as [[? ?]|] eqn:?
           | |- context [match IndexByte ?x ?y with _ => _ end] => destruct (IndexByte x y) eqn:?
           | |- context [match ?x with Some _ => _ | None => _ end] => destruct x eqn:?
           | |- context [match ?x with DecFresh => _ | DecDone => _ end] => destruct x eqn:?
           end;
    try discriminate; psimpl; reflexivity.
Qed.

Lemma dispatch_unicode_parser (p : Parser) (r : rune) (prev : option byte)
    (rest : list byte) (q : Parser) :
  unicode_parser p -> action_parser (dispatch p r prev rest) = Some q ->
  unicode_parser q.
Proof.
  intros [Hf Hb] H. split.
  - rewrite (dispatch_format _ _ _ _ H). exact Hf.
  - unfold dispatch, octal_digit in H.
    destruct (p_state p) eqn:Hs; repeat case_if; cbn [action_parser] in H;
      try discriminate;
      repeat match goal with E : Some _ = Some _ |- _ => injection E as <- end;
      psimpl; rewrite ?Hs, ?Hb; reflexivity.
Qed.

Lemma dispatch_flat (p : Parser) (r : rune) (prev : option byte) (rest : list byte) :
  r <> 123 ->
  match dispatch p r prev rest with
  | Continue _ _ rest' => exists k, rest' = skipn k rest
  | Sublex _ _ => False
  | _ => True
  end.
Proof.
  intros Hr. unfold dispatch, octal_digit.
  destruct (p_state p);
    repeat match goal with
           | |- context [if ?c then _ else _] => destruct c eqn:?
           | |- context [match dechex ?x with _ => _ end] => destruct (dechex x) eqn:?
           | |- context [match decoct ?x with _ => _ end] => destruct (decoct x) eqn:?
           | |- context [match unsnoc ?x with _ => _ end] => destruct (unsnoc x) as [[? ?]|] eqn:?
           | |- context [match IndexByte ?x ?y with _ => _ end] => destruct (IndexByte x y) eqn:?
           | |- context [match ?x with Some _ => _ | None => _ end] => destruct x eqn:?
           end;
    try exact I; try lia;
    try (exists O; reflexivity);
    try (eexists; reflexivity).
  all: exists (length rest); rewrite skipn_all; reflexivity.
Qed.

Lemma write_loop_byte_stream (fuel : nat) : forall p prev rest r,
  unicode_parser p -> ascii_flat rest -> (0 < p_reissue p -> r <> 123) ->
  write_loop fuel (as_byte_stream p) prev rest r
  = outcome_map as_byte_stream (write_loop fuel p prev rest r).
Proof.
  induction fuel as [|fuel IH]; intros p prev rest r Hu Ha Hr; [reflexivity|].
  unfold write_loop; fold write_loop.
  change (p_reissue (as_byte_stream p)) with (p_reissue p).
  destruct (Z.ltb_spec 0 (p_reissue p)) as [Hpos|Hz].
  - change (set_reissue (p_reissue p - 1) (as_byte_stream p))
      with (as_byte_stream (set_reissue (p_reissue p - 1) p)).
    assert (Hu' : unicode_parser (set_reissue (p_reissue p - 1) p)) by exact Hu.
    rewrite dispatch_byte_stream by exact Hu'.
    pose proof (@dispatch_flat (set_reissue (p_reissue p - 1) p) r prev rest (Hr Hpos)) as Hd.
    pose proof (@dispatch_unicode_parser (set_reissue (p_reissue p - 1) p) r prev rest) as Hq.
    destruct (dispatch (set_reissue (p_reissue p - 1) p) r prev rest)
      as [q pv rest'|q rest' e|q rest'|]; cbn [action_map resume outcome_map];
      try reflexivity; try contradiction.
    destruct Hd as [k ->].
    apply IH; [apply Hq; [exact Hu' | reflexivity] | apply Forall_skip; exact Ha
              | intros _; apply Hr; exact Hpos].
  - destruct rest as [|x t]; [reflexivity|].
    inversion Ha as [|x' t' (X1 & X2) Ht]; subst.
    assert (R1 : read_rune (as_byte_stream p) (x :: t) = (x, 1%nat)).
    { unfold read_rune. destruct Hu as [_ Hb].
      change (p_bytemode (as_byte_stream p)) with (p_bytemode p + 1). rewrite Hb.
      destruct (p_state p); reflexivity. }
    rewrite R1, read_rune_ascii by lia.
    cbn [Nat.sub nth_error skipn].
    rewrite dispatch_byte_stream by exact Hu.
    pose proof (@dispatch_flat p x (Some x) t X2) as Hd.
    pose proof (@dispatch_unicode_parser p x (Some x) t) as Hq.
    destruct (dispatch p x (Some x) t)
      as [q pv rest'|q rest' e|q rest'|]; cbn [action_map resume outcome_map];
      try reflexivity; try contradiction.
    destruct Hd as [k ->].
    apply IH; [apply Hq; [exact Hu | reflexivity] | apply Forall_skip; exact Ht
              | intros _; exact X2].
Qed.

Lemma dispatch_sublexing (p : Parser) (r : rune) (prev : option byte) (rest : list byte) :
  match dispatch p r prev rest with
  | Continue q _ _ | Return_ q _ _ => p_sublexing q = p_sublexing p
  | _ => True
  end.
Proof.
  unfold dispatch, octal_digit.
  destruct (p_state p);
    repeat match goal with
           | |- context [if ?c then _ else _] => destruct c eqn:?
           | |- context [match dechex ?x with _ => _ end] => destruct (dechex x) eqn:?
           | |- context [match decoct ?x with _ => _ end] => destruct (decoct x) eqn:?
           | |- context [match unsnoc ?x with _ => _ end] => destruct (unsnoc x) as [[? ?]|] eqn:?
           | |- context [match IndexByte ?x ?y with _ => _ end] => destruct (IndexByte x y) eqn:?
           | |- context [match ?x with Some _ => _ | None => _ end] => destruct x eqn:?
           end;
    try exact I; reflexivity.
Qed.

Lemma write_loop_flat (fuel : nat) : forall p prev rest r,
  unicode_parser p -> ascii_flat rest -> (0 < p_reissue p -> r <> 123) ->
  match write_loop fuel p prev rest r with
  | Returned q _ _ => unicode_parser q /\ p_sublexing q = p_sublexing p
  | _ => True
  end.
Proof.
  induction fuel as [|fuel IH]; intros p prev rest r Hu Ha Hr; [exact I|].
  unfold write_loop; fold write_loop.
  destruct (Z.ltb_spec 0 (p_reissue p)) as [Hpos|Hz].
  - assert (Hu' : unicode_parser (set_reissue (p_reissue p - 1) p)) by exact Hu.
    pose proof (@dispatch_flat (set_reissue (p_reissue p - 1) p) r prev rest (Hr Hpos)) as Hd.
    pose proof (@dispatch_unicode_parser (set_reissue (p_reissue p - 1) p) r prev rest) as Hq.
    pose proof (@dispatch_sublexing (set_reissue (p_reissue p - 1) p) r prev rest) as Hsl.
    destruct (dispatch (set_reissue (p_reissue p - 1) p) r prev rest)
      as [q pv rest'|q rest' e|q rest'|]; cbn [resume]; try exact I; try contradiction.
    + destruct Hd as [k ->].
      pose proof (IH q pv (skipn k rest) r (Hq q Hu' eq_refl)
                    (Forall_skip k Ha) (fun _ => Hr Hpos)) as H.
      destruct (write_loop fuel q pv (skipn k rest) r) as [q' ? ?| |]; try exact I.
      destruct H as [H1 H2]. split; [exact H1 | rewrite H2; exact Hsl].
    + split; [apply Hq; [exact Hu' | reflexivity] | exact Hsl].
  - destruct rest as [|x t]; [split; [exact Hu | reflexivity]|].
    inversion Ha as [|x' t' (X1 & X2) Ht]; subst.
    rewrite read_rune_ascii by lia.
    cbn [Nat.sub nth_error skipn].
    pose proof (@dispatch_flat p x (Some x) t X2) as Hd.
    pose proof (@dispatch_unicode_parser p x (Some x) t) as Hq.
    pose proof (@dispatch_sublexing p x (Some x) t) as Hsl.
    destruct (dispatch p x (Some x) t)
      as [q pv rest'|q rest' e|q rest'|]; cbn [resume]; try exact I; try contradiction.
    + destruct Hd as [k ->].
      pose proof (IH q pv (skipn k t) x (Hq q Hu eq_refl)
                    (Forall_skip k Ht) (fun _ => X2)) as H.
      destruct (write_loop fuel q pv (skipn k t) x) as [q' ? ?| |]; try exact I.
      destruct H as [H1 H2]. split; [exact H1 | rewrite H2; exact Hsl].
    + split; [apply Hq; [exact Hu | reflexivity] | exact Hsl].
Qed.

(** X16: The two formats differ only in how bytes become runes, so on ASCII
    input without an opening brace [Csexp] and [SX] give the same result:
    the same values, or the same error, or a panic in both. *)
Theorem Csexp_SX_agree (b : list byte) :
  ascii_flat b -> Parse Csexp b = Parse SX b.
Proof.
  intros Hb.
  assert (Hu : unicode_parser (NewParser SX)) by (split; reflexivity).
  assert (W : forall p c, unicode_parser p -> ascii_flat c ->
            write (as_byte_stream p) c = outcome_map as_byte_stream (write p c)).
  { intros p c Hp Hc. unfold write.
    change (write_fuel (as_byte_stream p) c) with (write_fuel p c).
    apply write_loop_byte_stream; [exact Hp | exact Hc | intros _; lia]. }
  unfold Parse, Parser_Write, Parser_Write_with.
  change (NewParser Csexp) with (as_byte_stream (NewParser SX)).
  change (p_sublexing (as_byte_stream (NewParser SX))) with false.
  change (p_sublexing (NewParser SX)) with false. cbv iota.
  rewrite W by assumption.
  pose proof (@write_loop_flat (write_fuel (NewParser SX) b) (NewParser SX) None b 0
                Hu Hb ltac:(intros _; lia)) as Hq.
  fold (write (NewParser SX) b) in Hq.
  destruct (write (NewParser SX) b) as [q rest [e|]| |]; cbn [outcome_map]; try reflexivity.
  destruct Hq as [Hq Hsub]. change (p_sublexing (NewParser SX)) with false in Hsub.
  unfold Close, Parser_Write, Parser_Write_with.
  change (p_sublexing (set_eof true (as_byte_stream q))) with (p_sublexing q).
  change (p_sublexing (set_eof true q)) with (p_sublexing q). rewrite Hsub.
  change (set_eof true (as_byte_stream q)) with (as_byte_stream (set_eof true q)).
  rewrite W; [| exact Hq | repeat constructor; lia].
  destruct (write (set_eof true q) [0]) as [q' rest' [e|]| |]; reflexivity.
Qed.

Lemma Csexp_SX_agree_witness :
  Parse Csexp (bytes_of "(a 12 |YQ==| #6162# 3:xyz)")
  = Parse SX (bytes_of "(a 12 |YQ==| #6162# 3:xyz)").
Proof.
  apply Csexp_SX_agree. unfold ascii_flat. repeat constructor; cbn; lia.
Defined.

(* ------------------------------------------------------------------ *)
(** * Lists that are never closed *)

(** X13: An opening parenthesis that is never closed is no error: the values
    parsed before it, at whatever depth, are dropped, and [Parse] returns
    the elements of the list that was left open.  (Here the elements are
    tokens.) *)
Theorem unclosed_list (f : Format) (a : list byte) (p : Parser) (ws : list (list byte)) :
  after_prefix f a p -> drifting p -> p_sublexing p = false -> p_s p = [] ->
  allowLists (p_f p) = true -> allowTokens (p_f p) = true ->
  p_depth p < maxListDepth (p_f p) -> forallb is_token ws = true ->
  Parse f (a ++ 40 :: unwords ws) = Ok (map VString ws).
Proof.
  intros [Hr Ha] Hd Hsub Hps Hl Ht Hdep Hws.
  unfold Parse, Parser_Write, Parser_Write_with.
  destruct (NewParser_drifting f) as (_ & _ & _ & _ & ->).
  rewrite Ha.
  rewrite (@write_one p (opened p) 40 (unwords ws));
    [| exact Hr | left; lia | apply dispatch_open; assumption | exact Hr].
  destruct (@words_run ws (opened p) (drifting_opened Hd) Hps Hsub Ht Hws)
    as (q & q' & E1 & E2 & E3).
  rewrite E1, E2, E3. reflexivity.
Qed.

Lemma unclosed_list_witness :
  Parse SX (bytes_of "x (y) " ++ 40 :: unwords [bytes_of "z"; bytes_of "w"])
  = Ok (map VString [bytes_of "z"; bytes_of "w"]).
Proof.
  assert (Ha : plain (bytes_of "x (y) "))
    by (unfold plain; repeat constructor; cbn; lia).
  destruct (write (NewParser SX) (bytes_of "x (y) ")) as [q rest [e|]| |] eqn:E;
    try (vm_compute in E; discriminate).
  apply (@unclosed_list SX (bytes_of "x (y) ") q [bytes_of "z"; bytes_of "w"]
           (@after_prefix_plain SX _ q rest Ha E));
    vm_compute in E; injection E as <- _; vm_compute; auto.
Defined.

(* ------------------------------------------------------------------ *)
(** * Length-prefixed strings *)

(** The decimal prefix of a length-prefixed atom, read from the start of
    the input. *)
Lemma prefix_run (f : Format) (d : byte) (ds : list byte) :
  allowIntegers f = true -> Forall (fun x => is_digit x = true) (d :: ds) ->
  exists q,
    (forall t, write (NewParser f) (d :: ds ++ t) = write q t)
    /\ p_state q = pstateInteger /\ p_reissue q = 0
    /\ p_i q = decimal (d :: ds) mod 2 ^ 64 /\ p_neg q = false /\ p_f q = f
    /\ p_tokens q = [] /\ p_s q = [] /\ p_b q = []
    /\ p_bytemode q = (if unicodeStream f then 0 else 1)
    /\ p_eof q = false /\ p_sublexing q = false.
Proof.
  intros Hi Hd. inversion Hd as [|d' ds' Hx Hds]; subst.
  assert (Hacc : accum (to_uint64 (0 * 10 + (d - 48))) ds = decimal (d :: ds) mod 2 ^ 64).
  { rewrite <- accum_decimal. reflexivity. }
  assert (Hd48 : 48 <= d <= 57) by (unfold is_digit in Hx; lia).
  assert (Hsp : is_space d = false) by (unfold is_space; lia).
  destruct (NewParser_drifting f) as ((Hs & Hr & He) & Hf & _ & Ht & Hsub).
  destruct (NewParser_cfg f) as (_ & _ & _ & _ & _ & _ & _ & _ & Hb & Hpi & Hneg & Hbm).
  destruct (NewParser_fresh f) as (Hps & _).
  rewrite <- Hf in Hi.
  remember (NewParser f) as p0 eqn:E0. clear E0.
  set (q1 := set_i (to_uint64 (p_i p0 * 10 + (d - 48)))
               (set_reissue 0 (reissue_inc (set_state pstateInteger p0)))).
  assert (E1 : forall t, write p0 (d :: t) = write q1 t).
  { intros t.
    apply (@write_two p0 (reissue_inc (set_state pstateInteger p0)) q1 d t);
      [exact Hr | left; lia | | psimpl; rewrite Hr; reflexivity | | reflexivity].
    - unfold dispatch. rewrite Hs, He, Hsp, Hx, Hi. reflexivity.
    - unfold dispatch. psimpl. rewrite Hx. reflexivity. }
  exists (set_i (accum (p_i q1) ds) q1). split.
  - intros t. rewrite E1. apply digits_run; [reflexivity | reflexivity | exact Hds].
  - unfold q1. psimpl. rewrite Hpi, Hacc. repeat split; assumption.
Qed.

(** Bytes of a verbatim string, at most as many as are still expected. *)
Lemma counted_bytes_run (raw : list byte) : forall p k,
  p_state p = pstateLengthByteString -> p_reissue p = 0 -> p_bytemode p <> 0 ->
  len raw <= p_xL p ->
  write p (raw ++ k)
  = write (set_xL (p_xL p - len raw) (set_b (p_b p ++ map to_byte raw) p)) k.
Proof.
  induction raw as [|x raw IH]; intros p k Hs Hr Hb Hl.
  - cbn [app map]. f_equal. destruct p. unfold set_xL, set_b, len. cbn.
    rewrite app_nil_r. f_equal. lia.
  - assert (Hl' : len (x :: raw) = len raw + 1) by (unfold len; cbn [length]; lia).
    assert (Hn : 0 <= len raw) by (unfold len; lia).
    cbn [app].
    rewrite (@write_one p (set_xL (p_xL p - 1) (set_b (p_b p ++ [to_byte x]) p)) x (raw ++ k));
      [| exact Hr | right; exact Hb | | exact Hr].
    + rewrite IH; [| exact Hs | exact Hr | exact Hb | psimpl; lia].
      f_equal. unfold set_xL, set_b. psimpl. cbn [map]. rewrite <- app_assoc. cbn [app].
      f_equal. lia.
    + unfold dispatch. rewrite Hs. replace (p_xL p =? 0) with false by (symmetry; lia).
      reflexivity.
Qed.

Lemma verbatim_string_parse (f : Format) (d : byte) (ds s : list byte) :
  allowIntegers f = true -> allowVerbatimBinaryString f = true ->
  Forall (fun x => is_digit x = true) (d :: ds) ->
  Forall (fun x => 0 <= x < 256) s ->
  (len s = decimal (d :: ds) mod 2 ^ 64 ->
     Parse f (d :: ds ++ 58 :: s) = Ok [VBytes s])
  /\ (len s < decimal (d :: ds) mod 2 ^ 64 ->
     Parse f (d :: ds ++ 58 :: s) = Ok []).
Proof.
  intros Hi Hv Hd Hs.
  destruct (@prefix_run f d ds Hi Hd)
    as (q & Eq & Q1 & Q2 & Q3 & Q4 & Q5 & Q6 & Q7 & Q8 & Q9 & Q10 & Q11).
  set (q2 := bytemode_inc (set_lenhint true
               (set_state pstateLengthByteString (set_i 0 (set_xL (p_i q) q))))).
  assert (E2 : forall t, write q (58 :: t) = write q2 t).
  { intros t. apply write_one; [exact Q2 | left; lia | | exact Q2].
    unfold dispatch. rewrite Q1, Q4, Q5, Hv. cbn.
    destruct (allowQuotedString f), (allowHexBinaryString f), (allowBase64BinaryString f);
      reflexivity. }
  assert (Hbm : p_bytemode q2 <> 0).
  { unfold q2. psimpl. rewrite Q9. destruct (unicodeStream f); cbn; lia. }
  assert (E3 : len s <= decimal (d :: ds) mod 2 ^ 64 ->
               write (NewParser f) (d :: ds ++ 58 :: s)
               = write (set_xL (p_xL q2 - len s) (set_b (p_b q2 ++ map to_byte s) q2)) []).
  { intros Hl. rewrite Eq, E2. rewrite <- (app_nil_r s) at 1.
    apply counted_bytes_run; [reflexivity | exact Q2 | exact Hbm |].
    unfold q2. psimpl. rewrite Q3. exact Hl. }
  assert (Hx : p_xL q2 = decimal (d :: ds) mod 2 ^ 64) by (unfold q2; psimpl; exact Q3).
  split; intros Hl.
  - rewrite (@Parse_via f _ _ (E3 ltac:(lia)) Q2).
    destruct (@Close_cases (set_xL (p_xL q2 - len s) (set_b (p_b q2 ++ map to_byte s) q2))
                Q2 Q11) as (q' & -> & Hq').
    rewrite Hq'. psimpl. replace (p_xL q2 - len s =? 0) with true by (symmetry; lia).
    unfold q2. psimpl. rewrite Q6, Q8, map_to_byte_octets by exact Hs. reflexivity.
  - rewrite (@Parse_via f _ _ (E3 ltac:(lia)) Q2).
    destruct (@Close_cases (set_xL (p_xL q2 - len s) (set_b (p_b q2 ++ map to_byte s) q2))
                Q2 Q11) as (q' & -> & Hq').
    rewrite Hq'. psimpl. replace (p_xL q2 - len s =? 0) with false by (symmetry; lia).
    unfold q2. psimpl. rewrite Q6. reflexivity.
Qed.

(** X9: Verbatim strings [N:bytes].  [N] is the decimal prefix, taken modulo
    2^64; the [N] bytes after the colon are the atom, whatever they are.
    When the input ends before all [N] bytes were read, the atom is dropped
    and the parse succeeds without it. *)
Theorem verbatim_string (f : Format) (d : byte) (ds s : list byte) :
  allowIntegers f = true -> allowVerbatimBinaryString f = true ->
  Forall (fun x => is_digit x = true) (d :: ds) ->
  Forall (fun x => 0 <= x < 256) s ->
  (len s = decimal (d :: ds) mod 2 ^ 64 ->
     Parse f (d :: ds ++ 58 :: s) = Ok [VBytes s])
  /\ (len s < decimal (d :: ds) mod 2 ^ 64 ->
     Parse f (d :: ds ++ 58 :: s) = Ok []).
Proof.
  intros Hi Hv Hd Hs. apply verbatim_string_parse.
  - exact Hi.
  - exact Hv.
  - exact Hd.
  - exact Hs.
Qed.

Lemma verbatim_string_witness :
  Parse SX (bytes_of "2" ++ 58 :: [255; 0]) = Ok [VBytes [255; 0]]
  /\ Parse SX (bytes_of "5" ++ 58 :: [255; 0]) = Ok [].
Proof.
  split.
  - apply (proj1 (@verbatim_string SX 50 [] [255; 0] eq_refl eq_refl
                    ltac:(repeat constructor) ltac:(repeat constructor; lia))).
    reflexivity.
  - apply (proj2 (@verbatim_string SX 53 [] [255; 0] eq_refl eq_refl
                    ltac:(repeat constructor) ltac:(repeat constructor; lia))).
    reflexivity.
Defined.

(** Runes of a length-prefixed quoted string, at most as many as are
    still expected. *)
Lemma counted_runes_run (s : list byte) : forall p k,
  p_state p = pstateLengthQuotedString -> p_reissue p = 0 ->
  Forall (fun x => 0 <= x < 128) s -> len s <= p_xL p ->
  write p (s ++ k) = write (set_xL (p_xL p - len s) (s_append s p)) k.
Proof.
  induction s as [|x s IH]; intros p k Hs Hr Ha Hl.
  - cbn [app]. f_equal. destruct p. unfold set_xL, s_append, set_s, len. cbn.
    rewrite app_nil_r. f_equal. lia.
  - inversion Ha as [|x' s' Hx Ha']; subst.
    assert (Hl' : len (x :: s) = len s + 1) by (unfold len; cbn [length]; lia).
    assert (Hn : 0 <= len s) by (unfold len; lia).
    cbn [app].
    rewrite (@write_one p (set_xL (p_xL p - 1) (s_append [x] p)) x (s ++ k));
      [| exact Hr | left; lia | | exact Hr].
    + rewrite IH; [| exact Hs | exact Hr | exact Ha' | psimpl; lia].
      f_equal. unfold set_xL, s_append, set_s. psimpl. rewrite <- app_assoc. cbn [app].
      f_equal. lia.
    + unfold dispatch. rewrite Hs. replace (p_xL p =? 0) with false by (symmetry; lia).
      unfold string_of_rune.
      replace ((x <? 0) || (1114111 <? x) || ((55296 <=? x) && (x <=? 57343))) with false
        by (symmetry; lia).
      replace (x <=? 127) with true by (symmetry; lia). reflexivity.
Qed.

(** X10: Length-prefixed quoted strings [N"..."].  The [N] runes after the
    opening quote are the string, quotes and backslashes among them
    included; the rune after them ends the atom and is not looked at, so
    any character is accepted in the place of the closing quote, and so is
    the end of the input. *)
Theorem length_quoted_string (f : Format) (d : byte) (ds s : list byte) (c : byte) :
  allowIntegers f = true -> allowQuotedString f = true ->
  Forall (fun x => is_digit x = true) (d :: ds) ->
  Forall (fun x => 0 <= x < 128) s -> c < 128 ->
  len s = decimal (d :: ds) mod 2 ^ 64 ->
  Parse f (d :: ds ++ 34 :: s ++ [c]) = Ok [VString s]
  /\ Parse f (d :: ds ++ 34 :: s) = Ok [VString s].
Proof.
  intros Hi Hq Hd Hs Hc Hl.
  destruct (@prefix_run f d ds Hi Hd)
    as (q & Eq & Q1 & Q2 & Q3 & Q4 & Q5 & Q6 & Q7 & Q8 & Q9 & Q10 & Q11).
  set (q2 := set_state pstateLengthQuotedString (set_i 0 (set_xL (p_i q) q))).
  assert (E2 : forall t, write q (34 :: t) = write q2 t).
  { intros t. apply write_one; [exact Q2 | left; lia | | exact Q2].
    unfold dispatch. rewrite Q1, Q4, Q5, Hq. reflexivity. }
  set (q3 := set_xL (p_xL q2 - len s) (s_append s q2)).
  assert (E3 : forall t, write q2 (s ++ t) = write q3 t).
  { intros t. apply counted_runes_run; [reflexivity | exact Q2 | exact Hs |].
    unfold q2. psimpl. rewrite Q3. lia. }
  assert (Hx : p_xL q3 = 0) by (unfold q3, q2; psimpl; lia).
  assert (Hs3 : p_s q3 = s) by (unfold q3, q2; psimpl; rewrite Q7; reflexivity).
  split.
  - set (q4 := set_s [] (push (VString (p_s q3)) (set_state pstateDrifting q3))).
    rewrite (@Parse_steps f (d :: ds ++ 34 :: s ++ [c]) q4).
    + unfold q4. psimpl. rewrite Hs3. unfold q3, q2. psimpl. rewrite Q6. reflexivity.
    + rewrite Eq, E2, E3. apply write_one; [exact Q2 | left; exact Hc | | exact Q2].
      unfold dispatch. change (p_state q3) with pstateLengthQuotedString. cbv iota.
      rewrite Hx. reflexivity.
    + unfold drifting, q4, q3, q2. psimpl. auto.
    + exact Q11.
  - rewrite (@Parse_via f (d :: ds ++ 34 :: s) q3).
    + destruct (@Close_cases q3 Q2 Q11) as (q' & -> & Hq').
      rewrite Hq', Hx, Hs3. unfold q3, q2. psimpl. rewrite Q6. reflexivity.
    + rewrite Eq, E2. rewrite <- (app_nil_r s) at 1. apply E3.
    + exact Q2.
Qed.

Lemma length_quoted_string_witness :
  Parse SX (bytes_of "3" ++ 34 :: [97; 34; 92] ++ [120]) = Ok [VString [97; 34; 92]]
  /\ Parse SX (bytes_of "3" ++ 34 :: [97; 34; 92]) = Ok [VString [97; 34; 92]].
Proof.
  apply (@length_quoted_string SX 51 [] [97; 34; 92] 120); try reflexivity.
  - repeat constructor.
  - repeat constructor; lia.
Defined.

(* ------------------------------------------------------------------ *)
(** * Escapes in quoted strings *)

Lemma unescaped_facts (s : list byte) :
  unescaped s ->
  Forall (fun x => x < 128) s /\ ~ In 34 s /\ ~ In 92 s
  /\ flat_map string_of_rune s = s.
Proof.
  intros H. split; [|split; [|split]].
  - eapply Forall_impl; [|exact H]. cbn. intros x Hx. lia.
  - intros Hin. unfold unescaped in H. rewrite Forall_forall in H.
    specialize (H _ Hin). lia.
  - intros Hin. unfold unescaped in H. rewrite Forall_forall in H.
    specialize (H _ Hin). lia.
  - apply string_of_rune_ascii. eapply Forall_impl; [|exact H]. cbn. intros x Hx. lia.
Qed.

Lemma reads_as_plain (s : list byte) : unescaped s -> reads_as s s.
Proof.
  intros H p k Hs Hr Hi. destruct (unescaped_facts H) as (H1 & H2 & H3 & H4).
  rewrite quoted_run by auto. rewrite H4. reflexivity.
Qed.

Lemma reads_as_app (m1 o1 m2 o2 : list byte) :
  reads_as m1 o1 -> reads_as m2 o2 -> reads_as (m1 ++ m2) (o1 ++ o2).
Proof.
  intros R1 R2 p k Hs Hr Hi. rewrite <- app_assoc, R1 by assumption.
  rewrite R2 by assumption. rewrite s_append_app. reflexivity.
Qed.

(** A quoted string whose interior is read as [out]. *)
Lemma quoted_reads_as (f : Format) (mid out : list byte) :
  allowQuotedString f = true -> reads_as mid out ->
  Parse f (34 :: mid ++ [34]) = Ok [VString out].
Proof.
  intros Hq R.
  destruct (NewParser_drifting f) as ((Hs & Hr & He) & Hf & _ & Ht & Hsub).
  destruct (NewParser_fresh f) as (Hps & _).
  destruct (NewParser_cfg f) as (_ & _ & _ & _ & _ & _ & _ & _ & _ & Hpi & _).
  set (q1 := set_state pstateQuotedString (NewParser f)).
  assert (E1 : forall t, write (NewParser f) (34 :: t) = write q1 t).
  { intros t. apply write_one; [exact Hr | left; lia | | exact Hr].
    unfold dispatch. rewrite Hs, He, Hf, Hq. reflexivity. }
  set (q2 := s_append out q1).
  set (q3 := set_s [] (push (VString (p_s q2)) (set_state pstateDrifting q2))).
  rewrite (@Parse_steps f (34 :: mid ++ [34]) q3).
  - unfold q3, q2, q1. psimpl. rewrite Ht, Hps. reflexivity.
  - rewrite E1, R by (reflexivity || assumption).
    apply write_one; [exact Hr | left; lia | | exact Hr]. reflexivity.
  - unfold drifting, q3, q2, q1. psimpl. auto.
  - exact Hsub.
Qed.

Lemma string_of_rune_one (x : rune) : 0 <= x < 128 -> string_of_rune x = [x].
Proof.
  intros Hx. unfold string_of_rune.
  replace ((x <? 0) || (1114111 <? x) || ((55296 <=? x) && (x <=? 57343))) with false
    by (symmetry; lia).
  replace (x <=? 127) with true by (symmetry; lia). reflexivity.
Qed.

Ltac same_parser p :=
  f_equal; destruct p; cbn in *; subst; try reflexivity.

(** A backslash and a character with no escape sequence of more than one
    character. *)
Lemma reads_as_escape (e : rune) :
  0 <= e < 128 -> e <> 120 -> e <> 13 -> e <> 10 -> ~ (48 <= e <= 55) ->
  reads_as [92; e] [escape_value e].
Proof.
  intros He1 He2 He3 He4 He5 p k Hs Hr Hi. cbn [app].
  rewrite (@write_one p (set_state pstateQuotedStringEscape p) 92 (e :: k));
    [| exact Hr | left; lia | | exact Hr].
  2:{ unfold dispatch. rewrite Hs. reflexivity. }
  rewrite (@write_one _ (s_append [escape_value e] (set_state pstateQuotedString
                           (set_state pstateQuotedStringEscape p))) e k);
    [| exact Hr | left; lia | | exact Hr].
  - same_parser p.
  - unfold dispatch, escape_value. psimpl.
    replace (e =? 13) with false by (symmetry; lia).
    replace (e =? 10) with false by (symmetry; lia).
    replace (e =? 120) with false by (symmetry; lia).
    replace ((48 <=? e) && (e <=? 55)) with false by (symmetry; lia).
    rewrite string_of_rune_one by exact He1.
    destruct (e =? 97), (e =? 98), (e =? 102), (e =? 110), (e =? 114), (e =? 116),
      (e =? 118); reflexivity.
Qed.

Lemma reads_as_hex_escape (h l : rune) :
  hex_pair_ok (h, l) = true -> reads_as [92; 120; h; l] [hex_byte (h, l)].
Proof.
  intros Hok p k Hs Hr Hi. unfold hex_pair_ok in Hok. cbn [fst snd] in Hok.
  destruct (dechex h) as [a|] eqn:Eh; [|discriminate].
  destruct (dechex l) as [c|] eqn:El; [|discriminate].
  destruct (dechex_ascii h Eh) as (Hh1 & _).
  destruct (dechex_ascii l El) as (Hl1 & _).
  pose proof (dechex_range _ Eh) as Ra.
  cbn [app].
  rewrite (@write_one p (set_state pstateQuotedStringEscape p) 92 (120 :: h :: l :: k));
    [| exact Hr | left; lia | | exact Hr].
  2:{ unfold dispatch. rewrite Hs. reflexivity. }
  rewrite (@write_one _ (set_state pstateQuotedStringHexEscape
                           (set_state pstateQuotedString
                              (set_state pstateQuotedStringEscape p))) 120 (h :: l :: k));
    [| exact Hr | left; lia | reflexivity | exact Hr].
  rewrite (@write_one _ (set_state pstateQuotedStringHexEscape2 (set_i a
                           (set_state pstateQuotedStringHexEscape
                              (set_state pstateQuotedString
                                 (set_state pstateQuotedStringEscape p))))) h (l :: k));
    [| exact Hr | left; lia | | exact Hr].
  2:{ unfold dispatch. psimpl. rewrite Eh. reflexivity. }
  match goal with |- write ?q0 (l :: k) = _ =>
    rewrite (@write_one q0 (set_i 0 (set_state pstateQuotedString
               (s_append [Z.lor (to_byte (Z.shiftl (p_i q0) 4)) c] q0))) l k);
      [| exact Hr | left; lia | | exact Hr]
  end.
  - f_equal. unfold hex_byte, hexval. cbn [fst snd]. rewrite Eh, El.
    replace (to_byte a) with a by (unfold to_byte; rewrite Z.mod_small; lia).
    destruct p; cbn in *; subst; reflexivity.
  - unfold dispatch. psimpl. rewrite El. reflexivity.
Qed.

Lemma decoct_digit (o : rune) : 48 <= o <= 55 -> decoct o = Some (to_byte (o - 48)).
Proof. intros H. unfold decoct. replace ((48 <=? o) && (o <=? 55)) with true by (symmetry; lia). reflexivity. Qed.

Lemma reads_as_octal_escape (o1 o2 o3 : rune) :
  48 <= o1 <= 55 -> 48 <= o2 <= 55 -> 48 <= o3 <= 55 ->
  reads_as [92; o1; o2; o3] [octal_byte o1 o2 o3].
Proof.
  intros H1 H2 H3 p k Hs Hr Hi. cbn [app].
  rewrite (@write_one p (set_state pstateQuotedStringEscape p) 92 (o1 :: o2 :: o3 :: k));
    [| exact Hr | left; lia | | exact Hr].
  2:{ unfold dispatch. rewrite Hs. reflexivity. }
  set (pe := set_state pstateQuotedStringEscape p).
  set (p1 := reissue_inc (set_i 0 (set_state pstateQuotedStringOctalEscape
                                    (set_state pstateQuotedString pe)))).
  set (p2 := set_state pstateQuotedStringOctalEscape2
               (set_i (Z.lor (to_byte (Z.shiftl (p_i (set_reissue 0 p1)) 3))
                         (to_byte (o1 - 48))) (set_reissue 0 p1))).
  rewrite (@write_two pe p1 p2 o1 (o2 :: o3 :: k));
    [| exact Hr | left; lia | | unfold p1, pe; psimpl; rewrite Hr; reflexivity | | exact eq_refl].
  2:{ unfold dispatch, pe. psimpl.
      replace (o1 =? 97) with false by (symmetry; lia).
      replace (o1 =? 98) with false by (symmetry; lia).
      replace (o1 =? 102) with false by (symmetry; lia).
      replace (o1 =? 110) with false by (symmetry; lia).
      replace (o1 =? 114) with false by (symmetry; lia).
      replace (o1 =? 116) with false by (symmetry; lia).
      replace (o1 =? 118) with false by (symmetry; lia).
      replace (o1 =? 13) with false by (symmetry; lia).
      replace (o1 =? 10) with false by (symmetry; lia).
      replace (o1 =? 120) with false by (symmetry; lia).
      replace ((48 <=? o1) && (o1 <=? 55)) with true by (symmetry; lia).
      reflexivity. }
  2:{ unfold dispatch, octal_digit, p1, pe. psimpl. rewrite decoct_digit by exact H1.
      reflexivity. }
  set (p3 := set_state pstateQuotedStringOctalEscape3
               (set_i (Z.lor (to_byte (Z.shiftl (p_i p2) 3)) (to_byte (o2 - 48))) p2)).
  rewrite (@write_one p2 p3 o2 (o3 :: k)); [| exact eq_refl | left; lia | | exact eq_refl].
  2:{ unfold dispatch, octal_digit. change (p_state p2) with pstateQuotedStringOctalEscape2.
      cbv iota. rewrite decoct_digit by exact H2. reflexivity. }
  set (i3 := set_i (Z.lor (to_byte (Z.shiftl (p_i p3) 3)) (to_byte (o3 - 48))) p3).
  rewrite (@write_one p3 (set_i 0 (s_append [to_byte (p_i i3)]
                                     (set_state pstateQuotedString i3))) o3 k);
    [| exact eq_refl | left; lia | | exact eq_refl].
  2:{ unfold dispatch, octal_digit. change (p_state p3) with pstateQuotedStringOctalEscape3.
      cbv iota. rewrite decoct_digit by exact H3. reflexivity. }
  f_equal. unfold octal_byte, i3, p3, p2, p1, pe. destruct p. cbn in *. subst. reflexivity.
Qed.

Lemma octal_byte_value (o1 o2 o3 : rune) :
  48 <= o1 <= 55 -> 48 <= o2 <= 55 -> 48 <= o3 <= 55 ->
  octal_byte o1 o2 o3 = (64 * (o1 - 48) + 8 * (o2 - 48) + (o3 - 48)) mod 256.
Proof.
  intros H1 H2 H3.
  assert (H : forallb (fun a => forallb (fun b => forallb (fun c =>
                octal_byte a b c =? (64 * (a - 48) + 8 * (b - 48) + (c - 48)) mod 256)
                (map Z.of_nat (seq 48 8))) (map Z.of_nat (seq 48 8)))
                (map Z.of_nat (seq 48 8)) = true)
    by (vm_compute; reflexivity).
  assert (I : forall o, 48 <= o <= 55 -> In o (map Z.of_nat (seq 48 8))).
  { intros o Ho. apply in_map_iff. exists (Z.to_nat o). split; [lia|]. apply in_seq. lia. }
  rewrite forallb_forall in H. specialize (H o1 (I o1 H1)).
  rewrite forallb_forall in H. specialize (H o2 (I o2 H2)).
  rewrite forallb_forall in H. specialize (H o3 (I o3 H3)). lia.
Qed.

Lemma quoted_framed (f : Format) (s1 mid out s2 : list byte) :
  allowQuotedString f = true -> unescaped s1 -> unescaped s2 -> reads_as mid out ->
  Parse f (34 :: s1 ++ mid ++ s2 ++ [34]) = Ok [VString (s1 ++ out ++ s2)].
Proof.
  intros Hq H1 H2 R.
  replace (s1 ++ mid ++ s2 ++ [34]) with ((s1 ++ mid ++ s2) ++ [34])
    by (rewrite <- !app_assoc; reflexivity).
  apply quoted_reads_as; [exact Hq|].
  apply reads_as_app; [apply reads_as_plain; exact H1|].
  apply reads_as_app; [exact R | apply reads_as_plain; exact H2].
Qed.

(** X5: Escape sequences in a quoted string.  A backslash and a character
    give the byte of the table ([\n] gives 10, ...), a character without an
    entry gives itself; [\x] and two hex digits give the byte the digits
    spell; a backslash and three octal digits give the byte they spell,
    modulo 256. *)
Theorem quoted_string_escapes (f : Format) (s1 s2 : list byte) :
  allowQuotedString f = true -> unescaped s1 -> unescaped s2 ->
  (forall e, 0 <= e < 128 -> e <> 120 -> e <> 13 -> e <> 10 -> ~ (48 <= e <= 55) ->
     Parse f (34 :: s1 ++ [92; e] ++ s2 ++ [34])
     = Ok [VString (s1 ++ [escape_value e] ++ s2)])
  /\ (forall h l, hex_pair_ok (h, l) = true ->
     Parse f (34 :: s1 ++ [92; 120; h; l] ++ s2 ++ [34])
     = Ok [VString (s1 ++ [hex_byte (h, l)] ++ s2)])
  /\ (forall o1 o2 o3, 48 <= o1 <= 55 -> 48 <= o2 <= 55 -> 48 <= o3 <= 55 ->
     Parse f (34 :: s1 ++ [92; o1; o2; o3] ++ s2 ++ [34])
     = Ok [VString (s1 ++ [(64 * (o1 - 48) + 8 * (o2 - 48) + (o3 - 48)) mod 256] ++ s2)]).
Proof.
  intros Hq H1 H2. split; [|split].
  - intros e E1 E2 E3 E4 E5. apply quoted_framed; try assumption.
    apply reads_as_escape; assumption.
  - intros h l Hok. apply quoted_framed; try assumption.
    apply reads_as_hex_escape; assumption.
  - intros o1 o2 o3 O1 O2 O3. rewrite <- octal_byte_value by assumption.
    apply quoted_framed; try assumption.
    apply reads_as_octal_escape; assumption.
Qed.

Lemma quoted_string_escapes_witness :
  Parse SX (34 :: bytes_of "ab" ++ [92; 55; 55; 55] ++ bytes_of "c" ++ [34])
  = Ok [VString (bytes_of "ab" ++ [(64 * (55 - 48) + 8 * (55 - 48) + (55 - 48)) mod 256]
                   ++ bytes_of "c")].
Proof.
  apply (proj2 (proj2 (@quoted_string_escapes SX (bytes_of "ab") (bytes_of "c") eq_refl
                         ltac:(repeat constructor; cbn; lia)
                         ltac:(repeat constructor; cbn; lia)))); lia.
Defined.

(** After a backslash and a carriage return, a line feed is skipped and
    any other character is read as usual. *)
Lemma reads_as_cr (c : rune) :
  reads_as [92; 13; 10] []
  /\ (unescaped [c] -> c <> 10 -> reads_as [92; 13; c] [c]).
Proof.
  split.
  - intros p k Hs Hr Hi. cbn [app].
    rewrite (@write_one p (set_state pstateQuotedStringEscape p) 92 (13 :: 10 :: k));
      [| exact Hr | left; lia | | exact Hr].
    2:{ unfold dispatch. rewrite Hs. reflexivity. }
    rewrite (@write_one _ (set_state pstateQuotedStringEscapeLF
               (set_state pstateQuotedString (set_state pstateQuotedStringEscape p)))
               13 (10 :: k));
      [| exact Hr | left; lia | reflexivity | exact Hr].
    match goal with |- write ?q0 (10 :: k) = _ =>
      rewrite (@write_one q0 (set_state pstateQuotedString q0) 10 k);
        [| exact Hr | left; lia | reflexivity | exact Hr]
    end.
    rewrite s_append_nil. same_parser p.
  - intros Hc Hn p k Hs Hr Hi. inversion Hc as [|c' t (C1 & C2 & C3) _]; subst.
    cbn [app].
    rewrite (@write_one p (set_state pstateQuotedStringEscape p) 92 (13 :: c :: k));
      [| exact Hr | left; lia | | exact Hr].
    2:{ unfold dispatch. rewrite Hs. reflexivity. }
    rewrite (@write_one _ (set_state pstateQuotedStringEscapeLF
               (set_state pstateQuotedString (set_state pstateQuotedStringEscape p)))
               13 (c :: k));
      [| exact Hr | left; lia | reflexivity | exact Hr].
    match goal with |- write ?q0 (c :: k) = _ =>
      rewrite (@write_two q0 (set_state pstateQuotedString (reissue_inc q0))
                 (s_append [c] (set_reissue 0 (set_state pstateQuotedString (reissue_inc q0))))
                 c k);
        [| exact Hr | left; lia | | psimpl; rewrite Hr; reflexivity | | exact eq_refl]
    end.
    + same_parser p.
    + unfold dispatch. psimpl. replace (c =? 10) with false by (symmetry; lia). reflexivity.
    + unfold dispatch. psimpl.
      replace (c =? 34) with false by (symmetry; lia).
      replace (c =? 92) with false by (symmetry; lia).
      rewrite string_of_rune_one by lia. reflexivity.
Qed.

(** After a backslash and a line feed, a carriage return is read as a
    character of the string, and any other character is dropped. *)
Lemma reads_as_lf (c : rune) :
  reads_as [92; 10; 13] [13]
  /\ (c < 128 -> c <> 13 -> reads_as [92; 10; c] []).
Proof.
  split.
  - intros p k Hs Hr Hi. cbn [app].
    rewrite (@write_one p (set_state pstateQuotedStringEscape p) 92 (10 :: 13 :: k));
      [| exact Hr | left; lia | | exact Hr].
    2:{ unfold dispatch. rewrite Hs. reflexivity. }
    rewrite (@write_one _ (set_state pstateQuotedStringEscapeCR
               (set_state pstateQuotedString (set_state pstateQuotedStringEscape p)))
               10 (13 :: k));
      [| exact Hr | left; lia | reflexivity | exact Hr].
    match goal with |- write ?q0 (13 :: k) = _ =>
      rewrite (@write_two q0 (set_state pstateQuotedString (reissue_inc q0))
                 (s_append [13] (set_reissue 0 (set_state pstateQuotedString (reissue_inc q0))))
                 13 k);
        [| exact Hr | left; lia | reflexivity | psimpl; rewrite Hr; reflexivity
         | reflexivity | exact eq_refl]
    end.
    same_parser p.
  - intros Hc Hn p k Hs Hr Hi. cbn [app].
    rewrite (@write_one p (set_state pstateQuotedStringEscape p) 92 (10 :: c :: k));
      [| exact Hr | left; lia | | exact Hr].
    2:{ unfold dispatch. rewrite Hs. reflexivity. }
    rewrite (@write_one _ (set_state pstateQuotedStringEscapeCR
               (set_state pstateQuotedString (set_state pstateQuotedStringEscape p)))
               10 (c :: k));
      [| exact Hr | left; lia | reflexivity | exact Hr].
    match goal with |- write ?q0 (c :: k) = _ =>
      rewrite (@write_one q0 (set_state pstateQuotedString q0) c k);
        [| exact Hr | left; lia | | exact Hr]
    end.
    + rewrite s_append_nil. same_parser p.
    + unfold dispatch. psimpl. replace (c =? 13) with false by (symmetry; lia). reflexivity.
Qed.

(** X6: A backslash at the end of a line inside a quoted string.  After
    backslash, carriage return, a line feed is skipped with them; without
    the line feed the next character is read as usual.  After backslash,
    line feed the two cases are the other way round from what a line
    continuation needs: a carriage return that follows is kept as a
    character of the string, and any other character that follows is
    dropped. *)
Theorem quoted_line_continuation (f : Format) (s1 s2 : list byte) :
  allowQuotedString f = true -> unescaped s1 -> unescaped s2 ->
  Parse f (34 :: s1 ++ [92; 13; 10] ++ s2 ++ [34]) = Ok [VString (s1 ++ s2)]
  /\ (forall c, unescaped [c] -> c <> 10 ->
      Parse f (34 :: s1 ++ [92; 13; c] ++ s2 ++ [34]) = Ok [VString (s1 ++ c :: s2)])
  /\ Parse f (34 :: s1 ++ [92; 10; 13] ++ s2 ++ [34]) = Ok [VString (s1 ++ 13 :: s2)]
  /\ (forall c, c < 128 -> c <> 13 ->
      Parse f (34 :: s1 ++ [92; 10; c] ++ s2 ++ [34]) = Ok [VString (s1 ++ s2)]).
Proof.
  intros Hq H1 H2. split; [|split; [|split]].
  - apply (@quoted_framed f s1 [92; 13; 10] [] s2 Hq H1 H2).
    apply (proj1 (reads_as_cr 0)).
  - intros c Hc Hn.
    apply (@quoted_framed f s1 [92; 13; c] [c] s2 Hq H1 H2).
    apply (proj2 (reads_as_cr c)); assumption.
  - apply (@quoted_framed f s1 [92; 10; 13] [13] s2 Hq H1 H2).
    apply (proj1 (reads_as_lf 0)).
  - intros c Hc Hn.
    apply (@quoted_framed f s1 [92; 10; c] [] s2 Hq H1 H2).
    apply (proj2 (reads_as_lf c)); assumption.
Qed.

Lemma quoted_line_continuation_witness :
  Parse SX (34 :: bytes_of "ab" ++ [92; 10; 120] ++ bytes_of "cd" ++ [34])
  = Ok [VString (bytes_of "ab" ++ bytes_of "cd")].
Proof.
  apply (proj2 (proj2 (proj2 (@quoted_line_continuation SX (bytes_of "ab") (bytes_of "cd")
                                 eq_refl ltac:(repeat constructor; cbn; lia)
                                 ltac:(repeat constructor; cbn; lia)))) 120); lia.
Defined.

(* ------------------------------------------------------------------ *)
(** * Envelopes *)

(** But for an opening brace, the [switch] neither reads nor writes the
    two fields of the envelope code. *)
Lemma dispatch_in_envelope (sl : bool) (sb : option writeDecoder) (p : Parser)
    (r : rune) (prev : option byte) (rest : list byte) :
  r <> 123 ->
  dispatch (in_envelope sl sb p) r prev rest
  = action_map (in_envelope sl sb) (dispatch p r prev rest).
Proof.
  intros Hr. destruct p as [f st s b xL i neg lh bm re toks stk dep eof dec sub sb0].
  unfold dispatch, in_envelope, octal_digit.
  replace (r =? 123) with false by (symmetry; lia).
  cbv zeta; psimpl.
  destruct st;
    repeat match goal with
           | |- context [if ?c then _ else _] => destruct c eqn:?
           | |- context [match dechex ?x with _ => _ end] => destruct (dechex x) eqn:?
           | |- context [match decoct ?x with _ => _ end] => destruct (decoct x) eqn:?
           | |- context [match unsnoc ?x with _ => _ end] => destruct (unsnoc x) as [[? ?]|] eqn:?
           | |- context [match IndexByte ?x ?y with _ => _ end] => destruct (IndexByte x y) eqn:?
           | |- context [match ?x with Some _ => _ | None => _ end] => destruct x eqn:?
           | |- context [match ?x with DecFresh => _ | DecDone => _ end] => destruct x eqn:?
           end;
    try discriminate; psimpl; reflexivity.
Qed.

Lemma read_rune_braceless (p : Parser) (x : byte) (t : list byte) :
  x <> 123 -> fst (read_rune p (x :: t)) <> 123.
Proof.
  intros H. destruct (Z.lt_ge_cases x 128) as [Hx|Hx].
  - rewrite read_rune_ascii by exact Hx. exact H.
  - pose proof (@read_rune_high p x t Hx). lia.
Qed.

Lemma write_loop_in_envelope (sl : bool) (sb : option writeDecoder) (fuel : nat) :
  forall p prev rest r,
    braceless rest -> (0 < p_reissue p -> r <> 123) ->
    write_loop fuel (in_envelope sl sb p) prev rest r
    = outcome_map (in_envelope sl sb) (write_loop fuel p prev rest r).
Proof.
  induction fuel as [|fuel IH]; intros p prev rest r Ha Hr; [reflexivity|].
  unfold write_loop; fold write_loop.
  change (p_reissue (in_envelope sl sb p)) with (p_reissue p).
  destruct (Z.ltb_spec 0 (p_reissue p)) as [Hpos|Hz].
  - change (set_reissue (p_reissue p - 1) (in_envelope sl sb p))
      with (in_envelope sl sb (set_reissue (p_reissue p - 1) p)).
    rewrite dispatch_in_envelope by (apply Hr; exact Hpos).
    pose proof (@dispatch_flat (set_reissue (p_reissue p - 1) p) r prev rest (Hr Hpos)) as Hd.
    destruct (dispatch (set_reissue (p_reissue p - 1) p) r prev rest)
      as [q pv rest'|q rest' e|q rest'|]; cbn [action_map resume outcome_map];
      try reflexivity; try contradiction.
    destruct Hd as [k ->].
    apply IH; [apply Forall_skip; exact Ha | intros _; apply Hr; exact Hpos].
  - destruct rest as [|x t]; [reflexivity|].
    inversion Ha as [|x' t' X Ht]; subst.
    change (read_rune (in_envelope sl sb p) (x :: t)) with (read_rune p (x :: t)).
    pose proof (@read_rune_braceless p x t X) as R.
    destruct (read_rune p (x :: t)) as [r1 sz]. cbn [fst] in R.
    rewrite dispatch_in_envelope by exact R.
    pose proof (@dispatch_flat p r1 (nth_error (x :: t) (sz - 1)) (skipn sz (x :: t)) R) as Hd.
    destruct (dispatch p r1 (nth_error (x :: t) (sz - 1)) (skipn sz (x :: t)))
      as [q pv rest'|q rest' e|q rest'|]; cbn [action_map resume outcome_map];
      try reflexivity; try contradiction.
    destruct Hd as [k ->].
    apply IH; [apply Forall_skip; apply Forall_skip; exact Ha | intros _; exact R].
Qed.

Lemma dispatch_eof (p : Parser) (r : rune) (prev : option byte) (rest : list byte) :
  p_eof p = false ->
  match dispatch p r prev rest with
  | Continue q _ _ => p_eof q = false
  | Return_ _ _ None => False
  | _ => True
  end.
Proof.
  intros He. unfold dispatch, octal_digit. rewrite He.
  destruct (p_state p);
    repeat match goal with
           | |- context [if ?c then _ else _] => destruct c eqn:?
           | |- context [match dechex ?x with _ => _ end] => destruct (dechex x) eqn:?
           | |- context [match decoct ?x with _ => _ end] => destruct (decoct x) eqn:?
           | |- context [match unsnoc ?x with _ => _ end] => destruct (unsnoc x) as [[? ?]|] eqn:?
           | |- context [match IndexByte ?x ?y with _ => _ end] => destruct (IndexByte x y) eqn:?
           | |- context [match ?x with Some _ => _ | None => _ end] => destruct x eqn:?
           end;
    try exact I; psimpl; exact He.
Qed.

(** On input without an opening brace a call of [write] that returns
    without an error has consumed all its input, and has left the parser
    outside an envelope if it was outside one. *)
Lemma write_loop_braceless (fuel : nat) : forall p prev rest r,
  braceless rest -> (0 < p_reissue p -> r <> 123) -> p_eof p = false ->
  match write_loop fuel p prev rest r with
  | Returned q rest' None =>
    rest' = [] /\ p_eof q = false /\ p_sublexing q = p_sublexing p
  | _ => True
  end.
Proof.
  induction fuel as [|fuel IH]; intros p prev rest r Ha Hr He; [exact I|].
  unfold write_loop; fold write_loop.
  destruct (Z.ltb_spec 0 (p_reissue p)) as [Hpos|Hz].
  - set (p' := set_reissue (p_reissue p - 1) p).
    pose proof (@dispatch_flat p' r prev rest (Hr Hpos)) as Hd.
    pose proof (@dispatch_eof p' r prev rest He) as Hde.
    pose proof (@dispatch_sublexing p' r prev rest) as Hsl.
    destruct (dispatch p' r prev rest) as [q pv rest'|q rest' [e|]|q rest'|];
      cbn [resume]; try exact I; try contradiction.
    destruct Hd as [k ->].
    pose proof (IH q pv (skipn k rest) r (Forall_skip k Ha) (fun _ => Hr Hpos) Hde) as H.
    destruct (write_loop fuel q pv (skipn k rest) r) as [q' rest' [e|]| |]; try exact I.
    destruct H as (H1 & H2 & H3). repeat split; [exact H1 | exact H2 | rewrite H3; exact Hsl].
  - destruct rest as [|x t]; [repeat split; assumption|].
    inversion Ha as [|x' t' X Ht]; subst.
    pose proof (@read_rune_braceless p x t X) as R.
    destruct (read_rune p (x :: t)) as [r1 sz]. cbn [fst] in R.
    pose proof (@dispatch_flat p r1 (nth_error (x :: t) (sz - 1)) (skipn sz (x :: t)) R) as Hd.
    pose proof (@dispatch_eof p r1 (nth_error (x :: t) (sz - 1)) (skipn sz (x :: t)) He) as Hde.
    pose proof (@dispatch_sublexing p r1 (nth_error (x :: t) (sz - 1)) (skipn sz (x :: t)))
      as Hsl.
    destruct (dispatch p r1 (nth_error (x :: t) (sz - 1)) (skipn sz (x :: t)))
      as [q pv rest'|q rest' [e|]|q rest'|]; cbn [resume]; try exact I; try contradiction.
    destruct Hd as [k ->].
    pose proof (IH q pv (skipn k (skipn sz (x :: t))) r1
                  (Forall_skip k (Forall_skip sz Ha)) (fun _ => R) Hde) as H.
    destruct (write_loop fuel q pv (skipn k (skipn sz (x :: t))) r1)
      as [q' rest' [e|]| |]; try exact I.
    destruct H as (H1 & H2 & H3). repeat split; [exact H1 | exact H2 | rewrite H3; exact Hsl].
Qed.

(** X12: An envelope [{...}] that makes up the whole input and is short
    enough for the decoder to take it in one fill (at most [Copy_fill] =
    1024 bytes between the braces, whitespace included) is read as the
    bytes it encodes: when the base64 text between the braces decodes
    without an error to bytes that hold no opening brace, parsing the
    envelope gives what parsing those bytes gives. *)
Theorem envelope_read (f : Format) (e out : list byte) :
  allowVerbatimBase64BinaryString f = true -> ~ In 125 e ->
  len e <= Copy_fill ->
  b64_decode (filter_ws e) = (out, false) -> braceless out ->
  Parse f (123 :: e ++ [125]) = Parse f out.
Proof.
  intros Hv He _ Hdec Hout.
  destruct (NewParser_drifting f) as (Hd & Hf & _ & _ & Hsub).
  pose proof Hd as (Hs & Hr & Heof).
  set (p0 := NewParser f) in *.
  set (sbD := Some {| wd_b64dec := DecDone; wd_err := None |}).
  assert (W : forall sl p c, braceless c ->
            write (in_envelope sl sbD p) c = outcome_map (in_envelope sl sbD) (write p c)).
  { intros sl p c Hc. unfold write.
    change (write_fuel (in_envelope sl sbD p) c) with (write_fuel p c).
    apply write_loop_in_envelope; [exact Hc | intros _; lia]. }
  (* the reference run *)
  pose proof (@write_loop_braceless (write_fuel p0 out) p0 None out 0 Hout
                ltac:(intros _; lia) Heof) as Hb.
  pose proof (proj2 (@write_good p0 out Hr)) as G.
  fold (write p0 out) in Hb.
  (* the run on the envelope *)
  unfold Parse at 1. unfold Parser_Write, Parser_Write_with. fold p0. rewrite Hsub.
  rewrite brace_write; [| exact Hd | exact Hsub | fold p0 in Hf; rewrite Hf; exact Hv | exact He].
  unfold Parser_Write_with. psimpl.
  rewrite IndexByte_absent by exact He.
  rewrite firstn_app, firstn_all, Nat.sub_diag. cbn [firstn]. rewrite app_nil_r.
  assert (Hk : skipn (S (length e)) (e ++ [125]) = []).
  { apply skipn_all2. rewrite length_app. cbn [length]. lia. }
  rewrite Hk.
  unfold subb64_Write. psimpl. cbn [newWriteDecoder wd_err wd_b64dec]. rewrite Hdec.
  change (set_subb64 (Some {| wd_b64dec := DecDone; wd_err := None |})
            (set_subb64 (Some newWriteDecoder) (set_sublexing true p0)))
    with (in_envelope true sbD p0).
  assert (Tail : forall q, p_reissue q = 0 -> p_sublexing q = false ->
            match write (set_sublexing false (in_envelope true sbD q)) [] with
            | Returned p _ (Some e0) => Err e0
            | Returned p _ None =>
              match Close p with
              | Returned p' _ (Some e0) => Err e0
              | Returned p' _ None => Ok (p_tokens p')
              | Panicked => Panics
              | OutOfFuel => NoFuel
              end
            | Panicked => Panics
            | OutOfFuel => NoFuel
            end
            = match Close q with
              | Returned p' _ (Some e0) => Err e0
              | Returned p' _ None => Ok (p_tokens p')
              | Panicked => Panics
              | OutOfFuel => NoFuel
              end).
  { intros q Hrq Hsq. rewrite write_nil by exact Hrq.
    unfold Close, Parser_Write, Parser_Write_with. psimpl. rewrite Hsq.
    change (set_eof true (set_sublexing false (in_envelope true sbD q)))
      with (in_envelope false sbD (set_eof true q)).
    rewrite W by (repeat constructor; lia).
    destruct (write (set_eof true q) [0]) as [q' rest' [e0|]| |]; reflexivity. }
  unfold Parse, Parser_Write, Parser_Write_with. fold p0. rewrite Hsub.
  destruct out as [|o out'].
  - rewrite (@write_nil p0) by exact Hr. apply Tail; assumption.
  - rewrite W by exact Hout.
    destruct (write p0 (o :: out')) as [q rest1 [ew|]| |]; cbn [outcome_map];
      try reflexivity.
    destruct Hb as (-> & _ & Hsq). apply Tail; [apply (G q []); reflexivity|].
    rewrite Hsq. exact Hsub.
Qed.

Lemma envelope_read_witness :
  Parse SX (123 :: bytes_of "NTpoZ Wxsbw==" ++ [125]) = Parse SX (bytes_of "5:hello").
Proof.
  apply (@envelope_read SX (bytes_of "NTpoZ Wxsbw==") (bytes_of "5:hello")).
  - reflexivity.
  - cbn. intuition discriminate.
  - vm_compute. discriminate.
  - vm_compute. reflexivity.
  - unfold braceless. repeat constructor; cbn; lia.
Defined.

(* ------------------------------------------------------------------ *)
(** * Whitespace between atoms, and termination *)

Lemma spaces_run (w : list byte) : forall p k,
  drifting p -> forallb is_space w = true -> write p (w ++ k) = write p k.
Proof.
  induction w as [|x w IH]; intros p k Hd Hw; [reflexivity|].
  cbn [forallb] in Hw. apply andb_prop in Hw as [Hx Hw].
  pose proof Hd as (Hs & Hr & He).
  cbn [app]. rewrite (@write_one p p x (w ++ k)).
  - apply IH; assumption.
  - exact Hr.
  - left. unfold is_space in Hx. lia.
  - unfold dispatch. rewrite Hs, He, Hx. reflexivity.
  - exact Hr.
Qed.

(** X15: Whitespace between two atoms is ignored: where the parser is between
    two atoms, any number of spaces, tabs, carriage returns and line feeds
    can be put in or taken out without a change to the result. *)
Theorem whitespace_between_atoms (f : Format) (a : list byte) (p : Parser)
    (w k : list byte) :
  after_prefix f a p -> drifting p -> forallb is_space w = true ->
  Parse f (a ++ w ++ k) = Parse f (a ++ k).
Proof.
  intros [Hr Ha] Hd Hw. unfold Parse, Parser_Write, Parser_Write_with.
  destruct (NewParser_drifting f) as (_ & _ & _ & _ & ->).
  rewrite !Ha, spaces_run by assumption. reflexivity.
Qed.

Lemma whitespace_between_atoms_witness :
  Parse SX (bytes_of "(a)" ++ [32; 9; 13; 10] ++ bytes_of "(b)")
  = Parse SX (bytes_of "(a)" ++ bytes_of "(b)").
Proof.
  assert (Ha : plain (bytes_of "(a)"))
    by (unfold plain; repeat constructor; cbn; lia).
  destruct (write (NewParser SX) (bytes_of "(a)")) as [q rest [e|]| |] eqn:E;
    try (vm_compute in E; discriminate).
  apply (@whitespace_between_atoms SX (bytes_of "(a)") q [32; 9; 13; 10] (bytes_of "(b)")
           (@after_prefix_plain SX _ q rest Ha E)).
  - vm_compute in E. injection E as <- _. vm_compute. auto.
  - reflexivity.
Defined.

(** X17: The loop of [write] ends: every iteration consumes input or uses up
    a reissue, and no rune is dispatched more than three times, so a call
    on [n] bytes, started with no reissue pending, ends within [3n + 1]
    iterations (the content of an envelope is run within what is left of
    that bound); [Parse] always comes to an end. *)
Theorem write_terminates :
  (forall p b, p_reissue p = 0 ->
     write_loop (S (3 * length b)) p None b 0 <> OutOfFuel)
  /\ (forall f b, Parse f b <> NoFuel).
Proof.
  split.
  - intros p b Hr.
    pose proof (proj1 (@write_good p b Hr)) as G.
    unfold write, write_fuel in G. rewrite Hr in G. cbn [Z.to_nat] in G.
    replace (S (3 * length b + 3 * 0))%nat with (S (3 * length b)) in G by lia.
    exact G.
  - intros f b. apply Parse_total.
Qed.

(* ------------------------------------------------------------------ *)
(** * Selectors that are not made of strings *)

Lemma Q1bsyt_loop_walk (ss : list (list byte)) : forall (rest : list Value) (cur : list Value),
  Q1bsyt_loop (map VString ss ++ rest) cur =
  match walk ss cur with
  | None => QFound None
  | Some t => Q1bsyt_loop rest t
  end.
Proof.
  induction ss as [|s ss IH]; intros rest cur; [reflexivity|].
  cbn [map app Q1bsyt_loop walk].
  destruct (Q1bhyt cur s) as [c|]; [apply IH | reflexivity].
Qed.

(** A list of values is a run of strings, followed by nothing or by a
    value that is not a string. *)
Lemma leading_strings (vs : list Value) :
  (exists ss, vs = map VString ss)
  \/ (exists ss v rest, vs = map VString ss ++ v :: rest /\ forall s, v <> VString s).
Proof.
  induction vs as [|v vs IH]; [left; exists []; reflexivity|].
  assert (N : (forall s, v <> VString s) ->
              exists ss v0 rest, v :: vs = map VString ss ++ v0 :: rest
                                 /\ forall s, v0 <> VString s).
  { intros Hv. exists [], v, vs. split; [reflexivity | exact Hv]. }
  destruct v as [s| | | | | |]; try (right; apply N; intros s; discriminate).
  destruct IH as [(ss & ->)|(ss & v & rest & -> & Hv)].
  - left. exists (s :: ss). reflexivity.
  - right. exists (s :: ss), v, rest. split; [reflexivity | exact Hv].
Qed.

(** X27: When [Q1bsyt] panics.  The selector is parsed first, and a
    selector that does not parse makes [Q1bsyt] panic whatever [xs] is.
    Otherwise the elements of the selector are taken in order, and
    [Q1bsyt] panics exactly when it comes to an element that is not a
    string, every string before it having found its list; when a string
    before it finds no list, nil is returned and the element is never
    looked at.  So a selector that is one number, or one length-prefixed
    string [N:bytes] (read as a byte slice, not a string), or that starts
    with a closing parenthesis, panics whatever [xs] is. *)
Theorem Q1bsyt_panics (xs : list Value) :
  (forall sel,
     Q1bsyt xs sel = QPanic <->
     (forall selvs, Parse SX sel <> Ok selvs)
     \/ (exists ss v rest t,
           Parse SX sel = Ok (map VString ss ++ v :: rest)
           /\ (forall s, v <> VString s) /\ walk ss xs = Some t))
  /\ (forall d ds, Forall (fun x => is_digit x = true) (d :: ds) ->
     Q1bsyt xs (d :: ds) = QPanic)
  /\ (forall d ds s, Forall (fun x => is_digit x = true) (d :: ds) ->
      Forall (fun x => 0 <= x < 256) s -> len s = decimal (d :: ds) mod 2 ^ 64 ->
      Q1bsyt xs (d :: ds ++ 58 :: s) = QPanic)
  /\ (forall k, Q1bsyt xs (41 :: k) = QPanic).
Proof.
  split; [|split; [|split]].
  - intros sel. unfold Q1bsyt. split.
    + intros H. destruct (Parse SX sel) as [selvs| | |] eqn:E;
        try (left; intros selvs'; discriminate).
      right. destruct (leading_strings selvs) as [(ss & ->)|(ss & v & rest & -> & Hv)].
      * rewrite <- (app_nil_r (map VString ss)), Q1bsyt_loop_walk in H.
        destruct (walk ss xs); discriminate H.
      * rewrite Q1bsyt_loop_walk in H.
        destruct (walk ss xs) as [t|] eqn:W; [|discriminate H].
        exists ss, v, rest, t. auto.
    + intros [H|(ss & v & rest & t & E & Hv & W)].
      * destruct (Parse SX sel) as [selvs| | |]; try reflexivity.
        exfalso. apply (H selvs). reflexivity.
      * rewrite E, Q1bsyt_loop_walk, W.
        destruct v as [s| | | | | |]; try reflexivity.
        exfalso. apply (Hv s). reflexivity.
  - intros d ds Hd. unfold Q1bsyt.
    rewrite (proj1 (@integer_literal_parse SX d ds eq_refl Hd)).
    unfold integer_token. destruct (_ <=? _); reflexivity.
  - intros d ds s Hd Hs Hl. unfold Q1bsyt.
    rewrite (proj1 (@verbatim_string_parse SX d ds s eq_refl eq_refl Hd Hs) Hl).
    reflexivity.
  - intros k. unfold Q1bsyt.
    assert (E : Parse SX (41 :: k) = Err ErrListEnd).
    { unfold Parse, Parser_Write, Parser_Write_with. cbn [p_sublexing NewParser SX
        unicodeStream negb].
      rewrite write_step_ascii by (reflexivity || lia). reflexivity. }
    rewrite E. reflexivity.
Qed.

(* ------------------------------------------------------------------ *)
(** * UTF-8 text in the quoted strings of a Unicode stream *)

Lemma in_byte_range (lo n : nat) (x : Z) :
  Z.of_nat lo <= x < Z.of_nat lo + Z.of_nat n -> In x (map Z.of_nat (seq lo n)).
Proof.
  intros Hx. apply in_map_iff. exists (Z.to_nat x). split; [lia|]. apply in_seq. lia.
Qed.

Lemma decodes_back_2 (b0 b1 : byte) : decodes_back [b0; b1] = true.
Proof.
  destruct (well_formed [b0; b1]) eqn:W; [|unfold decodes_back; rewrite W; reflexivity].
  assert (H : forallb (fun a => forallb (fun b => decodes_back [a; b])
                (map Z.of_nat (seq 128 64))) (map Z.of_nat (seq 194 30)) = true)
    by (vm_compute; reflexivity).
  unfold well_formed, between in W.
  rewrite forallb_forall in H. specialize (H b0 (@in_byte_range 194 30 b0 ltac:(lia))).
  rewrite forallb_forall in H. exact (H b1 (@in_byte_range 128 64 b1 ltac:(lia))).
Qed.

Lemma decodes_back_3 (b0 b1 b2 : byte) : decodes_back [b0; b1; b2] = true.
Proof.
  destruct (well_formed [b0; b1; b2]) eqn:W;
    [|unfold decodes_back; rewrite W; reflexivity].
  assert (H : forallb (fun a => forallb (fun b => forallb (fun c => decodes_back [a; b; c])
                (map Z.of_nat (seq 128 64))) (map Z.of_nat (seq 128 64)))
                (map Z.of_nat (seq 224 16)) = true)
    by (vm_compute; reflexivity).
  unfold well_formed, between in W.
  rewrite forallb_forall in H. specialize (H b0 (@in_byte_range 224 16 b0 ltac:(lia))).
  rewrite forallb_forall in H. specialize (H b1 (@in_byte_range 128 64 b1 ltac:(lia))).
  rewrite forallb_forall in H. exact (H b2 (@in_byte_range 128 64 b2 ltac:(lia))).
Qed.

Lemma lor_shiftl_add (a n y : Z) :
  0 <= n -> 0 <= y < 2 ^ n -> Z.lor (Z.shiftl a n) y = a * 2 ^ n + y.
Proof.
  intros Hn Hy.
  assert (L : Z.land (Z.shiftl a n) y = 0).
  { apply Z.bits_inj'. intros i Hi. rewrite Z.land_spec, Z.bits_0.
    destruct (Z.lt_ge_cases i n) as [Hlt|Hge].
    - rewrite Z.shiftl_spec_low by exact Hlt. reflexivity.
    - rewrite <- (Z.mod_small y (2 ^ n)) by exact Hy.
      rewrite Z.mod_pow2_bits_high by lia. apply andb_false_r. }
  pose proof (Z.add_lor_land (Z.shiftl a n) y) as H.
  rewrite L, Z.shiftl_mul_pow2 in H by exact Hn.
  rewrite Z.shiftl_mul_pow2 by exact Hn. lia.
Qed.

Lemma decodes_back_4 (b0 b1 b2 b3 : byte) : decodes_back [b0; b1; b2; b3] = true.
Proof.
  destruct (well_formed [b0; b1; b2; b3]) eqn:W;
    [|unfold decodes_back; rewrite W; reflexivity].
  unfold decodes_back. rewrite W. cbn [implb length].
  unfold well_formed, between in W.
  assert (M0 : Z.land b0 7 = b0 - 240).
  { change 7 with (Z.ones 3). rewrite (Z.land_ones b0 3) by lia.
    apply (@mod_window b0 8 30); lia. }
  assert (M : forall b, 128 <= b <= 191 -> Z.land b 63 = b - 128).
  { intros b Hb. change 63 with (Z.ones 6). rewrite (Z.land_ones b 6) by lia.
    apply (@mod_window b 64 2); lia. }
  assert (L240 : forall x, 0 <= x < 16 -> Z.lor 240 x = 240 + x).
  { intros x Hx. change (Z.lor (Z.shiftl 15 4) x = 15 * 2 ^ 4 + x).
    apply lor_shiftl_add; lia. }
  assert (L128 : forall x, 0 <= x < 128 -> Z.lor 128 x = 128 + x).
  { intros x Hx. change (Z.lor (Z.shiftl 1 7) x = 1 * 2 ^ 7 + x).
    apply lor_shiftl_add; lia. }
  assert (E : DecodeRune [b0; b1; b2; b3]
              = ((b0 - 240) * 2 ^ 18 + ((b1 - 128) * 2 ^ 12
                 + ((b2 - 128) * 2 ^ 6 + (b3 - 128))), 4%nat)).
  { unfold DecodeRune, is_cont.
    replace (b0 <? 128) with false by (symmetry; lia).
    replace ((194 <=? b0) && (b0 <=? 223)) with false by (symmetry; lia).
    replace ((224 <=? b0) && (b0 <=? 239)) with false by (symmetry; lia).
    replace ((240 <=? b0) && (b0 <=? 244)) with true by (symmetry; lia).
    cbv zeta.
    match goal with |- (if ?c then _ else _) = _ =>
      replace c with true by (symmetry; destruct (b0 =? 240) eqn:?, (b0 =? 244) eqn:?; lia)
    end.
    rewrite M0, !M by lia.
    rewrite (@lor_shiftl_add (b2 - 128) 6 (b3 - 128)) by lia.
    rewrite (@lor_shiftl_add (b1 - 128) 12) by lia.
    rewrite (@lor_shiftl_add (b0 - 240) 18) by lia. reflexivity. }
  rewrite E. cbn [fst snd Nat.eqb andb].
  set (r := (b0 - 240) * 2 ^ 18 + ((b1 - 128) * 2 ^ 12 + ((b2 - 128) * 2 ^ 6 + (b3 - 128)))).
  assert (Hr : 65536 <= r <= 1114111) by (unfold r; lia).
  replace (128 <=? r) with true by (symmetry; lia). cbn [andb].
  apply bytes_eqb_eq. unfold string_of_rune.
  replace ((r <? 0) || (1114111 <? r) || ((55296 <=? r) && (r <=? 57343))) with false
    by (symmetry; lia).
  replace (r <=? 127) with false by (symmetry; lia).
  replace (r <=? 2047) with false by (symmetry; lia).
  replace (r <=? 65535) with false by (symmetry; lia).
  change 63 with (Z.ones 6). rewrite !Z.shiftr_div_pow2, !(Z.land_ones _ 6) by lia.
  assert (D18 : r / 2 ^ 18 = b0 - 240).
  { symmetry. apply (Z.div_unique r (2 ^ 18) (b0 - 240) (r - (b0 - 240) * 2 ^ 18));
      unfold r; lia. }
  assert (D12 : r / 2 ^ 12 mod 2 ^ 6 = b1 - 128).
  { replace (r / 2 ^ 12) with ((b0 - 240) * 2 ^ 6 + (b1 - 128)).
    - rewrite Z.add_comm, Z.mod_add by lia. apply Z.mod_small. lia.
    - apply (Z.div_unique r (2 ^ 12) _ ((b2 - 128) * 2 ^ 6 + (b3 - 128))); unfold r; lia. }
  assert (D6 : r / 2 ^ 6 mod 2 ^ 6 = b2 - 128).
  { replace (r / 2 ^ 6) with (((b0 - 240) * 2 ^ 6 + (b1 - 128)) * 2 ^ 6 + (b2 - 128)).
    - rewrite Z.add_comm, Z.mod_add by lia. apply Z.mod_small. lia.
    - apply (Z.div_unique r (2 ^ 6) _ (b3 - 128)); unfold r; lia. }
  assert (D0 : r mod 2 ^ 6 = b3 - 128).
  { unfold r.
    replace ((b0 - 240) * 2 ^ 18 + ((b1 - 128) * 2 ^ 12 + ((b2 - 128) * 2 ^ 6 + (b3 - 128))))
      with ((b3 - 128) + ((b0 - 240) * 2 ^ 12 + (b1 - 128) * 2 ^ 6 + (b2 - 128)) * 2 ^ 6)
      by lia.
    rewrite Z.mod_add by lia. apply Z.mod_small. lia. }
  rewrite D18, D12, D6, D0, L240, !L128 by lia.
  f_equal; [lia|]. f_equal; [lia|]. f_equal; [lia|]. f_equal. lia.
Qed.

Lemma DecodeRune_well_formed (u k : list byte) :
  well_formed u = true ->
  DecodeRune (u ++ k) = DecodeRune u
  /\ snd (DecodeRune u) = length u
  /\ 128 <= fst (DecodeRune u)
  /\ string_of_rune (fst (DecodeRune u)) = u.
Proof.
  intros W.
  assert (B : decodes_back u = true).
  { destruct u as [|b0 [|b1 [|b2 [|b3 [|b4 u]]]]]; try discriminate W.
    - apply decodes_back_2.
    - apply decodes_back_3.
    - apply decodes_back_4. }
  unfold decodes_back in B. rewrite W in B. cbn [implb] in B.
  apply andb_true_iff in B. destruct B as [B B3].
  apply andb_true_iff in B. destruct B as [B1 B2].
  apply Nat.eqb_eq in B1. apply bytes_eqb_eq in B3.
  split; [|split; [exact B1 | split; [lia | exact B3]]].
  clear B1 B2 B3.
  destruct u as [|b0 [|b1 [|b2 [|b3 [|b4 u]]]]]; try discriminate W;
    unfold well_formed, between in W; cbn [app]; unfold DecodeRune.
  - replace (b0 <? 128) with false by (symmetry; lia).
    replace ((194 <=? b0) && (b0 <=? 223)) with true by (symmetry; lia). reflexivity.
  - replace (b0 <? 128) with false by (symmetry; lia).
    replace ((194 <=? b0) && (b0 <=? 223)) with false by (symmetry; lia).
    replace ((224 <=? b0) && (b0 <=? 239)) with true by (symmetry; lia). reflexivity.
  - replace (b0 <? 128) with false by (symmetry; lia).
    replace ((194 <=? b0) && (b0 <=? 223)) with false by (symmetry; lia).
    replace ((224 <=? b0) && (b0 <=? 239)) with false by (symmetry; lia).
    replace ((240 <=? b0) && (b0 <=? 244)) with true by (symmetry; lia). reflexivity.
Qed.

(** One rune of several bytes that the [switch] accepts without a reissue. *)
Lemma write_rune (p q : Parser) (x : byte) (u k : list byte) (r : rune)
    (prev : option byte) :
  p_reissue p = 0 -> read_rune p (x :: u ++ k) = (r, S (length u)) ->
  dispatch p r (nth_error (x :: u ++ k) (length u)) k = Continue q prev k ->
  p_reissue q = 0 ->
  write p (x :: u ++ k) = write q k.
Proof.
  intros Hr E Hd Hq. rewrite write_step by exact Hr. rewrite E. cbn [fst snd].
  replace (S (length u) - 1)%nat with (length u) by lia.
  replace (skipn (S (length u)) (x :: u ++ k)) with k.
  - rewrite Hd. cbn [resume]. apply write_loop_enough; [exact Hq|].
    rewrite length_app. lia.
  - cbn [skipn]. rewrite skipn_app, skipn_all, Nat.sub_diag. reflexivity.
Qed.

(** One piece of the text of a quoted string, in a Unicode stream. *)
Lemma piece_run (c : piece) (p : Parser) (k : list byte) :
  p_state p = pstateQuotedString -> p_reissue p = 0 -> p_bytemode p = 0 ->
  piece_ok c = true ->
  write p (raw c ++ k) = write (s_append (repaired c) p) k.
Proof.
  intros Hs Hr Hb Hc.
  assert (Hq : forall r prev rest, 128 <= r ->
            dispatch p r prev rest = Continue (s_append (string_of_rune r) p) prev rest).
  { intros r prev rest H. unfold dispatch. rewrite Hs.
    replace (r =? 34) with false by (symmetry; lia).
    replace (r =? 92) with false by (symmetry; lia). reflexivity. }
  destruct c as [x|u|x]; cbn [raw repaired piece_ok] in *.
  - unfold between in Hc. cbn [app].
    replace (s_append [x] p) with (s_append (string_of_rune x) p)
      by (rewrite string_of_rune_one by lia; reflexivity).
    apply write_one; [exact Hr | left; lia | | exact Hr].
    unfold dispatch. rewrite Hs.
    replace (x =? 34) with false by (symmetry; lia).
    replace (x =? 92) with false by (symmetry; lia). reflexivity.
  - destruct (@DecodeRune_well_formed u k Hc) as (E1 & E2 & E3 & E4).
    destruct u as [|x u]; [discriminate Hc|].
    cbn [app].
    replace (s_append (x :: u) p)
      with (s_append (string_of_rune (fst (DecodeRune (x :: u)))) p)
      by (rewrite E4; reflexivity).
    apply (@write_rune p _ x u k (fst (DecodeRune (x :: u)))
             (nth_error (x :: u ++ k) (length u))).
    + exact Hr.
    + unfold read_rune. rewrite Hb. cbn [Z.eqb negb].
      change (x :: u ++ k) with ((x :: u) ++ k). rewrite E1.
      rewrite (surjective_pairing (DecodeRune (x :: u))), E2. reflexivity.
    + apply Hq. exact E3.
    + exact Hr.
  - cbn [app]. unfold between in Hc.
    apply (@write_rune p (s_append [239; 191; 189] p) x [] k RuneError (Some x)).
    + exact Hr.
    + unfold read_rune. rewrite Hb. cbn [Z.eqb negb app length]. unfold DecodeRune.
      replace (x <? 128) with false by (symmetry; lia).
      replace ((194 <=? x) && (x <=? 223)) with false by (symmetry; lia).
      replace ((224 <=? x) && (x <=? 239)) with false by (symmetry; lia).
      replace ((240 <=? x) && (x <=? 244)) with false by (symmetry; lia). reflexivity.
    + cbn [length app nth_error]. apply (Hq RuneError (Some x) k). unfold RuneError. lia.
    + exact Hr.
Qed.

Lemma pieces_run (cs : list piece) : forall (p : Parser) (k : list byte),
  p_state p = pstateQuotedString -> p_reissue p = 0 -> p_bytemode p = 0 ->
  forallb piece_ok cs = true ->
  write p (flat_map raw cs ++ k) = write (s_append (flat_map repaired cs) p) k.
Proof.
  induction cs as [|c cs IH]; intros p k Hs Hr Hb Hc.
  - cbn [flat_map app]. rewrite s_append_nil. reflexivity.
  - cbn [forallb] in Hc. apply andb_true_iff in Hc. destruct Hc as [Hc Hcs].
    cbn [flat_map]. rewrite <- app_assoc.
    rewrite piece_run by assumption.
    rewrite IH; [| exact Hs | exact Hr | exact Hb | exact Hcs].
    rewrite s_append_app. reflexivity.
Qed.

(** X28: UTF-8 text in a quoted string of a Unicode stream.  The text
    between the quotes is decoded rune by rune and encoded again: ASCII
    bytes and well-formed sequences of two, three and four bytes come back
    unchanged, while every byte that cannot start a sequence (a
    continuation byte, 0xC0, 0xC1, or a byte above 0xF4) is replaced by the
    three bytes of U+FFFD, so the string is not the input's bytes when the
    input is not UTF-8. *)
Theorem quoted_utf8_text (f : Format) (cs : list piece) :
  unicodeStream f = true -> allowQuotedString f = true ->
  forallb piece_ok cs = true ->
  Parse f (34 :: flat_map raw cs ++ [34]) = Ok [VString (flat_map repaired cs)].
Proof.
  intros Hu Hq Hc.
  destruct (NewParser_drifting f) as ((Hs & Hr & He) & Hf & _ & Ht & Hsub).
  destruct (NewParser_fresh f) as (Hps & _ & _ & Hbm).
  rewrite Hu in Hbm.
  set (q1 := set_state pstateQuotedString (NewParser f)).
  assert (E1 : forall t, write (NewParser f) (34 :: t) = write q1 t).
  { intros t. apply write_one; [exact Hr | left; lia | | exact Hr].
    unfold dispatch. rewrite Hs, He, Hf, Hq. reflexivity. }
  set (q2 := s_append (flat_map repaired cs) q1).
  set (q3 := set_s [] (push (VString (p_s q2)) (set_state pstateDrifting q2))).
  rewrite (@Parse_steps f (34 :: flat_map raw cs ++ [34]) q3).
  - unfold q3, q2, q1. psimpl. rewrite Ht, Hps. reflexivity.
  - rewrite E1, pieces_run by (reflexivity || assumption).
    apply write_one; [exact Hr | left; lia | | exact Hr]. reflexivity.
  - unfold drifting, q3, q2, q1. psimpl. auto.
  - exact Hsub.
Qed.

Lemma quoted_utf8_text_witness :
  Parse SX (34 :: flat_map raw [Plain 97; Seq [195; 169]; Stray 255;
                                Seq [226; 130; 172]; Stray 128;
                                Seq [240; 159; 152; 128]] ++ [34])
  = Ok [VString [97; 195; 169; 239; 191; 189; 226; 130; 172; 239; 191; 189;
                 240; 159; 152; 128]].
Proof.
  exact (@quoted_utf8_text SX
           [Plain 97; Seq [195; 169]; Stray 255; Seq [226; 130; 172]; Stray 128;
            Seq [240; 159; 152; 128]] eq_refl eq_refl eq_refl).
Defined.

(* ------------------------------------------------------------------ *)
(** * A rune cut in two by the end of a [Write] *)

(** The bytes after the first one of a well-formed sequence are
    continuation bytes. *)
Lemma well_formed_tail (x : byte) (w : list byte) :
  well_formed (x :: w) = true -> forallb piece_ok (map Stray w) = true.
Proof.
  intros W. destruct w as [|b1 [|b2 [|b3 [|b4 w]]]]; try discriminate W;
    unfold well_formed, between in W; cbn [map forallb piece_ok]; unfold between; lia.
Qed.

(** The first byte of a well-formed sequence, with only a part of the
    sequence after it, does not decode. *)
Lemma DecodeRune_cut (x : byte) (t u2 : list byte) :
  well_formed (x :: t ++ u2) = true -> u2 <> [] ->
  DecodeRune (x :: t) = (RuneError, 1%nat).
Proof.
  intros W N.
  destruct t as [|b1 [|b2 [|b3 [|b4 t]]]]; destruct u2 as [|c1 [|c2 [|c3 [|c4 u2]]]];
    cbn [app] in W; try discriminate W; try congruence;
    unfold well_formed, between in W; unfold DecodeRune, is_cont; cbv zeta;
    repeat match goal with
           | |- context [if ?c then _ else _] => destruct c eqn:?
           end; try reflexivity; lia.
Qed.

Lemma repaired_strays (w : list byte) :
  flat_map repaired (map Stray w) = flat_map (fun _ => [239; 191; 189]) w.
Proof. induction w as [|b w IH]; [reflexivity|]. cbn [map flat_map repaired]. rewrite IH. reflexivity. Qed.

Lemma raw_strays (w : list byte) : flat_map raw (map Stray w) = w.
Proof. induction w as [|b w IH]; [reflexivity|]. cbn [map flat_map raw app]. rewrite IH. reflexivity. Qed.

(** X29: A rune cut in two by the end of a [Write].  Inside a quoted string
    of a Unicode stream, a well-formed sequence given in one [Write] is
    appended to the string as it is; given in two [Write]s, the first
    ending inside the sequence, every byte of it is decoded on its own and
    the string receives one U+FFFD for each byte: [Write] decodes each
    buffer separately and keeps no partial rune. *)
Theorem rune_cut_by_Write (p : Parser) (u1 u2 : list byte) :
  p_state p = pstateQuotedString -> p_sublexing p = false ->
  p_reissue p = 0 -> p_bytemode p = 0 ->
  well_formed (u1 ++ u2) = true -> u1 <> [] -> u2 <> [] ->
  Parser_Write p (u1 ++ u2) = Returned (s_append (u1 ++ u2) p) [] None
  /\ exists q, Parser_Write p u1 = Returned q [] None
       /\ Parser_Write q u2
          = Returned (s_append (flat_map (fun _ => [239; 191; 189]) (u1 ++ u2)) p)
              [] None.
Proof.
  intros Hs Hsub Hr Hb W N1 N2.
  assert (PW : forall q b, p_sublexing q = false -> Parser_Write q b = write q b).
  { intros q b H. unfold Parser_Write, Parser_Write_with. rewrite H. reflexivity. }
  split.
  - rewrite PW by exact Hsub.
    pose proof (@piece_run (Seq (u1 ++ u2)) p [] Hs Hr Hb W) as R.
    cbn [raw repaired] in R. rewrite app_nil_r in R. rewrite R.
    apply write_nil. exact Hr.
  - destruct u1 as [|x t]; [congruence|]. cbn [app] in W.
    pose proof (@well_formed_tail x (t ++ u2) W) as T.
    rewrite map_app, forallb_app in T. apply andb_true_iff in T. destruct T as [T1 T2].
    set (q1 := s_append [239; 191; 189] p).
    set (q := s_append (flat_map repaired (map Stray t)) q1).
    assert (Hq1 : p_state q1 = pstateQuotedString /\ p_reissue q1 = 0
                  /\ p_bytemode q1 = 0 /\ p_sublexing q1 = false).
    { unfold q1. psimpl. auto. }
    destruct Hq1 as (A1 & A2 & A3 & A4).
    assert (Hq : p_state q = pstateQuotedString /\ p_reissue q = 0
                 /\ p_bytemode q = 0 /\ p_sublexing q = false).
    { unfold q. psimpl. auto. }
    destruct Hq as (B1 & B2 & B3 & B4).
    exists q. split.
    + rewrite PW by exact Hsub.
      assert (R1 : write p (x :: t) = write q1 t).
      { apply (@write_rune p q1 x [] t RuneError (Some x)).
        - exact Hr.
        - unfold read_rune. rewrite Hb. cbn [Z.eqb negb app length].
          apply (@DecodeRune_cut x t u2 W N2).
        - cbn [length app nth_error]. unfold dispatch. rewrite Hs. reflexivity.
        - exact A2. }
      pose proof (@pieces_run (map Stray t) q1 [] A1 A2 A3 T1) as R.
      rewrite raw_strays, app_nil_r in R. rewrite R1, R. apply write_nil. exact B2.
    + rewrite PW by exact B4.
      pose proof (@pieces_run (map Stray u2) q [] B1 B2 B3 T2) as R.
      rewrite raw_strays, app_nil_r in R. rewrite R.
      rewrite write_nil by (psimpl; exact B2).
      unfold q, q1. rewrite !s_append_app, !repaired_strays.
      cbn [app flat_map]. rewrite flat_map_app. reflexivity.
Qed.

Lemma rune_cut_by_Write_witness :
  Parser_Write (set_state pstateQuotedString (NewParser SX)) ([226; 130] ++ [172])
  = Returned (s_append ([226; 130] ++ [172])
                (set_state pstateQuotedString (NewParser SX))) [] None
  /\ exists q,
       Parser_Write (set_state pstateQuotedString (NewParser SX)) [226; 130]
       = Returned q [] None
       /\ Parser_Write q [172]
          = Returned (s_append (flat_map (fun _ => [239; 191; 189]) ([226; 130] ++ [172]))
                        (set_state pstateQuotedString (NewParser SX))) [] None.
Proof.
  apply (@rune_cut_by_Write (set_state pstateQuotedString (NewParser SX))
           [226; 130] [172]); try reflexivity; discriminate.
Defined.
